(** * The query result cache of [my_query_cache_plugin.cc]

    The cache is an intrusive doubly linked list of heap-allocated
    [CacheEntry] nodes hanging off a [QueryCacheContext].  The development
    has two layers:

    - a memory-level model, transcribed statement by statement from the C
      source: nodes live in a finite map from addresses to records, every
      dereference is a map lookup (a failed lookup is a fault), loops carry
      fuel;
    - a list-level view ([dll]) relating a context and a heap to the
      sequence of entries from head to tail, and list functions describing
      what every operation does to that sequence.

    The refinement lemmas connect the two, and the properties of the cache
    are then established for the memory-level functions. *)

From Stdlib Require Import Strings.String.
From stdpp Require Import base option list gmap.
From Stdlib Require Import ZArith Lia Strings.Byte.

Local Open Scope Z_scope.

(** ** Machine integers (LP64: 32-bit [int], 64-bit [size_t] and [time_t]) *)

Definition to_size_t (z : Z) : Z := z mod 2 ^ 64.
Definition to_int (z : Z) : Z := (z + 2 ^ 31) mod 2 ^ 32 - 2 ^ 31.
Definition to_time_t (z : Z) : Z := (z + 2 ^ 63) mod 2 ^ 64 - 2 ^ 63.

Definition INT_MAX : Z := 2 ^ 31 - 1.

(** [sizeof(CacheEntry)] on LP64: two pointers and two padded ints for the
    buffers, two [time_t], one padded int, two link pointers. *)
Definition sizeof_CacheEntry : Z := 72.

Definition DEFAULT_MAX_ENTRIES : Z := 1000.
Definition DEFAULT_MAX_SIZE : Z := 1024 * 1024 * 64.
Definition DEFAULT_TTL : Z := 3600.

(** ** Byte buffers and the two libc routines the cache calls *)

Definition NUL : byte := x00.

Definition len (b : list byte) : Z := Z.of_nat (length b).

(** [memcmp a b n]: sign of the first differing byte among the first [n]. *)
Fixpoint memcmp (a b : list byte) (n : nat) : Z :=
  match n, a, b with
  | S n', x :: a', y :: b' =>
      if Byte.eqb x y then memcmp a' b' n'
      else Z.of_N (Byte.to_N x) - Z.of_N (Byte.to_N y)
  | _, _, _ => 0
  end.

(** A buffer read as a C string: the bytes before the first NUL.  Buffers
    are stored without the terminator that [query_cache_put] appends, so
    the end of the list stands for it. *)
Fixpoint c_str (buf : list byte) : list byte :=
  match buf with
  | [] => []
  | b :: rest => if Byte.eqb b NUL then [] else b :: c_str rest
  end.

Fixpoint starts_with (needle hay : list byte) : bool :=
  match needle, hay with
  | [], _ => true
  | _ :: _, [] => false
  | x :: needle', y :: hay' => Byte.eqb x y && starts_with needle' hay'
  end.

Fixpoint strstr_scan (hay needle : list byte) : option (list byte) :=
  if starts_with needle hay then Some hay
  else match hay with
       | [] => None
       | _ :: hay' => strstr_scan hay' needle
       end.

(** [strstr haystack needle]: the suffix of the haystack at the first
    occurrence of the needle, or [None] for a null result. *)
Definition strstr (haystack needle : list byte) : option (list byte) :=
  strstr_scan (c_str haystack) (c_str needle).

(** ** Memory *)

(** Addresses of live objects; a C pointer is an [option ptr] with [None]
    for the null pointer. *)
Definition ptr := positive.

Record CacheEntry := mkCacheEntry {
  query : list byte;
  query_len : Z;
  result : list byte;
  result_len : Z;
  created_time : Z;
  last_access_time : Z;
  access_count : Z;
  next : option ptr;
  prev : option ptr
}.

Record QueryCacheContext := mkContext {
  head : option ptr;
  tail : option ptr;
  entry_count : Z;
  max_entries : Z;
  max_size : Z;
  current_size : Z;
  default_ttl : Z
}.

Abbreviation heap := (gmap ptr CacheEntry).

Record Mem := mkMem {
  cstore : gmap ptr QueryCacheContext;
  estore : gmap ptr CacheEntry
}.

Definition empty_mem : Mem := mkMem ∅ ∅.

(** Field assignments. *)

Definition set_next (e : CacheEntry) (v : option ptr) : CacheEntry :=
  mkCacheEntry (query e) (query_len e) (result e) (result_len e)
    (created_time e) (last_access_time e) (access_count e) v (prev e).

Definition set_prev (e : CacheEntry) (v : option ptr) : CacheEntry :=
  mkCacheEntry (query e) (query_len e) (result e) (result_len e)
    (created_time e) (last_access_time e) (access_count e) (next e) v.

Definition set_last_access_time (e : CacheEntry) (v : Z) : CacheEntry :=
  mkCacheEntry (query e) (query_len e) (result e) (result_len e)
    (created_time e) v (access_count e) (next e) (prev e).

Definition set_access_count (e : CacheEntry) (v : Z) : CacheEntry :=
  mkCacheEntry (query e) (query_len e) (result e) (result_len e)
    (created_time e) (last_access_time e) v (next e) (prev e).

Definition set_head (c : QueryCacheContext) (v : option ptr) : QueryCacheContext :=
  mkContext v (tail c) (entry_count c) (max_entries c) (max_size c)
    (current_size c) (default_ttl c).

Definition set_tail (c : QueryCacheContext) (v : option ptr) : QueryCacheContext :=
  mkContext (head c) v (entry_count c) (max_entries c) (max_size c)
    (current_size c) (default_ttl c).

Definition set_entry_count (c : QueryCacheContext) (v : Z) : QueryCacheContext :=
  mkContext (head c) (tail c) v (max_entries c) (max_size c)
    (current_size c) (default_ttl c).

Definition set_current_size (c : QueryCacheContext) (v : Z) : QueryCacheContext :=
  mkContext (head c) (tail c) (entry_count c) (max_entries c) (max_size c)
    v (default_ttl c).

(** [p->field = v] on the heap; a store through a dangling pointer faults. *)

Definition store_next (h : heap) (p : ptr) (v : option ptr) : option heap :=
  e ← h !! p; Some (<[p := set_next e v]> h).

Definition store_prev (h : heap) (p : ptr) (v : option ptr) : option heap :=
  e ← h !! p; Some (<[p := set_prev e v]> h).

Definition store_last_access_time (h : heap) (p : ptr) (v : Z) : option heap :=
  e ← h !! p; Some (<[p := set_last_access_time e v]> h).

Definition store_access_count (h : heap) (p : ptr) (v : Z) : option heap :=
  e ← h !! p; Some (<[p := set_access_count e v]> h).

(** ** The list primitives *)

(** [entry->query_len + entry->result_len + sizeof(CacheEntry)]: the two
    ints are added first, the sum is converted to [size_t]. *)
Definition entry_bytes (e : CacheEntry) : Z :=
  to_size_t (to_size_t (to_int (query_len e + result_len e)) + sizeof_CacheEntry).

Definition remove_cache_entry (ctx : QueryCacheContext) (h : heap) (entry : ptr)
  : option (QueryCacheContext * heap) :=
  e ← h !! entry;
  '(ctx, h) ← match prev e with
              | Some pp => h' ← store_next h pp (next e); Some (ctx, h')
              | None => Some (set_head ctx (next e), h)
              end;
  e ← h !! entry;
  '(ctx, h) ← match next e with
              | Some nn => h' ← store_prev h nn (prev e); Some (ctx, h')
              | None => Some (set_tail ctx (prev e), h)
              end;
  let ctx := set_entry_count ctx (to_int (entry_count ctx - 1)) in
  e ← h !! entry;
  let ctx := set_current_size ctx (to_size_t (current_size ctx - entry_bytes e)) in
  Some (ctx, delete entry h).

(** The loop condition of [add_cache_entry]: here every summand is
    converted to [size_t] before it is added. *)
Definition no_room (ctx : QueryCacheContext) (e : CacheEntry) : bool :=
  (max_entries ctx <=? entry_count ctx)
  || (max_size ctx <?
        to_size_t (to_size_t (to_size_t (current_size ctx + to_size_t (query_len e))
                              + to_size_t (result_len e))
                   + sizeof_CacheEntry)).

(** The eviction loop; the boolean tells whether the loop was left with
    room for the entry ([true]) or by the early return that frees it.
    Every loop of the model takes fuel and faults when it runs out; the
    callers pass one more than the number of allocated nodes, which is
    enough on a well-formed list (see the lemmas on [dll] below). *)
Fixpoint make_room (fuel : nat) (ctx : QueryCacheContext) (h : heap) (entry : ptr)
  : option (QueryCacheContext * heap * bool) :=
  match fuel with
  | O => None
  | S fuel' =>
      e ← h !! entry;
      if no_room ctx e then
        match tail ctx with
        | Some t =>
            '(ctx', h') ← remove_cache_entry ctx h t;
            make_room fuel' ctx' h' entry
        | None => Some (ctx, delete entry h, false)
        end
      else Some (ctx, h, true)
  end.

(** The insertion at the head that follows the loop. *)
Definition link_at_head (ctx : QueryCacheContext) (h : heap) (entry : ptr)
  : option (QueryCacheContext * heap) :=
  h ← store_next h entry (head ctx);
  h ← store_prev h entry None;
  '(ctx, h) ← match head ctx with
              | Some hp => h' ← store_prev h hp (Some entry); Some (ctx, h')
              | None => Some (set_tail ctx (Some entry), h)
              end;
  let ctx := set_head ctx (Some entry) in
  let ctx := set_entry_count ctx (to_int (entry_count ctx + 1)) in
  e ← h !! entry;
  let ctx := set_current_size ctx (to_size_t (current_size ctx + entry_bytes e)) in
  Some (ctx, h).

Definition add_cache_entry (ctx : QueryCacheContext) (h : heap) (entry : ptr)
  : option (QueryCacheContext * heap) :=
  '(ctx, h, room) ← make_room (S (size h)) ctx h entry;
  if room : bool then link_at_head ctx h entry else Some (ctx, h).

(** [now - entry->created_time > ctx->default_ttl] *)
Definition expired (ttl now : Z) (e : CacheEntry) : bool :=
  ttl <? to_time_t (now - created_time e).

(** [entry->query_len == query_len && memcmp(entry->query, query, query_len) == 0] *)
Definition key_matches (e : CacheEntry) (q : list byte) (qlen : Z) : bool :=
  (query_len e =? qlen) && (memcmp (query e) q (Z.to_nat qlen) =? 0).

(** The move-to-head block of [find_cache_entry], entered when the entry is
    not the head. *)
Definition move_to_head (ctx : QueryCacheContext) (h : heap) (entry : ptr)
  : option (QueryCacheContext * heap) :=
  e ← h !! entry;
  h ← match prev e with
      | Some pp => store_next h pp (next e)
      | None => Some h
      end;
  e ← h !! entry;
  '(ctx, h) ← match next e with
              | Some nn => h' ← store_prev h nn (prev e); Some (ctx, h')
              | None => Some (set_tail ctx (prev e), h)
              end;
  h ← store_next h entry (head ctx);
  h ← store_prev h entry None;
  hp ← head ctx;
  h ← store_prev h hp (Some entry);
  Some (set_head ctx (Some entry), h).

Fixpoint find_loop (fuel : nat) (ctx : QueryCacheContext) (h : heap)
    (entry : option ptr) (now : Z) (q : list byte) (qlen : Z)
  : option (QueryCacheContext * heap * option ptr) :=
  match entry with
  | None => Some (ctx, h, None)
  | Some p =>
      match fuel with
      | O => None
      | S fuel' =>
          e ← h !! p;
          if expired (default_ttl ctx) now e then
            '(ctx', h') ← remove_cache_entry ctx h p;
            find_loop fuel' ctx' h' (next e) now q qlen
          else if key_matches e q qlen then
            h ← store_last_access_time h p now;
            e ← h !! p;
            h ← store_access_count h p (to_int (access_count e + 1));
            if decide (Some p = head ctx) then Some (ctx, h, Some p)
            else
              '(ctx', h') ← move_to_head ctx h p;
              Some (ctx', h', Some p)
          else find_loop fuel' ctx h (next e) now q qlen
      end
  end.

Definition find_cache_entry (ctx : QueryCacheContext) (h : heap) (now : Z)
    (q : list byte) (qlen : Z)
  : option (QueryCacheContext * heap * option ptr) :=
  find_loop (S (size h)) ctx h (head ctx) now q qlen.

(** The counter [invalidated] of the source is written and never read; it
    is left out. *)
Fixpoint invalidate_loop (fuel : nat) (ctx : QueryCacheContext) (h : heap)
    (entry : option ptr) (table : list byte)
  : option (QueryCacheContext * heap) :=
  match entry with
  | None => Some (ctx, h)
  | Some p =>
      match fuel with
      | O => None
      | S fuel' =>
          e ← h !! p;
          match strstr (query e) table with
          | Some _ =>
              '(ctx', h') ← remove_cache_entry ctx h p;
              invalidate_loop fuel' ctx' h' (next e) table
          | None => invalidate_loop fuel' ctx h (next e) table
          end
      end
  end.

Fixpoint clear_loop (fuel : nat) (ctx : QueryCacheContext) (h : heap)
    (entry : option ptr) : option (QueryCacheContext * heap) :=
  match entry with
  | None => Some (ctx, h)
  | Some p =>
      match fuel with
      | O => None
      | S fuel' =>
          e ← h !! p;
          '(ctx', h') ← remove_cache_entry ctx h p;
          clear_loop fuel' ctx' h' (next e)
      end
  end.

(** The teardown loop frees the nodes without unlinking them. *)
Fixpoint destroy_loop (fuel : nat) (h : heap) (entry : option ptr) : option heap :=
  match entry with
  | None => Some h
  | Some p =>
      match fuel with
      | O => None
      | S fuel' => e ← h !! p; destroy_loop fuel' (delete p h) (next e)
      end
  end.

(** ** The plugin interface

    Every function takes the memory and the [void *ctx] handle.  The clock
    reading of [time(NULL)] and the outcome of each [malloc] are arguments:
    [a_entry] is the address returned for the node ([None] when the
    allocation fails), [a_query] and [a_result] tell whether the two buffer
    allocations succeed.  A result of [None] is a fault (a dereference of a
    null or dangling pointer) or a loop that does not end. *)

(** The context as [query_cache_create_context] initialises it. *)
Definition new_context : QueryCacheContext :=
  mkContext None None 0 DEFAULT_MAX_ENTRIES DEFAULT_MAX_SIZE 0 DEFAULT_TTL.

Definition query_cache_create_context (m : Mem) (a_ctx : option ptr)
  : Mem * option ptr :=
  match a_ctx with
  | None => (m, None)
  | Some p => (mkMem (<[p := new_context]> (cstore m)) (estore m), Some p)
  end.

Definition query_cache_destroy_context (m : Mem) (ctx : option ptr) : option Mem :=
  match ctx with
  | Some cp =>
      cache_ctx ← cstore m !! cp;
      h ← destroy_loop (S (size (estore m))) (estore m) (head cache_ctx);
      Some (mkMem (delete cp (cstore m)) h)
  | None => Some m
  end.

Definition query_cache_get (m : Mem) (ctx : option ptr) (now : Z) (q : list byte)
  : option (Mem * Z * option (list byte * Z)) :=
  cp ← ctx;
  cache_ctx ← cstore m !! cp;
  '(cache_ctx, h, entry) ← find_cache_entry cache_ctx (estore m) now q (len q);
  let m' := mkMem (<[cp := cache_ctx]> (cstore m)) h in
  match entry with
  | Some p => e ← h !! p; Some (m', 0, Some (result e, result_len e))
  | None => Some (m', 1, None)
  end.

(** The node that [query_cache_put] fills in before it calls
    [add_cache_entry]: copies of the two buffers with their lengths, both
    timestamps at the clock reading, an access count of 1, null links. *)
Definition new_entry (now : Z) (q r : list byte) : CacheEntry :=
  mkCacheEntry q (len q) r (len r) now now 1 None None.

(** The node enters the heap once its fields are written; when a buffer
    allocation fails the node is released again and the memory is as
    before. *)
Definition query_cache_put (m : Mem) (ctx : option ptr) (now : Z)
    (q r : list byte) (a_entry : option ptr) (a_query a_result : bool)
  : option (Mem * Z) :=
  match a_entry with
  | None => Some (m, 1)
  | Some entry =>
      if negb a_query then Some (m, 1)
      else if negb a_result then Some (m, 1)
      else
        let h := <[entry := new_entry now q r]> (estore m) in
        cp ← ctx;
        cache_ctx ← cstore m !! cp;
        '(cache_ctx, h) ← add_cache_entry cache_ctx h entry;
        Some (mkMem (<[cp := cache_ctx]> (cstore m)) h, 0)
  end.

Definition query_cache_invalidate (m : Mem) (ctx : option ptr) (table : list byte)
  : option (Mem * Z) :=
  cp ← ctx;
  cache_ctx ← cstore m !! cp;
  '(cache_ctx, h) ← invalidate_loop (S (size (estore m))) cache_ctx (estore m)
                      (head cache_ctx) table;
  Some (mkMem (<[cp := cache_ctx]> (cstore m)) h, 0).

Definition query_cache_clear (m : Mem) (ctx : option ptr) : option (Mem * Z) :=
  cp ← ctx;
  cache_ctx ← cstore m !! cp;
  '(cache_ctx, h) ← clear_loop (S (size (estore m))) cache_ctx (estore m)
                      (head cache_ctx);
  Some (mkMem (<[cp := cache_ctx]> (cstore m)) h, 0).

(** ** The list-level view *)

Definition len_items (l : list (ptr * CacheEntry)) : Z := Z.of_nat (length l).

(** An item of the view: the address of a node and its contents with the
    two link fields cleared. *)
Definition unlinked (e : CacheEntry) : CacheEntry :=
  set_prev (set_next e None) None.

Definition ptrs (l : list (ptr * CacheEntry)) : list ptr := l.*1.

(** [dlseg h pv l nx hd tl]: the nodes of [l] form a doubly linked segment
    of [h] from [hd] to [tl]; [pv] is the back link of the first node and
    [nx] the forward link of the last. *)
Fixpoint dlseg (h : heap) (pv : option ptr) (l : list (ptr * CacheEntry))
    (nx hd tl : option ptr) : Prop :=
  match l with
  | [] => hd = nx ∧ tl = pv
  | (p, d) :: l' =>
      hd = Some p ∧
      ∃ e, h !! p = Some e ∧ unlinked e = d ∧ prev e = pv ∧
           dlseg h (Some p) l' nx (next e) tl
  end.

Definition sum_bytes (l : list (ptr * CacheEntry)) : Z :=
  foldr (λ x acc, entry_bytes x.2 + acc) 0 l.

Definition same_config (c c' : QueryCacheContext) : Prop :=
  max_entries c' = max_entries c ∧ max_size c' = max_size c ∧
  default_ttl c' = default_ttl c.

(** [dll ctx h l]: the context [ctx] and the heap [h] hold exactly the
    sequence [l], head first, and the two counters of the context agree
    with it. *)
Definition dll (ctx : QueryCacheContext) (h : heap) (l : list (ptr * CacheEntry)) : Prop :=
  dlseg h None l None (head ctx) (tail ctx) ∧
  NoDup (ptrs l) ∧
  entry_count ctx = to_int (len_items l) ∧
  current_size ctx = to_size_t (sum_bytes l).

(** ** What the operations do to the sequence of entries *)

Definition hd_ptr (l : list (ptr * CacheEntry)) : option ptr :=
  match l with
  | [] => None
  | (p, _) :: _ => Some p
  end.

(** The two field updates of a hit. *)
Definition touch (now : Z) (d : CacheEntry) : CacheEntry :=
  set_access_count (set_last_access_time d now) (to_int (access_count d + 1)).

(** The scan of [find_cache_entry]: [kept] is the part of the list already
    walked over and still linked, [rest] the part from the cursor on. *)
Fixpoint find_items (ttl now : Z) (q : list byte) (qlen : Z)
    (kept rest : list (ptr * CacheEntry))
  : list (ptr * CacheEntry) * option (ptr * CacheEntry) :=
  match rest with
  | [] => (kept, None)
  | (p, d) :: rest' =>
      if expired ttl now d then find_items ttl now q qlen kept rest'
      else if key_matches d q qlen then
        ((p, touch now d) :: kept ++ rest', Some (p, touch now d))
      else find_items ttl now q qlen (kept ++ [(p, d)]) rest'
  end.

(** The loop condition of [add_cache_entry] read on the sequence: [me] and
    [ms] are the two limits of the context. *)
Definition no_room_items (me ms : Z) (d : CacheEntry)
    (l : list (ptr * CacheEntry)) : bool :=
  (me <=? to_int (len_items l))
  || (ms <? to_size_t (to_size_t (sum_bytes l) + query_len d + result_len d
                       + sizeof_CacheEntry)).

(** The eviction loop on the reversed sequence (tail first); the boolean
    tells whether room was found. *)
Fixpoint evict_rev (me ms : Z) (d : CacheEntry)
    (r : list (ptr * CacheEntry)) : list (ptr * CacheEntry) * bool :=
  match r with
  | [] => ([], negb (no_room_items me ms d []))
  | _ :: r' =>
      if no_room_items me ms d (rev r) then evict_rev me ms d r' else (rev r, true)
  end.

Definition evict_items (me ms : Z) (d : CacheEntry)
    (l : list (ptr * CacheEntry)) : list (ptr * CacheEntry) * bool :=
  evict_rev me ms d (rev l).

Definition add_items (me ms : Z) (p : ptr) (d : CacheEntry)
    (l : list (ptr * CacheEntry)) : list (ptr * CacheEntry) :=
  let '(l', room) := evict_items me ms d l in
  if room : bool then (p, d) :: l' else l'.

Definition mentions (table : list byte) (d : CacheEntry) : bool :=
  match strstr (query d) table with
  | Some _ => true
  | None => false
  end.

Definition invalidate_items (table : list byte) (l : list (ptr * CacheEntry))
  : list (ptr * CacheEntry) :=
  List.filter (λ x, negb (mentions table x.2)) l.

(** How a heap changes along an operation that only unlinks nodes of [l]:
    nodes outside [l] are untouched, nodes that left the list are freed. *)
Definition shrinks (h h' : heap) (l l' : list (ptr * CacheEntry)) : Prop :=
  (∀ q, q ∈ ptrs l' → q ∈ ptrs l) ∧
  (∀ q, q ∉ ptrs l → h' !! q = h !! q) ∧
  (∀ q, q ∈ ptrs l → q ∉ ptrs l' → h' !! q = None).

(** ** The invariant of a live cache *)

(** Lengths that the [int] parameters of the interface can carry (the
    buffers are allocated with one more byte). *)
Definition valid_len (b : list byte) : Prop := len b < INT_MAX.

(** An item as [query_cache_put] makes them: the length fields describe the
    buffers. *)
Definition entry_ok (d : CacheEntry) : Prop :=
  query_len d = len (query d) ∧ result_len d = len (result d) ∧
  valid_len (query d) ∧ valid_len (result d).

(** Limits under which the size arithmetic of the source does not wrap. *)
Definition config_ok (ctx : QueryCacheContext) : Prop :=
  0 ≤ max_entries ctx ≤ INT_MAX ∧ 0 ≤ max_size ctx ≤ INT_MAX.

Definition default_config (ctx : QueryCacheContext) : Prop :=
  max_entries ctx = DEFAULT_MAX_ENTRIES ∧ max_size ctx = DEFAULT_MAX_SIZE ∧
  default_ttl ctx = DEFAULT_TTL.

Definition within_limits (ctx : QueryCacheContext) (l : list (ptr * CacheEntry)) : Prop :=
  len_items l ≤ max_entries ctx ∧ sum_bytes l ≤ max_size ctx.

(** [cache_inv m cp ctx l]: the handle [cp] designates the context [ctx],
    whose list is [l], within the limits of the configuration. *)
Definition cache_inv (m : Mem) (cp : ptr) (ctx : QueryCacheContext)
    (l : list (ptr * CacheEntry)) : Prop :=
  cstore m !! cp = Some ctx ∧ dll ctx (estore m) l ∧
  config_ok ctx ∧ within_limits ctx l ∧ Forall (λ x, entry_ok x.2) l.

(** ** Vocabulary of the statements *)

(** The accounted size of an entry for [q] and [r]. *)
Definition entry_size (q r : list byte) : Z := len q + len r + sizeof_CacheEntry.

(** Both limits leave room for one more entry for [q] and [r] on top of
    [kept]. *)
Definition fits (ctx : QueryCacheContext) (kept : list (ptr * CacheEntry))
    (q r : list byte) : Prop :=
  len_items kept < max_entries ctx ∧
  sum_bytes kept + len q + len r + sizeof_CacheEntry ≤ max_size ctx.

(** An entry that a scan at time [now] leaves in place. *)
Definition live (ttl now : Z) (x : ptr * CacheEntry) : bool :=
  negb (expired ttl now x.2).

(** The scan walks over an entry without stopping: it is expired or has
    another key. *)
Definition passed (ttl now : Z) (q : list byte) (qlen : Z)
    (x : ptr * CacheEntry) : Prop :=
  expired ttl now x.2 = true ∨ key_matches x.2 q qlen = false.

(** What [query_cache_get] returns for the result of a scan: the status and
    the two out-parameters. *)
Definition get_outcome (hit : option (ptr * CacheEntry))
  : Z * option (list byte * Z) :=
  match hit with
  | Some (_, d) => (0, Some (result d, result_len d))
  | None => (1, None)
  end.

(** [holds d t q r]: the entry [d] was made by a put of [(q, r)] at clock
    reading [t]; hits may have touched it since. *)
Definition holds (d : CacheEntry) (t : Z) (q r : list byte) : Prop :=
  entry_ok d ∧ created_time d = t ∧ query d = q ∧ result d = r ∧
  entry_bytes d = entry_bytes (new_entry t q r).

(** All clock readings of a scenario lie in one window of [ttl] seconds. *)
Definition in_window (ttl t0 : Z) (times : list Z) : Prop :=
  Forall (λ t, t0 ≤ t ≤ t0 + ttl) times.

Definition is_substring (t s : list byte) : Prop :=
  ∃ pre post, s = pre ++ t ++ post.

Definition nul_free (s : list byte) : Prop := NUL ∉ s.

(** ** Runs of the interface *)

Inductive op :=
  | Get (now : Z) (q : list byte)
  | Put (now : Z) (q r : list byte) (a_entry : option ptr) (a_query a_result : bool)
  | Invalidate (table : list byte)
  | Clear.

Inductive outcome :=
  | Hit (r : list byte) (r_len : Z)
  | Miss
  | Status (rc : Z).

Definition outcome_of (hit : option (ptr * CacheEntry)) : outcome :=
  match hit with
  | Some (_, d) => Hit (result d) (result_len d)
  | None => Miss
  end.

Definition step (cp : ptr) (m : Mem) (o : op) : option (Mem * outcome) :=
  match o with
  | Get now q =>
      '(m', rc, out) ← query_cache_get m (Some cp) now q;
      Some (m', match out with
                | Some (r, n) => Hit r n
                | None => Miss
                end)
  | Put now q r a aq ar =>
      '(m', rc) ← query_cache_put m (Some cp) now q r a aq ar;
      Some (m', Status rc)
  | Invalidate table =>
      '(m', rc) ← query_cache_invalidate m (Some cp) table;
      Some (m', Status rc)
  | Clear =>
      '(m', rc) ← query_cache_clear m (Some cp);
      Some (m', Status rc)
  end.

Fixpoint run (cp : ptr) (m : Mem) (ops : list op) : option (Mem * list outcome) :=
  match ops with
  | [] => Some (m, [])
  | o :: ops' =>
      '(m1, out) ← step cp m o;
      '(m2, outs) ← run cp m1 ops';
      Some (m2, out :: outs)
  end.

(** What the caller and the allocator owe to an operation: lengths an
    [int] can carry, and a node address that is not in use. *)
Definition op_ok (m : Mem) (o : op) : Prop :=
  match o with
  | Put _ q r a _ _ =>
      valid_len q ∧ valid_len r ∧
      match a with
      | Some p => estore m !! p = None
      | None => True
      end
  | _ => True
  end.

(** The states of a context created by [query_cache_create_context] and
    used through the interface. *)
Inductive reachable (cp : ptr) : Mem → Prop :=
  | reach_create m0 :
      reachable cp (query_cache_create_context m0 (Some cp)).1
  | reach_step m o m' out :
      reachable cp m → op_ok m o → step cp m o = Some (m', out) →
      reachable cp m'.

(** ** Sample data for the examples *)

Definition sample_ctx : ptr := 1%positive.

(** A context fresh from [query_cache_create_context] in an empty memory. *)
Definition fresh_mem : Mem :=
  (query_cache_create_context empty_mem (Some sample_ctx)).1.

(** The memory after a run from the fresh context. *)
Definition mem_after (ops : list op) : Mem :=
  match run sample_ctx fresh_mem ops with
  | Some (m, _) => m
  | None => fresh_mem
  end.

Definition key_q : list byte := list_byte_of_string "SELECT 1".
Definition val_r : list byte := list_byte_of_string "1".

(** One entry, put at clock reading 100. *)
Definition one_entry_mem : Mem :=
  mem_after [Put 100 key_q val_r (Some 2%positive) true true].

Definition one_entry_ctx : QueryCacheContext :=
  mkContext (Some 2%positive) (Some 2%positive) 1 DEFAULT_MAX_ENTRIES
    DEFAULT_MAX_SIZE 81 DEFAULT_TTL.

Definition one_entry_list : list (ptr * CacheEntry) :=
  [(2%positive, new_entry 100 key_q val_r)].

(** A value a few bytes short of the size limit. *)
Definition big_result : list byte :=
  replicate (Z.to_nat (DEFAULT_MAX_SIZE - 16)) "r"%byte.

(** A context with room for two entries, as [query_cache_create_context]
    makes them but for [max_entries]. *)
Definition two_slot_ctx : QueryCacheContext :=
  mkContext None None 0 2 DEFAULT_MAX_SIZE 0 DEFAULT_TTL.

Definition two_slot_mem : Mem := mkMem {[ sample_ctx := two_slot_ctx ]} ∅.

Definition key_a : list byte := list_byte_of_string "SELECT a".
Definition key_b : list byte := list_byte_of_string "SELECT b".
Definition key_c : list byte := list_byte_of_string "SELECT c".
Definition val_a : list byte := list_byte_of_string "a1".
Definition val_b : list byte := list_byte_of_string "b2".
Definition val_c : list byte := list_byte_of_string "c3".

Definition key_orders : list byte := list_byte_of_string "SELECT * FROM orders".
Definition key_users : list byte := list_byte_of_string "SELECT * FROM users".
Definition table_orders : list byte := list_byte_of_string "orders".

(** A key with an embedded NUL byte in front of the table name. *)
Definition key_nul_orders : list byte :=
  list_byte_of_string "SELECT" ++ [NUL] ++ list_byte_of_string "FROM orders".

(** ** Histories

    [history cp m0 ops outs m]: the context [cp] was created in the memory
    [m0], the operations [ops] were then issued on it in this order, each
    one meeting [op_ok] in the state it found, they returned [outs], and
    the memory is now [m]. *)
Inductive history (cp : ptr) (m0 : Mem) : list op → list outcome → Mem → Prop :=
  | history_create :
      history cp m0 [] [] (query_cache_create_context m0 (Some cp)).1
  | history_step ops outs m o out m' :
      history cp m0 ops outs m → op_ok m o → step cp m o = Some (m', out) →
      history cp m0 (ops ++ [o]) (outs ++ [out]) m'.

(** The operations that cannot remove an entry stored under the key [q]
    other than by expiry or eviction: all but [Clear] and an [Invalidate]
    whose [strstr] finds the table name in the key. *)
Definition spares (q : list byte) (o : op) : Prop :=
  match o with
  | Clear => False
  | Invalidate table => strstr q table = None
  | _ => True
  end.

(** The entry [x] of the list stems from a put in the history [ops], issued
    with the node address, the key, the value and the creation time that
    the entry carries, and spared by every operation since. *)
Definition backed (ops : list op) (x : ptr * CacheEntry) : Prop :=
  ∃ pre post,
    ops = pre ++ Put (created_time x.2) (query x.2) (result x.2) (Some x.1) true true
                 :: post ∧
    Forall (spares (query x.2)) post.

(** ** One step on the list *)

(** How the node store changes along an operation that takes the list from
    [l] to [l']: a node that entered the list was unallocated before, a
    node that left it is freed, every other address is untouched. *)
Definition turns (h h' : heap) (l l' : list (ptr * CacheEntry)) : Prop :=
  (∀ a, a ∈ ptrs l' → a ∉ ptrs l → h !! a = None) ∧
  (∀ a, a ∉ ptrs l' → a ∈ ptrs l → h' !! a = None) ∧
  (∀ a, a ∉ ptrs l' → a ∉ ptrs l → h' !! a = h !! a).

(** The list that an operation leaves, read off the list functions. *)
Definition list_after (ctx : QueryCacheContext) (o : op)
    (l : list (ptr * CacheEntry)) : list (ptr * CacheEntry) :=
  match o with
  | Get now q => (find_items (default_ttl ctx) now q (len q) [] l).1
  | Put now q r (Some p) true true =>
      add_items (max_entries ctx) (max_size ctx) p (new_entry now q r) l
  | Put _ _ _ _ _ _ => l
  | Invalidate table => invalidate_items table l
  | Clear => []
  end.

(** What an operation returns, read off the list functions. *)
Definition outcome_after (ctx : QueryCacheContext) (o : op)
    (l : list (ptr * CacheEntry)) : outcome :=
  match o with
  | Get now q => outcome_of (find_items (default_ttl ctx) now q (len q) [] l).2
  | Put _ _ _ (Some _) true true => Status 0
  | Put _ _ _ _ _ _ => Status 1
  | Invalidate _ => Status 0
  | Clear => Status 0
  end.

(** ** Sizes without wrap-around *)

(** The size the source accounts for a list, without wrap-around. *)
Definition accounted (l : list (ptr * CacheEntry)) : Z :=
  foldr (λ x acc, len (query x.2) + len (result x.2) + sizeof_CacheEntry + acc) 0 l.

(** The entry [x] by itself is within the size limit [ms]. *)
Definition sized (ms : Z) (x : ptr * CacheEntry) : Prop :=
  entry_size (query x.2) (result x.2) ≤ ms.

(** ** Clock readings

    [clock o]: the reading of [time(NULL)] that the operation takes, if it
    takes one -- a put reads the clock only once its allocations have
    succeeded. *)
Definition clock (o : op) : option Z :=
  match o with
  | Get now _ => Some now
  | Put now _ _ (Some _) true true => Some now
  | _ => None
  end.

Fixpoint steady_from (lo : Z) (ts : list Z) : Prop :=
  match ts with
  | [] => True
  | t :: ts' => lo ≤ t < 2 ^ 62 ∧ steady_from t ts'
  end.

(** The clock does not step back along the operations, and its readings
    are non-negative and far from the end of [time_t]. *)
Definition steady (ops : list op) : Prop := steady_from 0 (omap clock ops).

(** A put that stores an entry for the key [q]. *)
Definition stores (q : list byte) (o : op) : Prop :=
  match o with
  | Put _ q' _ (Some _) true true => q' = q
  | _ => False
  end.

(** The entry [x] stems from the most recent put of its key, and has been
    spared since. *)
Definition fresh (ops : list op) (x : ptr * CacheEntry) : Prop :=
  ∃ pre post,
    ops = pre ++ Put (created_time x.2) (query x.2) (result x.2) (Some x.1) true true
                 :: post ∧
    Forall (spares (query x.2)) post ∧
    Forall (λ o, ¬ stores (query x.2) o) post.

(** The entry [x] was already expired at a clock reading of the history. *)
Definition outdated (ops : list op) (x : ptr * CacheEntry) : Prop :=
  ∃ T, T ∈ omap clock ops ∧ created_time x.2 + DEFAULT_TTL < T.

(** Every entry of the list is fresh, or outdated, or stands behind an
    entry with the same key that is not older. *)
Definition ranked (ops : list op) (l : list (ptr * CacheEntry)) : Prop :=
  ∀ l1 x l2,
    l = l1 ++ x :: l2 →
    fresh ops x ∨ outdated ops x ∨
    ∃ f, f ∈ l1 ∧ query f.2 = query x.2 ∧ created_time x.2 ≤ created_time f.2.

(** ** Load

    The number of entries that the puts of a history stored, and their
    accounted bytes. *)
Definition stored_count (ops : list op) : Z :=
  foldr (λ o acc, match o with
                  | Put _ _ _ (Some _) true true => 1 + acc
                  | _ => acc
                  end) 0 ops.

Definition stored_bytes (ops : list op) : Z :=
  foldr (λ o acc, match o with
                  | Put _ q r (Some _) true true => entry_size q r + acc
                  | _ => acc
                  end) 0 ops.

(** All that the history stored fits in the default limits together. *)
Definition unpressed (ops : list op) : Prop :=
  stored_count ops ≤ DEFAULT_MAX_ENTRIES ∧ stored_bytes ops ≤ DEFAULT_MAX_SIZE.

(** The list holds no more than the history stored, and it holds the entry
    of every put that has been spared since and whose age did not exceed
    the TTL at any clock reading since. *)
Definition settled (ops : list op) (l : list (ptr * CacheEntry)) : Prop :=
  len_items l ≤ stored_count ops ∧ sum_bytes l ≤ stored_bytes ops ∧
  ∀ pre t q r a post,
    ops = pre ++ Put t q r (Some a) true true :: post →
    Forall (spares q) post →
    Forall (λ g, g ≤ t + DEFAULT_TTL) (omap clock post) →
    ∃ d, (a, d) ∈ l ∧ query d = q ∧ result d = r ∧ created_time d = t.

(** ** Recency

    The list is in the order of last access, most recent first: behind
    every entry stand only entries whose [last_access_time] is not later,
    and every [last_access_time] is a clock reading of the history. *)
Definition by_recency (ops : list op) (l : list (ptr * CacheEntry)) : Prop :=
  Forall (λ x, last_access_time x.2 ∈ omap clock ops) l ∧
  ∀ l1 x l2,
    l = l1 ++ x :: l2 →
    Forall (λ y, last_access_time y.2 ≤ last_access_time x.2) l2.

(** ** Further sample data *)

(** A full cache of two slots: A put at clock reading 10, B at 11. *)
Definition two_slot_full_mem : Mem :=
  match run sample_ctx two_slot_mem
          [Put 10 key_a val_a (Some 2%positive) true true;
           Put 11 key_b val_b (Some 3%positive) true true] with
  | Some (m, _) => m
  | None => two_slot_mem
  end.

Definition two_slot_full_ctx : QueryCacheContext :=
  mkContext (Some 3%positive) (Some 2%positive) 2 2 DEFAULT_MAX_SIZE 164 DEFAULT_TTL.

(** A history with a second key, a hit on it and an unrelated
    invalidation. *)
Definition busy_ops : list op :=
  [Put 100 key_q val_r (Some 2%positive) true true;
   Put 150 key_a val_a (Some 3%positive) true true;
   Get 160 key_a;
   Invalidate table_orders].

(** * Proofs *)

Arguments ptrs : simpl never.
Arguments sum_bytes : simpl never.
Arguments len_items : simpl never.

(** ** Machine arithmetic *)

Lemma to_size_t_small z : 0 ≤ z < 2 ^ 64 → to_size_t z = z.
Proof. intros. unfold to_size_t. by apply Z.mod_small. Qed.

Lemma to_size_t_range z : 0 ≤ to_size_t z < 2 ^ 64.
Proof. unfold to_size_t. apply Z.mod_pos_bound. lia. Qed.

Lemma to_size_t_add_l a b : to_size_t (to_size_t a + b) = to_size_t (a + b).
Proof. unfold to_size_t. by rewrite Zplus_mod_idemp_l. Qed.

Lemma to_size_t_add_r a b : to_size_t (a + to_size_t b) = to_size_t (a + b).
Proof. unfold to_size_t. by rewrite Zplus_mod_idemp_r. Qed.

Lemma to_size_t_sub_l a b : to_size_t (to_size_t a - b) = to_size_t (a - b).
Proof. unfold to_size_t. by rewrite Zminus_mod_idemp_l. Qed.

Lemma to_int_small z : - 2 ^ 31 ≤ z < 2 ^ 31 → to_int z = z.
Proof. intros. unfold to_int. rewrite Z.mod_small; lia. Qed.

Lemma to_int_add_l a b : to_int (to_int a + b) = to_int (a + b).
Proof.
  unfold to_int.
  replace ((a + 2 ^ 31) mod 2 ^ 32 - 2 ^ 31 + b + 2 ^ 31)
    with ((a + 2 ^ 31) mod 2 ^ 32 + b) by lia.
  rewrite Zplus_mod_idemp_l. f_equal. f_equal. lia.
Qed.

Lemma to_time_t_small z : - 2 ^ 63 ≤ z < 2 ^ 63 → to_time_t z = z.
Proof. intros. unfold to_time_t. rewrite Z.mod_small; lia. Qed.

(** ** Doubly linked segments *)

Lemma unlinked_set_prev e v : unlinked (set_prev e v) = unlinked e.
Proof. by destruct e. Qed.

Lemma ptrs_app l1 l2 : ptrs (l1 ++ l2) = ptrs l1 ++ ptrs l2.
Proof. unfold ptrs. apply fmap_app. Qed.

Lemma ptrs_cons p d l : ptrs ((p, d) :: l) = p :: ptrs l.
Proof. done. Qed.

(** A segment only depends on the nodes it lists. *)
Lemma dlseg_frame h h' pv l nx hd tl :
  (∀ q, q ∈ ptrs l → h' !! q = h !! q) →
  dlseg h pv l nx hd tl → dlseg h' pv l nx hd tl.
Proof.
  revert pv hd. induction l as [|[p d] l IH]; intros pv hd Hfr; simpl; [done|].
  intros [-> (e & He & Hd & Hp & Hseg)]. split; [done|].
  exists e. split_and!; try done.
  - rewrite Hfr; [done|]. rewrite ptrs_cons. apply elem_of_cons. by left.
  - apply IH; [|done]. intros q Hq. apply Hfr. rewrite ptrs_cons.
    apply elem_of_cons. by right.
Qed.

Lemma dlseg_app h pv l1 l2 nx hd tl :
  dlseg h pv (l1 ++ l2) nx hd tl ↔
  ∃ mid t1, dlseg h pv l1 mid hd t1 ∧ dlseg h t1 l2 nx mid tl.
Proof.
  revert pv hd. induction l1 as [|[p d] l1 IH]; intros pv hd; simpl.
  - split.
    + intros H. by exists hd, pv.
    + by intros (mid & t1 & [-> ->] & H).
  - split.
    + intros [-> (e & He & Hd & Hp & Hseg)].
      apply IH in Hseg as (mid & t1 & H1 & H2).
      exists mid, t1. split; [|done]. split; [done|]. by exists e.
    + intros (mid & t1 & [-> (e & He & Hd & Hp & Hseg)] & H2).
      split; [done|]. exists e. split_and!; try done.
      apply IH. by exists mid, t1.
Qed.

(** The last node of a non-empty segment is the one [tl] points to. *)
Lemma dlseg_snoc h pv l t d nx hd tl :
  dlseg h pv (l ++ [(t, d)]) nx hd tl ↔
  ∃ t1 e, dlseg h pv l (Some t) hd t1 ∧ tl = Some t ∧ h !! t = Some e ∧
          unlinked e = d ∧ prev e = t1 ∧ next e = nx.
Proof.
  rewrite dlseg_app. simpl. split.
  - intros (mid & t1 & H1 & -> & e & He & Hd & Hp & Hn & ->).
    exists t1, e. by split_and!.
  - intros (t1 & e & H1 & -> & He & Hd & Hp & Hn).
    exists (Some t), t1. split; [done|]. split; [done|]. exists e. by split_and!.
Qed.

Lemma snoc_cases {A} (l : list A) : l = [] ∨ ∃ l0 x, l = l0 ++ [x].
Proof.
  induction l as [|a l IH] using rev_ind; [by left|]. right. by exists l, a.
Qed.

Lemma dlseg_lookup h pv l nx hd tl p :
  dlseg h pv l nx hd tl → p ∈ ptrs l → is_Some (h !! p).
Proof.
  revert pv hd. induction l as [|[q d] l IH]; intros pv hd; simpl.
  - intros _ Hin. by apply elem_of_nil in Hin.
  - intros [-> (e & He & _ & _ & Hseg)] Hin. rewrite ptrs_cons in Hin.
    apply elem_of_cons in Hin as [->|Hin]; [by exists e|by eapply IH].
Qed.

(** Redirecting the forward link of the last node. *)
Lemma dlseg_set_nx h pv l t d nx nx' hd tl e :
  NoDup (ptrs (l ++ [(t, d)])) →
  dlseg h pv (l ++ [(t, d)]) nx hd tl →
  h !! t = Some e →
  dlseg (<[t := set_next e nx']> h) pv (l ++ [(t, d)]) nx' hd tl.
Proof.
  intros Hnd Hseg He. apply dlseg_snoc in Hseg as (t1 & e' & H1 & -> & He' & Hd & Hp & Hn).
  assert (e' = e) as -> by congruence.
  apply dlseg_snoc. exists t1, (set_next e nx'). split_and!; try done.
  - eapply dlseg_frame; [|done]. intros q Hq. rewrite lookup_insert_ne; [done|].
    intros <-. rewrite ptrs_app in Hnd. apply NoDup_app in Hnd as (_ & Hnd & _).
    apply (Hnd t Hq). rewrite ptrs_cons. apply elem_of_cons. by left.
  - by rewrite lookup_insert_eq.
Qed.

(** Redirecting the back link of the first node. *)
Lemma dlseg_set_pv h pv pv' f d l nx hd tl e :
  NoDup (ptrs ((f, d) :: l)) →
  dlseg h pv ((f, d) :: l) nx hd tl →
  h !! f = Some e →
  dlseg (<[f := set_prev e pv']> h) pv' ((f, d) :: l) nx hd tl.
Proof.
  simpl. intros Hnd [-> (e' & He' & Hd & Hp & Hseg)] He.
  assert (e' = e) as -> by congruence.
  split; [done|]. exists (set_prev e pv'). split_and!.
  - by rewrite lookup_insert_eq.
  - by rewrite unlinked_set_prev.
  - done.
  - simpl. eapply dlseg_frame; [|done]. intros q Hq.
    rewrite lookup_insert_ne; [done|]. intros <-.
    rewrite ptrs_cons in Hnd. apply NoDup_cons in Hnd as [Hnd _]. done.
Qed.

Lemma unlink_prev h l1 p n hd t1 :
  NoDup (ptrs l1) →
  dlseg h None l1 (Some p) hd t1 →
  match t1 with
  | Some pp => ∃ e, h !! pp = Some e ∧ pp ∈ ptrs l1 ∧
                    dlseg (<[pp := set_next e n]> h) None l1 n hd t1
  | None => l1 = [] ∧ hd = Some p
  end.
Proof.
  intros Hnd Hseg.
  destruct (snoc_cases l1) as [->|(l0 & [t d] & ->)].
  - destruct Hseg as [-> ->]. done.
  - pose proof Hseg as Hseg'.
    apply dlseg_snoc in Hseg' as (t0 & e & _ & -> & He & _).
    exists e. split_and!; [done| |by eapply dlseg_set_nx].
    rewrite ptrs_app, ptrs_cons. apply elem_of_app. right. apply elem_of_cons. by left.
Qed.

Lemma unlink_next h l2 p pv' nn tl :
  NoDup (ptrs l2) →
  dlseg h (Some p) l2 None nn tl →
  match nn with
  | Some q => ∃ e, h !! q = Some e ∧ q ∈ ptrs l2 ∧
                   dlseg (<[q := set_prev e pv']> h) pv' l2 None nn tl
  | None => l2 = [] ∧ tl = Some p
  end.
Proof.
  intros Hnd Hseg. destruct l2 as [|[f d] l2].
  - destruct Hseg as [-> ->]. done.
  - pose proof Hseg as Hseg'. simpl in Hseg'.
    destruct Hseg' as [-> (e & He & _)].
    exists e. split_and!; [done| |by eapply dlseg_set_pv].
    rewrite ptrs_cons. apply elem_of_cons. by left.
Qed.

Lemma sum_bytes_app l1 l2 : sum_bytes (l1 ++ l2) = sum_bytes l1 + sum_bytes l2.
Proof.
  unfold sum_bytes. induction l1 as [|x l1 IH]; simpl; [done|]. rewrite IH. lia.
Qed.

Lemma sum_bytes_cons p d l : sum_bytes ((p, d) :: l) = entry_bytes d + sum_bytes l.
Proof. done. Qed.

Lemma entry_bytes_unlinked e : entry_bytes (unlinked e) = entry_bytes e.
Proof. done. Qed.

Lemma len_items_app l1 l2 : len_items (l1 ++ l2) = len_items l1 + len_items l2.
Proof. unfold len_items. rewrite length_app. lia. Qed.

Lemma len_items_cons x l : len_items (x :: l) = len_items l + 1.
Proof. unfold len_items. simpl. lia. Qed.

Lemma NoDup_ptrs_mid l1 p d l2 :
  NoDup (ptrs (l1 ++ (p, d) :: l2)) →
  NoDup (ptrs l1) ∧ NoDup (ptrs l2) ∧ (p ∉ ptrs l1) ∧ (p ∉ ptrs l2) ∧
  (∀ q, q ∈ ptrs l1 → q ∉ ptrs l2) ∧ NoDup (ptrs (l1 ++ l2)).
Proof.
  rewrite !ptrs_app, ptrs_cons. intros Hnd.
  apply NoDup_app in Hnd as (H1 & H12 & H2).
  apply NoDup_cons in H2 as [Hp H2].
  split_and!; try done.
  - intros Hin. apply (H12 p Hin). apply elem_of_cons. by left.
  - intros q Hq Hq2. apply (H12 q Hq). apply elem_of_cons. by right.
  - apply NoDup_app. split_and!; try done.
    intros q Hq Hq2. apply (H12 q Hq). apply elem_of_cons. by right.
Qed.

(** *** Removal of a node anywhere in the list *)
Lemma remove_cache_entry_dll ctx h l1 p d l2 :
  dll ctx h (l1 ++ (p, d) :: l2) →
  ∃ ctx' h',
    remove_cache_entry ctx h p = Some (ctx', h') ∧
    dll ctx' h' (l1 ++ l2) ∧ same_config ctx ctx' ∧
    h' !! p = None ∧
    (∀ q, q ∉ ptrs (l1 ++ (p, d) :: l2) → h' !! q = h !! q).
Proof.
  intros (Hseg & Hnd & Hcnt & Hsz).
  apply NoDup_ptrs_mid in Hnd as (Hnd1 & Hnd2 & Hp1 & Hp2 & Hdisj & Hnd').
  apply dlseg_app in Hseg as (mid & t1 & Hs1 & Hs2).
  simpl in Hs2. destruct Hs2 as (-> & e & He & Hd & Hpv & Hs2).
  unfold remove_cache_entry. rewrite He. simpl.
  (* first statement: the forward link of the predecessor, or the head *)
  pose proof (unlink_prev _ _ _ (next e) _ _ Hnd1 Hs1) as Hprev.
  rewrite Hpv.
  set (st1 := match t1 with
              | Some pp => store_next h pp (next e) ≫= λ h', Some (ctx, h')
              | None => Some (set_head ctx (next e), h)
              end).
  assert (∃ ctx1 h1, st1 = Some (ctx1, h1) ∧
            dlseg h1 None l1 (next e) (head ctx1) t1 ∧
            tail ctx1 = tail ctx ∧ entry_count ctx1 = entry_count ctx ∧
            current_size ctx1 = current_size ctx ∧ same_config ctx ctx1 ∧
            (∀ q, q ∉ ptrs l1 → h1 !! q = h !! q)) as
    (ctx1 & h1 & -> & Hs1' & Htl1 & Hc1 & Hz1 & Hcfg1 & Hfr1).
  { subst st1. destruct t1 as [pp|].
    - destruct Hprev as (ep & Hep & Hin & Hseg').
      exists ctx, (<[pp := set_next ep (next e)]> h).
      unfold store_next. rewrite Hep. simpl. split_and!; try done.
      intros q Hq. rewrite lookup_insert_ne; [done|]. by intros <-.
    - destruct Hprev as [-> _]. exists (set_head ctx (next e)), h.
      split_and!; done. }
  simpl.
  assert (h1 !! p = Some e) as He1 by (by rewrite Hfr1).
  assert (dlseg h1 (Some p) l2 None (next e) (tail ctx)) as Hs2'.
  { eapply dlseg_frame; [|done]. intros q Hq. apply Hfr1. intros Hq1.
    by apply (Hdisj q). }
  rewrite He1. simpl.
  (* second statement: the back link of the successor, or the tail *)
  pose proof (unlink_next _ _ _ t1 _ _ Hnd2 Hs2') as Hnext.
  rewrite Hpv.
  set (st2 := match next e with
              | Some nn => store_prev h1 nn t1 ≫= λ h', Some (ctx1, h')
              | None => Some (set_tail ctx1 t1, h1)
              end).
  assert (∃ ctx2 h2, st2 = Some (ctx2, h2) ∧
            dlseg h2 t1 l2 None (next e) (tail ctx2) ∧
            head ctx2 = head ctx1 ∧ entry_count ctx2 = entry_count ctx ∧
            current_size ctx2 = current_size ctx ∧ same_config ctx ctx2 ∧
            (∀ q, q ∉ ptrs l2 → h2 !! q = h1 !! q)) as
    (ctx2 & h2 & -> & Hs2'' & Hhd2 & Hc2 & Hz2 & Hcfg2 & Hfr2).
  { subst st2. destruct (next e) as [nn|].
    - destruct Hnext as (en & Hen & Hin & Hseg').
      exists ctx1, (<[nn := set_prev en t1]> h1).
      unfold store_prev. rewrite Hen. simpl. rewrite Htl1. split_and!; try done.
      intros q Hq. rewrite lookup_insert_ne; [done|]. by intros <-.
    - destruct Hnext as [-> _]. exists (set_tail ctx1 t1), h1.
      split_and!; done. }
  simpl.
  assert (h2 !! p = Some e) as He2 by (by rewrite Hfr2).
  rewrite He2. simpl.
  eexists _, _. split; [done|]. split_and!.
  - (* the list *)
    split_and!; simpl.
    + apply dlseg_app. exists (next e), t1. split.
      * rewrite Hhd2. eapply dlseg_frame; [|exact Hs1']. intros q Hq.
        rewrite lookup_delete_ne by (by intros <-).
        apply Hfr2. by apply Hdisj.
      * eapply dlseg_frame; [|exact Hs2'']. intros q Hq.
        by rewrite lookup_delete_ne by (by intros <-).
    + done.
    + rewrite Hc2, Hcnt. rewrite !len_items_app, len_items_cons.
      replace (to_int (len_items l1 + (len_items l2 + 1)) - 1)
        with (to_int (len_items l1 + (len_items l2 + 1)) + -1) by lia.
      rewrite to_int_add_l. f_equal. lia.
    + rewrite Hz2, Hsz. rewrite to_size_t_sub_l.
      rewrite !sum_bytes_app, sum_bytes_cons. rewrite <- Hd, entry_bytes_unlinked.
      f_equal. lia.
  - destruct Hcfg2 as (? & ? & ?). done.
  - by rewrite lookup_delete_eq.
  - intros q Hq. rewrite ptrs_app, ptrs_cons in Hq.
    rewrite lookup_delete_ne.
    + rewrite Hfr2, Hfr1; [done| |].
      * intros Hin. apply Hq. apply elem_of_app. by left.
      * intros Hin. apply Hq. apply elem_of_app. right. apply elem_of_cons. by right.
    + intros <-. apply Hq. apply elem_of_app. right. apply elem_of_cons. by left.
Qed.

Lemma dlseg_hd h pv l nx hd tl :
  dlseg h pv l nx hd tl → hd = match l with [] => nx | _ => hd_ptr l end.
Proof. destruct l as [|[p d] l]; simpl; by intros [-> _]. Qed.

(** The node in the middle of a list. *)
Lemma dll_mid ctx h l1 p d l2 :
  dll ctx h (l1 ++ (p, d) :: l2) →
  ∃ e, h !! p = Some e ∧ unlinked e = d ∧ next e = hd_ptr l2 ∧
       (l1 = [] ↔ head ctx = Some p).
Proof.
  intros (Hseg & Hnd & _).
  pose proof (dlseg_hd _ _ _ _ _ _ Hseg) as Hhd.
  apply dlseg_app in Hseg as (mid & t1 & Hs1 & Hs2).
  simpl in Hs2. destruct Hs2 as (-> & e & He & Hd & Hpv & Hs2).
  exists e. split_and!; try done.
  - apply dlseg_hd in Hs2. rewrite Hs2. by destruct l2.
  - split.
    + intros ->. by apply dlseg_hd in Hs1.
    + intros Hp. destruct l1 as [|[f df] l1]; [done|].
      simpl in Hhd. rewrite Hhd in Hp. injection Hp as ->.
      rewrite ptrs_app, !ptrs_cons in Hnd. apply NoDup_cons in Hnd as [Hnd _].
      exfalso. apply Hnd. apply elem_of_app. right. apply elem_of_cons. by left.
Qed.

Lemma shrinks_refl h l : shrinks h h l l.
Proof. by split_and!. Qed.

Lemma shrinks_trans h1 h2 h3 l1 l2 l3 :
  shrinks h1 h2 l1 l2 → shrinks h2 h3 l2 l3 → shrinks h1 h3 l1 l3.
Proof.
  intros (Hs12 & Hf12 & Hd12) (Hs23 & Hf23 & Hd23). split_and!.
  - auto.
  - intros q Hq. rewrite Hf23; auto.
  - intros q Hq Hq3. destruct (decide (q ∈ ptrs l2)) as [Hq2|Hq2].
    + auto.
    + rewrite Hf23; auto.
Qed.

Lemma same_config_refl c : same_config c c.
Proof. by split_and!. Qed.

Lemma same_config_trans c1 c2 c3 :
  same_config c1 c2 → same_config c2 c3 → same_config c1 c3.
Proof. intros (? & ? & ?) (? & ? & ?). split_and!; congruence. Qed.

Lemma remove_cache_entry_shrinks ctx h l1 p d l2 :
  dll ctx h (l1 ++ (p, d) :: l2) →
  ∃ ctx' h',
    remove_cache_entry ctx h p = Some (ctx', h') ∧
    dll ctx' h' (l1 ++ l2) ∧ same_config ctx ctx' ∧
    shrinks h h' (l1 ++ (p, d) :: l2) (l1 ++ l2).
Proof.
  intros Hdll. pose proof Hdll as (_ & Hnd & _).
  destruct (remove_cache_entry_dll _ _ _ _ _ _ Hdll)
    as (ctx' & h' & Hrm & Hdll' & Hcfg & Hp & Hfr).
  exists ctx', h'. unfold shrinks. split_and!; try done.
  - intros q. rewrite !ptrs_app, ptrs_cons, !elem_of_app, elem_of_cons. tauto.
  - intros q Hq Hq'. rewrite !ptrs_app, ?ptrs_cons in *.
    rewrite !elem_of_app, ?elem_of_cons in *.
    assert (q = p) as -> by tauto. done.
Qed.

(** *** Overwriting the payload of a node *)
Lemma dlseg_update h pv l1 p d l2 nx hd tl e e' :
  NoDup (ptrs (l1 ++ (p, d) :: l2)) →
  dlseg h pv (l1 ++ (p, d) :: l2) nx hd tl →
  h !! p = Some e → prev e' = prev e → next e' = next e →
  dlseg (<[p := e']> h) pv (l1 ++ (p, unlinked e') :: l2) nx hd tl.
Proof.
  intros Hnd Hseg He Hpv Hnx.
  apply NoDup_ptrs_mid in Hnd as (Hnd1 & Hnd2 & Hp1 & Hp2 & Hdisj & Hnd').
  apply dlseg_app in Hseg as (mid & t1 & Hs1 & Hs2).
  simpl in Hs2. destruct Hs2 as (-> & e0 & He0 & Hd & Hpv0 & Hs2).
  assert (e0 = e) as -> by congruence.
  apply dlseg_app. exists (Some p), t1. split.
  - eapply dlseg_frame; [|exact Hs1]. intros q Hq.
    rewrite lookup_insert_ne; [done|]. by intros <-.
  - simpl. split; [done|]. exists e'. rewrite lookup_insert_eq.
    split_and!; try done; [congruence|]. rewrite Hnx.
    eapply dlseg_frame; [|exact Hs2]. intros q Hq.
    rewrite lookup_insert_ne; [done|]. by intros <-.
Qed.

Lemma touch_dll ctx h l1 p d l2 now e :
  dll ctx h (l1 ++ (p, d) :: l2) → h !! p = Some e →
  dll ctx (<[p := touch now e]> h) (l1 ++ (p, touch now d) :: l2).
Proof.
  intros Hdll He. pose proof (dll_mid _ _ _ _ _ _ Hdll) as (e0 & He0 & Hd & _).
  assert (e0 = e) as -> by congruence.
  destruct Hdll as (Hseg & Hnd & Hcnt & Hsz).
  replace (touch now d) with (unlinked (touch now e)) by (by rewrite <- Hd).
  split_and!.
  - by eapply dlseg_update.
  - revert Hnd. by rewrite !ptrs_app, !ptrs_cons.
  - revert Hcnt. by rewrite !len_items_app, !len_items_cons.
  - revert Hsz. by rewrite !sum_bytes_app, !sum_bytes_cons, <- Hd.
Qed.

Lemma store_next_Some h p e v :
  h !! p = Some e → store_next h p v = Some (<[p := set_next e v]> h).
Proof. intros He. unfold store_next. by rewrite He. Qed.

Lemma store_prev_Some h p e v :
  h !! p = Some e → store_prev h p v = Some (<[p := set_prev e v]> h).
Proof. intros He. unfold store_prev. by rewrite He. Qed.

(** *** Linking a detached node in front of the list *)
Lemma link_front ctx h l p e tl' :
  dlseg h None l None (head ctx) tl' → NoDup (ptrs l) → p ∉ ptrs l →
  h !! p = Some e →
  ∃ h1 h2, store_next h p (head ctx) = Some h1 ∧ store_prev h1 p None = Some h2 ∧
    h2 !! p = Some (set_prev (set_next e (head ctx)) None) ∧
    dlseg h2 None l None (head ctx) tl' ∧
    (∀ q, q ≠ p → h2 !! q = h !! q).
Proof.
  intros Hseg Hnd Hp He. unfold store_next, store_prev. rewrite He. simpl.
  eexists _, _. split; [done|]. rewrite lookup_insert_eq. simpl.
  split; [done|]. rewrite insert_insert_eq. rewrite lookup_insert_eq.
  split_and!; [done| |].
  - eapply dlseg_frame; [|exact Hseg]. intros q Hq.
    rewrite lookup_insert_ne; [done|]. by intros <-.
  - intros q Hq. by rewrite lookup_insert_ne.
Qed.

Lemma push_front_dlseg h l p e hd tl :
  dlseg h None l None hd tl → NoDup (ptrs l) → p ∉ ptrs l →
  h !! p = Some e → prev e = None → next e = hd →
  match hd with
  | Some f => ∃ ef, h !! f = Some ef ∧ f ≠ p ∧
      dlseg (<[f := set_prev ef (Some p)]> h) None ((p, unlinked e) :: l) None (Some p) tl
  | None => l = [] ∧ dlseg h None [(p, unlinked e)] None (Some p) (Some p)
  end.
Proof.
  intros Hseg Hnd Hp He Hpv Hnx. destruct l as [|[f df] l].
  - destruct Hseg as [-> ->]. split; [done|]. simpl. split; [done|].
    exists e. by split_and!.
  - pose proof Hseg as Hseg'. simpl in Hseg'. destruct Hseg' as (-> & ef & Hef & _).
    assert (f ≠ p) as Hne.
    { intros ->. apply Hp. rewrite ptrs_cons. apply elem_of_cons. by left. }
    exists ef. split_and!; try done.
    change (dlseg (<[f:=set_prev ef (Some p)]> h) None ((p, unlinked e) :: (f, df) :: l)
              None (Some p) tl)
      with (Some p = Some p ∧ ∃ e0, <[f:=set_prev ef (Some p)]> h !! p = Some e0 ∧
              unlinked e0 = unlinked e ∧ prev e0 = None ∧
              dlseg (<[f:=set_prev ef (Some p)]> h) (Some p) ((f, df) :: l) None (next e0) tl).
    split; [done|]. exists e. rewrite lookup_insert_ne by done.
    split_and!; try done. rewrite Hnx. by eapply dlseg_set_pv.
Qed.

(** *** The move-to-head block *)
Lemma move_to_head_dll ctx h l1 p d l2 :
  dll ctx h (l1 ++ (p, d) :: l2) → l1 ≠ [] →
  ∃ ctx' h',
    move_to_head ctx h p = Some (ctx', h') ∧
    dll ctx' h' ((p, d) :: l1 ++ l2) ∧ same_config ctx ctx' ∧
    (∀ q, q ∉ ptrs (l1 ++ (p, d) :: l2) → h' !! q = h !! q).
Proof.
  intros (Hseg & Hnd & Hcnt & Hsz) Hne.
  pose proof (dlseg_hd _ _ _ _ _ _ Hseg) as Hhd.
  apply NoDup_ptrs_mid in Hnd as (Hnd1 & Hnd2 & Hp1 & Hp2 & Hdisj & Hnd').
  apply dlseg_app in Hseg as (mid & t1 & Hs1 & Hs2).
  simpl in Hs2. destruct Hs2 as (-> & e & He & Hd & Hpv & Hs2).
  unfold move_to_head. rewrite He. simpl.
  pose proof (unlink_prev _ _ _ (next e) _ _ Hnd1 Hs1) as Hprev.
  rewrite Hpv. destruct t1 as [pp|]; [|by destruct Hprev].
  destruct Hprev as (ep & Hep & Hin & Hs1').
  simpl. rewrite (store_next_Some _ _ _ _ Hep). simpl.
  set (h1 := <[pp := set_next ep (next e)]> h) in *.
  assert (∀ q, q ≠ pp → h1 !! q = h !! q) as Hfr1.
  { intros q Hq. subst h1. by rewrite lookup_insert_ne. }
  assert (pp ≠ p) as Hppp by (by intros ->).
  assert (h1 !! p = Some e) as He1 by (by rewrite Hfr1).
  assert (dlseg h1 (Some p) l2 None (next e) (tail ctx)) as Hs2'.
  { eapply dlseg_frame; [|done]. intros q Hq. apply Hfr1. intros ->.
    by apply (Hdisj pp). }
  rewrite He1. simpl.
  pose proof (unlink_next _ _ _ (Some pp) _ _ Hnd2 Hs2') as Hnext.
  rewrite Hpv.
  set (st2 := match next e with
              | Some nn => store_prev h1 nn (Some pp) ≫= λ h', Some (ctx, h')
              | None => Some (set_tail ctx (Some pp), h1)
              end).
  assert (∃ ctx2 h2, st2 = Some (ctx2, h2) ∧
            dlseg h2 (Some pp) l2 None (next e) (tail ctx2) ∧
            head ctx2 = head ctx ∧ entry_count ctx2 = entry_count ctx ∧
            current_size ctx2 = current_size ctx ∧ same_config ctx ctx2 ∧
            (∀ q, q ∉ ptrs l2 → h2 !! q = h1 !! q)) as
    (ctx2 & h2 & -> & Hs2'' & Hhd2 & Hc2 & Hz2 & Hcfg2 & Hfr2).
  { subst st2. destruct (next e) as [nn|].
    - destruct Hnext as (en & Hen & Hin' & Hseg').
      exists ctx, (<[nn := set_prev en (Some pp)]> h1).
      rewrite (store_prev_Some _ _ _ _ Hen). simpl. split_and!; try done.
      intros q Hq. rewrite lookup_insert_ne; [done|]. by intros <-.
    - destruct Hnext as [-> _]. exists (set_tail ctx (Some pp)), h1.
      split_and!; done. }
  simpl.
  assert (h2 !! p = Some e) as He2 by (by rewrite Hfr2).
  assert (dlseg h2 None (l1 ++ l2) None (head ctx2) (tail ctx2)) as Hs12.
  { apply dlseg_app. exists (next e), (Some pp). split; [|done].
    rewrite Hhd2. eapply dlseg_frame; [|exact Hs1']. intros q Hq.
    apply Hfr2. by apply Hdisj. }
  assert (p ∉ ptrs (l1 ++ l2)) as Hp12.
  { rewrite ptrs_app, elem_of_app. tauto. }
  destruct (link_front ctx2 h2 (l1 ++ l2) p e _ Hs12 Hnd' Hp12 He2)
    as (h3 & h4 & -> & Hst4 & He4 & Hs4 & Hfr4).
  simpl. rewrite Hst4. simpl.
  pose proof (push_front_dlseg h4 (l1 ++ l2) p _ _ _ Hs4 Hnd' Hp12 He4
                eq_refl eq_refl) as Hpush.
  assert (∃ f, head ctx2 = Some f ∧ f ∈ ptrs l1) as (f & Hf & Hfl1).
  { destruct l1 as [|[f' df'] l1]; [done|]. exists f'. simpl in Hhd.
    split; [congruence|]. rewrite ptrs_cons. apply elem_of_cons. by left. }
  rewrite Hf in Hpush |- *.
  destruct Hpush as (ef & Hef & Hfp & Hs5).
  simpl. rewrite (store_prev_Some _ _ _ _ Hef). simpl.
  eexists _, _. split; [done|]. split_and!.
  - split_and!; simpl.
    + revert Hs5. by rewrite <- Hd.
    + rewrite ptrs_cons. by apply NoDup_cons.
    + rewrite Hc2, Hcnt.
      by rewrite len_items_cons, !len_items_app, len_items_cons, Z.add_assoc.
    + rewrite Hz2, Hsz. rewrite sum_bytes_cons, !sum_bytes_app, sum_bytes_cons.
      f_equal. lia.
  - destruct Hcfg2 as (? & ? & ?). done.
  - intros q Hq. rewrite ptrs_app, ptrs_cons, elem_of_app, elem_of_cons in Hq.
    rewrite lookup_insert_ne by (intros <-; tauto).
    rewrite Hfr4 by (intros ->; tauto).
    rewrite Hfr2 by tauto. apply Hfr1. intros ->. tauto.
Qed.

(** *** The insertion block of [add_cache_entry] *)
Lemma link_at_head_dll ctx h l p e :
  dll ctx h l → p ∉ ptrs l → h !! p = Some e →
  ∃ ctx' h',
    link_at_head ctx h p = Some (ctx', h') ∧
    dll ctx' h' ((p, unlinked e) :: l) ∧ same_config ctx ctx' ∧
    (∀ q, q ≠ p → q ∉ ptrs l → h' !! q = h !! q).
Proof.
  intros (Hseg & Hnd & Hcnt & Hsz) Hp He. unfold link_at_head.
  destruct (link_front ctx h l p e _ Hseg Hnd Hp He)
    as (h1 & h2 & -> & Hst2 & He2 & Hs2 & Hfr2).
  simpl. rewrite Hst2. simpl.
  pose proof (push_front_dlseg h2 l p _ _ _ Hs2 Hnd Hp He2 eq_refl eq_refl) as Hpush.
  destruct (head ctx) as [f|] eqn:Hf.
  - destruct Hpush as (ef & Hef & Hfp & Hs3).
    rewrite (store_prev_Some _ _ _ _ Hef). simpl.
    rewrite lookup_insert_ne by done. rewrite He2. simpl.
    eexists _, _. split; [done|]. split_and!.
    + split_and!; simpl.
      * done.
      * rewrite ptrs_cons. by apply NoDup_cons.
      * rewrite Hcnt, len_items_cons. by rewrite to_int_add_l.
      * rewrite Hsz, sum_bytes_cons. rewrite to_size_t_add_l.
        f_equal. unfold entry_bytes. simpl. lia.
    + done.
    + intros q Hq Hql. destruct (decide (q = f)) as [->|Hqf].
      * exfalso. apply Hql. apply dlseg_hd in Hseg.
        destruct l as [|[f' df'] l]; [done|]. simpl in Hseg.
        injection Hseg as ->. rewrite ptrs_cons. apply elem_of_cons. by left.
      * rewrite lookup_insert_ne by done. by apply Hfr2.
  - destruct Hpush as (-> & Hs3). simpl. rewrite He2. simpl.
    eexists _, _. split; [done|]. split_and!.
    + split_and!; simpl.
      * done.
      * rewrite ptrs_cons. by apply NoDup_cons.
      * rewrite Hcnt, len_items_cons. by rewrite to_int_add_l.
      * rewrite Hsz, sum_bytes_cons. rewrite to_size_t_add_l.
        f_equal. unfold entry_bytes. simpl. lia.
    + done.
    + intros q Hq _. by apply Hfr2.
Qed.

Lemma app_cons_snoc {A} (l1 : list A) x l2 : l1 ++ x :: l2 = (l1 ++ [x]) ++ l2.
Proof. by rewrite <- app_assoc. Qed.

Lemma shrinks_touch_front h h' l1 p d d' l2 :
  (∀ q, q ∉ ptrs (l1 ++ (p, d) :: l2) → h' !! q = h !! q) →
  shrinks h h' (l1 ++ (p, d) :: l2) ((p, d') :: l1 ++ l2).
Proof.
  intros Hfr. split_and!; [|done|].
  - intros q. rewrite ptrs_cons, !ptrs_app, ptrs_cons.
    rewrite elem_of_cons, !elem_of_app, elem_of_cons. tauto.
  - intros q Hq Hq'. exfalso. apply Hq'. revert Hq.
    rewrite ptrs_cons, !ptrs_app, ptrs_cons.
    rewrite elem_of_cons, !elem_of_app, elem_of_cons. tauto.
Qed.

(** *** The scan of [find_cache_entry] *)
Lemma find_loop_dll now q qlen rest :
  ∀ kept ctx h fuel,
    dll ctx h (kept ++ rest) → (length rest < fuel)%nat →
    ∃ ctx' h',
      find_loop fuel ctx h (hd_ptr rest) now q qlen =
        Some (ctx', h', fst <$> (find_items (default_ttl ctx) now q qlen kept rest).2) ∧
      dll ctx' h' (find_items (default_ttl ctx) now q qlen kept rest).1 ∧
      same_config ctx ctx' ∧
      shrinks h h' (kept ++ rest) (find_items (default_ttl ctx) now q qlen kept rest).1.
Proof.
  induction rest as [|[p d] rest IH]; intros kept ctx h fuel Hdll Hfuel.
  - simpl. rewrite app_nil_r in *. exists ctx, h.
    destruct fuel; split_and!; try done; auto using same_config_refl, shrinks_refl.
  - destruct fuel as [|fuel]; [simpl in Hfuel; lia|]. simpl in Hfuel.
    destruct (dll_mid _ _ _ _ _ _ Hdll) as (e & He & Hd & Hnx & Hhead).
    simpl. rewrite He. simpl.
    assert (expired (default_ttl ctx) now e = expired (default_ttl ctx) now d) as ->
      by (by rewrite <- Hd).
    assert (key_matches e q qlen = key_matches d q qlen) as -> by (by rewrite <- Hd).
    destruct (expired (default_ttl ctx) now d) eqn:Hexp.
    + (* expired: unlink and go on *)
      destruct (remove_cache_entry_shrinks _ _ _ _ _ _ Hdll)
        as (ctx1 & h1 & -> & Hdll1 & Hcfg1 & Hsh1).
      simpl. rewrite Hnx.
      destruct (IH kept ctx1 h1 fuel Hdll1 ltac:(lia))
        as (ctx' & h' & Hrun & Hdll' & Hcfg' & Hsh').
      destruct Hcfg1 as (Hme & Hms & Httl). rewrite Httl in *.
      exists ctx', h'. split_and!; try done.
      * eapply same_config_trans; [|done]. by split_and!.
      * by eapply shrinks_trans.
    + destruct (key_matches d q qlen) eqn:Hkey.
      * (* hit *)
        unfold store_last_access_time. rewrite He. simpl.
        rewrite lookup_insert_eq. simpl.
        unfold store_access_count. rewrite lookup_insert_eq. simpl.
        rewrite insert_insert_eq.
        change (set_access_count (set_last_access_time e now) (to_int (access_count e + 1)))
          with (touch now e).
        pose proof (touch_dll _ _ _ _ _ _ now _ Hdll He) as Hdll1.
        destruct (decide (Some p = head ctx)) as [Hp|Hp].
        -- assert (kept = []) as -> by (by apply Hhead).
           exists ctx, (<[p := touch now e]> h). simpl.
           split; [done|]. split; [exact Hdll1|].
           split; [apply same_config_refl|].
           apply (shrinks_touch_front _ _ []). simpl. intros r Hr.
           rewrite lookup_insert_ne; [done|]. intros <-. apply Hr.
           rewrite ptrs_cons. apply elem_of_cons. by left.
        -- assert (kept ≠ []) as Hkept by (intros Hk; by apply Hp, eq_sym, Hhead).
           destruct (move_to_head_dll _ _ _ _ _ _ Hdll1 Hkept)
             as (ctx' & h' & -> & Hdll' & Hcfg' & Hfr').
           exists ctx', h'. simpl. split_and!; try done.
           apply shrinks_touch_front. intros r Hr.
           rewrite Hfr'.
           ++ rewrite lookup_insert_ne; [done|]. intros <-. apply Hr.
              rewrite ptrs_app, ptrs_cons, elem_of_app, elem_of_cons. tauto.
           ++ revert Hr. by rewrite !ptrs_app, !ptrs_cons.
      * (* no match: step *)
        rewrite Hnx. rewrite (app_cons_snoc kept (p, d) rest) in Hdll |- *.
        destruct (IH (kept ++ [(p, d)]) ctx h fuel Hdll ltac:(lia))
          as (ctx' & h' & Hrun & Hdll' & Hcfg' & Hsh').
        exists ctx', h'. by split_and!.
Qed.

(** *** The eviction loop of [add_cache_entry] *)

Lemma to_size_t_sum4 a b c d :
  to_size_t (to_size_t (to_size_t (a + to_size_t b) + to_size_t c) + d) =
  to_size_t (a + b + c + d).
Proof.
  rewrite to_size_t_add_l.
  replace (to_size_t (a + to_size_t b) + to_size_t c + d)
    with (to_size_t (a + to_size_t b) + d + to_size_t c) by lia.
  rewrite to_size_t_add_r.
  replace (to_size_t (a + to_size_t b) + d + c)
    with (to_size_t (a + to_size_t b) + (d + c)) by lia.
  rewrite to_size_t_add_l.
  replace (a + to_size_t b + (d + c)) with (a + d + c + to_size_t b) by lia.
  rewrite to_size_t_add_r. f_equal. lia.
Qed.

Lemma no_room_dll ctx h l e :
  dll ctx h l →
  no_room ctx e = no_room_items (max_entries ctx) (max_size ctx) (unlinked e) l.
Proof.
  intros (_ & _ & Hcnt & Hsz). unfold no_room, no_room_items.
  rewrite Hcnt, Hsz. rewrite to_size_t_sum4.
  change (query_len (unlinked e)) with (query_len e).
  change (result_len (unlinked e)) with (result_len e). done.
Qed.

Lemma dll_tail_snoc ctx h l t d :
  dll ctx h (l ++ [(t, d)]) → tail ctx = Some t.
Proof. intros (Hseg & _). apply dlseg_snoc in Hseg as (? & ? & _ & ? & _). done. Qed.

Lemma dll_nil_inv ctx h : dll ctx h [] → head ctx = None ∧ tail ctx = None.
Proof. by intros ([? ?] & _). Qed.

Lemma make_room_dll p e r :
  ∀ ctx h fuel,
    dll ctx h (rev r) → h !! p = Some e → p ∉ ptrs (rev r) → (length r < fuel)%nat →
    ∃ ctx' h',
      make_room fuel ctx h p =
        Some (ctx', h', (evict_rev (max_entries ctx) (max_size ctx) (unlinked e) r).2) ∧
      dll ctx' h' (evict_rev (max_entries ctx) (max_size ctx) (unlinked e) r).1 ∧
      same_config ctx ctx' ∧
      h' !! p = (if (evict_rev (max_entries ctx) (max_size ctx) (unlinked e) r).2
                 then Some e else None) ∧
      (∀ q, q ∈ ptrs (evict_rev (max_entries ctx) (max_size ctx) (unlinked e) r).1 →
            q ∈ ptrs (rev r)) ∧
      (∀ q, q ≠ p → q ∉ ptrs (rev r) → h' !! q = h !! q) ∧
      (∀ q, q ∈ ptrs (rev r) →
            q ∉ ptrs (evict_rev (max_entries ctx) (max_size ctx) (unlinked e) r).1 →
            h' !! q = None).
Proof.
  induction r as [|[t d] r IH]; intros ctx h fuel Hdll He Hp Hfuel;
    (destruct fuel as [|fuel]; [simpl in Hfuel; lia|]); simpl in Hfuel.
  - cbn [rev] in *. simpl. rewrite He. simpl. rewrite (no_room_dll _ _ _ _ Hdll).
    destruct (dll_nil_inv _ _ Hdll) as [_ Htl].
    destruct (no_room_items _ _ _ []) eqn:Hroom; simpl.
    + rewrite Htl. exists ctx, (delete p h).
      split; [done|]. split; [exact Hdll|]. split; [apply same_config_refl|].
      split; [by rewrite lookup_delete_eq|]. split; [done|]. split.
      * intros q Hq _. by rewrite lookup_delete_ne.
      * intros q Hq. by apply elem_of_nil in Hq.
    + exists ctx, h.
      split; [done|]. split; [exact Hdll|]. split; [apply same_config_refl|].
      split; [done|]. split; [done|]. split; [done|].
      intros q Hq. by apply elem_of_nil in Hq.
  - cbn [make_room evict_rev]. rewrite He. simpl mbind.
    rewrite (no_room_dll _ _ _ _ Hdll). cbn [rev] in *.
    destruct (no_room_items _ _ _ (rev r ++ [(t, d)])) eqn:Hroom.
    + rewrite (dll_tail_snoc _ _ _ _ _ Hdll).
      destruct (remove_cache_entry_shrinks _ _ _ _ _ _ Hdll)
        as (ctx1 & h1 & -> & Hdll1 & Hcfg1 & Hsub1 & Hfr1 & Hdel1).
      rewrite app_nil_r in *. simpl mbind.
      assert (h1 !! p = Some e) as He1 by (by rewrite Hfr1).
      assert (p ∉ ptrs (rev r)) as Hp1.
      { intros Hin. apply Hp. rewrite ptrs_app, elem_of_app. by left. }
      destruct (IH ctx1 h1 fuel Hdll1 He1 Hp1 ltac:(lia))
        as (ctx' & h' & Hrun & Hdll' & Hcfg' & Hp' & Hsub' & Hfr' & Hdel').
      pose proof Hcfg1 as (Hme & Hms & Httl). rewrite Hme, Hms in *.
      exists ctx', h'. split_and!; try done.
      * by eapply same_config_trans.
      * intros q Hq. rewrite ptrs_app, elem_of_app. left. by apply Hsub'.
      * intros q Hqp Hq. rewrite Hfr'; [by apply Hfr1|done|].
        intros Hin. apply Hq. rewrite ptrs_app, elem_of_app. by left.
      * intros q Hq Hq'. destruct (decide (q ∈ ptrs (rev r))) as [Hin|Hin].
        -- by apply Hdel'.
        -- rewrite Hfr'; [by apply Hdel1| |done]. by intros ->.
    + exists ctx, h. split_and!; try done; apply same_config_refl.
Qed.

(** *** The loops of [query_cache_invalidate] and [query_cache_clear] *)

Lemma invalidate_items_cons table p d l :
  invalidate_items table ((p, d) :: l) =
  if mentions table d then invalidate_items table l
  else (p, d) :: invalidate_items table l.
Proof. unfold invalidate_items. simpl. by destruct (mentions table d). Qed.

Lemma invalidate_loop_dll table rest :
  ∀ kept ctx h fuel,
    dll ctx h (kept ++ rest) → (length rest < fuel)%nat →
    ∃ ctx' h',
      invalidate_loop fuel ctx h (hd_ptr rest) table = Some (ctx', h') ∧
      dll ctx' h' (kept ++ invalidate_items table rest) ∧
      same_config ctx ctx' ∧
      shrinks h h' (kept ++ rest) (kept ++ invalidate_items table rest).
Proof.
  induction rest as [|[p d] rest IH]; intros kept ctx h fuel Hdll Hfuel.
  - simpl. exists ctx, h.
    destruct fuel; split_and!; try done; auto using same_config_refl, shrinks_refl.
  - destruct fuel as [|fuel]; [simpl in Hfuel; lia|]. simpl in Hfuel.
    destruct (dll_mid _ _ _ _ _ _ Hdll) as (e & He & Hd & Hnx & _).
    cbn [invalidate_loop hd_ptr]. rewrite He. simpl mbind.
    rewrite invalidate_items_cons.
    assert (mentions table d = match strstr (query e) table with
                               | Some _ => true | None => false end) as ->
      by (by rewrite <- Hd).
    destruct (strstr (query e) table) as [hit|] eqn:Hstr.
    + destruct (remove_cache_entry_shrinks _ _ _ _ _ _ Hdll)
        as (ctx1 & h1 & -> & Hdll1 & Hcfg1 & Hsh1).
      simpl mbind. rewrite Hnx.
      destruct (IH kept ctx1 h1 fuel Hdll1 ltac:(lia))
        as (ctx' & h' & Hrun & Hdll' & Hcfg' & Hsh').
      exists ctx', h'. split_and!; try done.
      * by eapply same_config_trans.
      * by eapply shrinks_trans.
    + rewrite Hnx.
      rewrite (app_cons_snoc kept (p, d) rest) in Hdll |- *.
      rewrite (app_cons_snoc kept (p, d) (invalidate_items table rest)).
      by apply IH; [|lia].
Qed.

Lemma clear_loop_dll rest :
  ∀ kept ctx h fuel,
    dll ctx h (kept ++ rest) → (length rest < fuel)%nat →
    ∃ ctx' h',
      clear_loop fuel ctx h (hd_ptr rest) = Some (ctx', h') ∧
      dll ctx' h' kept ∧ same_config ctx ctx' ∧ shrinks h h' (kept ++ rest) kept.
Proof.
  induction rest as [|[p d] rest IH]; intros kept ctx h fuel Hdll Hfuel.
  - simpl. rewrite app_nil_r in *. exists ctx, h.
    destruct fuel; split_and!; try done; auto using same_config_refl, shrinks_refl.
  - destruct fuel as [|fuel]; [simpl in Hfuel; lia|]. simpl in Hfuel.
    destruct (dll_mid _ _ _ _ _ _ Hdll) as (e & He & Hd & Hnx & _).
    cbn [clear_loop hd_ptr]. rewrite He. simpl mbind.
    destruct (remove_cache_entry_shrinks _ _ _ _ _ _ Hdll)
      as (ctx1 & h1 & -> & Hdll1 & Hcfg1 & Hsh1).
    simpl mbind. rewrite Hnx.
    destruct (IH kept ctx1 h1 fuel Hdll1 ltac:(lia))
      as (ctx' & h' & Hrun & Hdll' & Hcfg' & Hsh').
    exists ctx', h'. split_and!; try done.
    + by eapply same_config_trans.
    + by eapply shrinks_trans.
Qed.

(** *** The teardown loop *)
Lemma destroy_loop_dlseg l :
  ∀ h pv hd tl fuel,
    dlseg h pv l None hd tl → NoDup (ptrs l) → (length l < fuel)%nat →
    ∃ h', destroy_loop fuel h hd = Some h' ∧
          (∀ q, q ∈ ptrs l → h' !! q = None) ∧
          (∀ q, q ∉ ptrs l → h' !! q = h !! q).
Proof.
  induction l as [|[p d] l IH]; intros h pv hd tl fuel Hseg Hnd Hfuel.
  - destruct Hseg as [-> _]. exists h. destruct fuel; split_and!; try done.
    all: intros q Hq; by apply elem_of_nil in Hq.
  - destruct fuel as [|fuel]; [simpl in Hfuel; lia|]. simpl in Hfuel.
    simpl in Hseg. destruct Hseg as (-> & e & He & _ & _ & Hseg).
    rewrite ptrs_cons in Hnd. apply NoDup_cons in Hnd as [Hp Hnd].
    cbn [destroy_loop]. rewrite He. simpl mbind.
    assert (dlseg (delete p h) (Some p) l None (next e) tl) as Hseg'.
    { eapply dlseg_frame; [|exact Hseg]. intros q Hq.
      rewrite lookup_delete_ne; [done|]. by intros <-. }
    destruct (IH _ _ _ _ fuel Hseg' Hnd ltac:(lia)) as (h' & -> & Hdel & Hfr).
    exists h'. split_and!; [done| |].
    + intros q Hq. rewrite ptrs_cons in Hq. apply elem_of_cons in Hq as [->|Hq].
      * rewrite Hfr by done. by rewrite lookup_delete_eq.
      * by apply Hdel.
    + intros q Hq. rewrite ptrs_cons in Hq. rewrite not_elem_of_cons in Hq.
      destruct Hq as [Hqp Hq]. rewrite Hfr by done. by rewrite lookup_delete_ne.
Qed.

(** ** From the loops to the interface *)

Lemma dll_length_le_size ctx h l : dll ctx h l → (length l ≤ size h)%nat.
Proof.
  intros (Hseg & Hnd & _).
  assert (ptrs l ⊆+ elements (dom h)) as Hsub.
  { apply NoDup_submseteq; [done|]. intros p Hp.
    apply elem_of_elements, elem_of_dom. by eapply dlseg_lookup. }
  apply submseteq_length in Hsub.
  unfold ptrs in Hsub. rewrite length_fmap in Hsub.
  rewrite <- size_dom. exact Hsub.
Qed.

Lemma dll_head ctx h l : dll ctx h l → head ctx = hd_ptr l.
Proof. intros (Hseg & _). apply dlseg_hd in Hseg. by destruct l. Qed.

Lemma dll_lookup_head ctx h p d l :
  dll ctx h ((p, d) :: l) → ∃ e, h !! p = Some e ∧ unlinked e = d.
Proof.
  intros Hdll. destruct (dll_mid ctx h [] p d l Hdll) as (e & He & Hd & _).
  by exists e.
Qed.

(** *** [find_cache_entry] and [query_cache_get] *)
Lemma find_cache_entry_dll ctx h l now q qlen :
  dll ctx h l →
  ∃ ctx' h',
    find_cache_entry ctx h now q qlen =
      Some (ctx', h', fst <$> (find_items (default_ttl ctx) now q qlen [] l).2) ∧
    dll ctx' h' (find_items (default_ttl ctx) now q qlen [] l).1 ∧
    same_config ctx ctx' ∧
    shrinks h h' l (find_items (default_ttl ctx) now q qlen [] l).1.
Proof.
  intros Hdll. unfold find_cache_entry. rewrite (dll_head _ _ _ Hdll).
  apply (find_loop_dll now q qlen l [] ctx h); [done|].
  pose proof (dll_length_le_size _ _ _ Hdll). lia.
Qed.

(** The hit of a scan is the head of the list it leaves. *)
Lemma find_items_hit ttl now q qlen rest :
  ∀ kept l' x,
    find_items ttl now q qlen kept rest = (l', Some x) →
    ∃ l'', l' = x :: l''.
Proof.
  induction rest as [|[p d] rest IH]; intros kept l' x; simpl; [done|].
  destruct (expired ttl now d); [by apply IH|].
  destruct (key_matches d q qlen); [|by apply IH].
  intros [= <- <-]. by eexists.
Qed.

Lemma query_cache_get_dll m cp ctx l now q :
  cstore m !! cp = Some ctx → dll ctx (estore m) l →
  ∃ m' ctx',
    query_cache_get m (Some cp) now q =
      Some (m', (get_outcome (find_items (default_ttl ctx) now q (len q) [] l).2).1,
                (get_outcome (find_items (default_ttl ctx) now q (len q) [] l).2).2) ∧
    cstore m' !! cp = Some ctx' ∧
    dll ctx' (estore m') (find_items (default_ttl ctx) now q (len q) [] l).1 ∧
    same_config ctx ctx' ∧
    shrinks (estore m) (estore m') l (find_items (default_ttl ctx) now q (len q) [] l).1.
Proof.
  intros Hc Hdll. unfold query_cache_get. simpl. rewrite Hc. simpl.
  destruct (find_cache_entry_dll _ _ _ now q (len q) Hdll)
    as (ctx' & h' & -> & Hdll' & Hcfg & Hsh).
  simpl.
  destruct (find_items (default_ttl ctx) now q (len q) [] l) as [l' [[p d]|]] eqn:Hfind;
    simpl in *.
  - destruct (find_items_hit _ _ _ _ _ _ _ _ Hfind) as (l'' & ->).
    destruct (dll_lookup_head _ _ _ _ _ Hdll') as (e & -> & <-). simpl.
    eexists _, ctx'. split; [done|]. simpl. rewrite lookup_insert_eq. by split_and!.
  - eexists _, ctx'. split; [done|]. simpl. rewrite lookup_insert_eq. by split_and!.
Qed.

(** *** [add_cache_entry] and [query_cache_put] *)
Lemma add_cache_entry_dll ctx h l p e :
  dll ctx h l → h !! p = Some e → p ∉ ptrs l →
  ∃ ctx' h',
    add_cache_entry ctx h p = Some (ctx', h') ∧
    dll ctx' h' (add_items (max_entries ctx) (max_size ctx) p (unlinked e) l) ∧
    same_config ctx ctx' ∧
    (∀ q, q ≠ p → q ∉ ptrs l → h' !! q = h !! q) ∧
    (∀ q, q ∈ ptrs l →
          q ∉ ptrs (add_items (max_entries ctx) (max_size ctx) p (unlinked e) l) →
          h' !! q = None) ∧
    (p ∉ ptrs (add_items (max_entries ctx) (max_size ctx) p (unlinked e) l) →
     h' !! p = None).
Proof.
  intros Hdll He Hp. unfold add_cache_entry, add_items, evict_items.
  rewrite <- (rev_involutive l) in Hdll, Hp.
  destruct (make_room_dll p e (rev l) ctx h (S (size h)) Hdll He Hp)
    as (ctx1 & h1 & -> & Hdll1 & Hcfg1 & Hp1 & Hsub1 & Hfr1 & Hdel1).
  { rewrite rev_involutive in Hdll. pose proof (dll_length_le_size _ _ _ Hdll).
    rewrite length_rev. lia. }
  rewrite rev_involutive in *. simpl.
  destruct (evict_rev (max_entries ctx) (max_size ctx) (unlinked e) (rev l))
    as [l1 room] eqn:Hev. simpl in *. destruct room.
  - assert (p ∉ ptrs l1) as Hpl1 by (intros Hin; by apply Hp, Hsub1).
    destruct (link_at_head_dll _ _ _ _ _ Hdll1 Hpl1 Hp1)
      as (ctx' & h' & -> & Hdll' & Hcfg' & Hfr').
    exists ctx', h'. split_and!; try done.
    + by eapply same_config_trans.
    + intros q Hqp Hq. rewrite Hfr'; [by apply Hfr1|done|].
      intros Hin. by apply Hq, Hsub1.
    + intros q Hq Hq'. rewrite ptrs_cons, not_elem_of_cons in Hq'.
      destruct Hq' as [Hqp Hql1]. rewrite Hfr' by done. by apply Hdel1.
    + intros Hnot. exfalso. apply Hnot. rewrite ptrs_cons. apply elem_of_cons. by left.
  - exists ctx1, h1. by split_and!.
Qed.

Lemma query_cache_put_dll m cp ctx l now q r p :
  cstore m !! cp = Some ctx → dll ctx (estore m) l → estore m !! p = None →
  ∃ m' ctx',
    query_cache_put m (Some cp) now q r (Some p) true true = Some (m', 0) ∧
    cstore m' !! cp = Some ctx' ∧
    dll ctx' (estore m')
      (add_items (max_entries ctx) (max_size ctx) p (new_entry now q r) l) ∧
    same_config ctx ctx' ∧
    (∀ a, a ≠ p → a ∉ ptrs l → estore m' !! a = estore m !! a) ∧
    (∀ a, a ∈ ptrs l →
          a ∉ ptrs (add_items (max_entries ctx) (max_size ctx) p (new_entry now q r) l) →
          estore m' !! a = None) ∧
    (p ∉ ptrs (add_items (max_entries ctx) (max_size ctx) p (new_entry now q r) l) →
     estore m' !! p = None).
Proof.
  intros Hc Hdll Hfresh. unfold query_cache_put. simpl. rewrite Hc. simpl.
  assert (dll ctx (<[p := new_entry now q r]> (estore m)) l) as Hdll0.
  { destruct Hdll as (Hseg & Hnd & Hcnt & Hsz). split_and!; try done.
    eapply dlseg_frame; [|exact Hseg]. intros a Ha.
    rewrite lookup_insert_ne; [done|]. intros <-.
    destruct (dlseg_lookup _ _ _ _ _ _ _ Hseg Ha) as [? ?]. congruence. }
  assert (p ∉ ptrs l) as Hp.
  { intros Hin. destruct Hdll as (Hseg & _).
    destruct (dlseg_lookup _ _ _ _ _ _ _ Hseg Hin) as [? ?]. congruence. }
  destruct (add_cache_entry_dll _ _ _ p (new_entry now q r) Hdll0
              (lookup_insert_eq _ _ _) Hp)
    as (ctx' & h' & Hadd & Hdll' & Hcfg & Hfr & Hdel & Hdrop).
  rewrite Hadd. simpl.
  eexists _, ctx'. split; [done|]. simpl. rewrite lookup_insert_eq.
  split_and!; try done.
  intros a Hap Ha. rewrite Hfr by done. by rewrite lookup_insert_ne.
Qed.

(** *** [query_cache_invalidate] and [query_cache_clear] *)

Arguments invalidate_loop : simpl never.
Arguments clear_loop : simpl never.
Arguments destroy_loop : simpl never.

Lemma query_cache_invalidate_dll m cp ctx l table :
  cstore m !! cp = Some ctx → dll ctx (estore m) l →
  ∃ m' ctx',
    query_cache_invalidate m (Some cp) table = Some (m', 0) ∧
    cstore m' !! cp = Some ctx' ∧
    dll ctx' (estore m') (invalidate_items table l) ∧
    same_config ctx ctx' ∧
    shrinks (estore m) (estore m') l (invalidate_items table l).
Proof.
  intros Hc Hdll. unfold query_cache_invalidate. simpl. rewrite Hc. simpl.
  rewrite (dll_head _ _ _ Hdll).
  destruct (invalidate_loop_dll table l [] ctx (estore m) (S (size (estore m))) Hdll)
    as (ctx' & h' & -> & Hdll' & Hcfg & Hsh).
  { pose proof (dll_length_le_size _ _ _ Hdll). lia. }
  simpl. eexists _, ctx'. split; [done|]. simpl. rewrite lookup_insert_eq.
  by split_and!.
Qed.

Lemma query_cache_clear_dll m cp ctx l :
  cstore m !! cp = Some ctx → dll ctx (estore m) l →
  ∃ m' ctx',
    query_cache_clear m (Some cp) = Some (m', 0) ∧
    cstore m' !! cp = Some ctx' ∧
    dll ctx' (estore m') [] ∧ same_config ctx ctx' ∧
    shrinks (estore m) (estore m') l [].
Proof.
  intros Hc Hdll. unfold query_cache_clear. simpl. rewrite Hc. simpl.
  rewrite (dll_head _ _ _ Hdll).
  destruct (clear_loop_dll l [] ctx (estore m) (S (size (estore m))) Hdll)
    as (ctx' & h' & -> & Hdll' & Hcfg & Hsh).
  { pose proof (dll_length_le_size _ _ _ Hdll). lia. }
  simpl. eexists _, ctx'. split; [done|]. simpl. rewrite lookup_insert_eq.
  by split_and!.
Qed.

(** ** The limits along the list functions *)

Lemma entry_bytes_nonneg d : 0 ≤ entry_bytes d.
Proof. unfold entry_bytes. apply to_size_t_range. Qed.

Lemma sum_bytes_nonneg l : 0 ≤ sum_bytes l.
Proof.
  induction l as [|[p d] l IH]; [done|]. rewrite sum_bytes_cons.
  pose proof (entry_bytes_nonneg d). lia.
Qed.

Lemma len_items_nonneg l : 0 ≤ len_items l.
Proof. unfold len_items. lia. Qed.

Lemma len_nonneg b : 0 ≤ len b.
Proof. unfold len. lia. Qed.

Lemma entry_ok_touch now d : entry_ok d → entry_ok (touch now d).
Proof. by destruct d. Qed.

Lemma entry_ok_new now q r : valid_len q → valid_len r → entry_ok (new_entry now q r).
Proof. intros. by split_and!. Qed.

(** The byte count of an entry whose two lengths add up within an [int]. *)
Lemma entry_bytes_exact d :
  0 ≤ query_len d → 0 ≤ result_len d → query_len d + result_len d ≤ INT_MAX →
  entry_bytes d = query_len d + result_len d + sizeof_CacheEntry.
Proof.
  intros Hq Hr Hsum. unfold entry_bytes, INT_MAX, sizeof_CacheEntry in *.
  rewrite to_int_small by lia.
  rewrite (to_size_t_small (query_len d + result_len d)) by lia.
  rewrite to_size_t_small by lia. done.
Qed.

(** A scan keeps a rearranged part of the list. *)
Lemma find_items_measures ttl now q qlen rest :
  ∀ kept,
    len_items (find_items ttl now q qlen kept rest).1 ≤ len_items (kept ++ rest) ∧
    sum_bytes (find_items ttl now q qlen kept rest).1 ≤ sum_bytes (kept ++ rest) ∧
    (Forall (λ x, entry_ok x.2) (kept ++ rest) →
     Forall (λ x, entry_ok x.2) (find_items ttl now q qlen kept rest).1).
Proof.
  induction rest as [|[p d] rest IH]; intros kept; simpl.
  - rewrite app_nil_r. by split_and!.
  - destruct (expired ttl now d).
    + destruct (IH kept) as (Hl & Hs & Hok). split_and!.
      * rewrite len_items_app in Hl. rewrite len_items_app, len_items_cons. lia.
      * rewrite sum_bytes_app in Hs. rewrite sum_bytes_app, sum_bytes_cons.
        pose proof (entry_bytes_nonneg d). lia.
      * intros Hall. apply Hok. rewrite Forall_app in *. rewrite Forall_cons in Hall. tauto.
    + destruct (key_matches d q qlen); simpl.
      * split_and!.
        -- rewrite len_items_cons, !len_items_app, len_items_cons. lia.
        -- rewrite sum_bytes_cons, !sum_bytes_app, sum_bytes_cons.
           change (entry_bytes (touch now d)) with (entry_bytes d). lia.
        -- rewrite Forall_cons, !Forall_app, Forall_cons. simpl.
           intros (? & ? & ?). split_and!; try done.
      * rewrite (app_cons_snoc kept (p, d) rest). apply IH.
Qed.

Lemma invalidate_items_measures table l :
  len_items (invalidate_items table l) ≤ len_items l ∧
  sum_bytes (invalidate_items table l) ≤ sum_bytes l ∧
  (Forall (λ x, entry_ok x.2) l → Forall (λ x, entry_ok x.2) (invalidate_items table l)).
Proof.
  induction l as [|[p d] l (Hl & Hs & Hok)]; [by split_and!|].
  rewrite invalidate_items_cons. destruct (mentions table d).
  - split_and!.
    + rewrite len_items_cons. lia.
    + rewrite sum_bytes_cons. pose proof (entry_bytes_nonneg d). lia.
    + rewrite Forall_cons. tauto.
  - split_and!.
    + rewrite !len_items_cons. lia.
    + rewrite !sum_bytes_cons. lia.
    + rewrite !Forall_cons. tauto.
Qed.

(** *** The eviction loop keeps the longest admissible prefix *)
Lemma evict_rev_spec me ms d r :
  ∃ k, (k ≤ length r)%nat ∧
    (evict_rev me ms d r).1 = take k (rev r) ∧
    (evict_rev me ms d r).2 = negb (no_room_items me ms d (take k (rev r))) ∧
    ((evict_rev me ms d r).2 = false → k = 0%nat) ∧
    (∀ j, (k < j ≤ length r)%nat → no_room_items me ms d (take j (rev r)) = true).
Proof.
  induction r as [|x r (k & Hk & Hl & Hroom & Hzero & Hmax)].
  - exists 0%nat. simpl. split_and!; try done. intros j Hj. lia.
  - cbn [evict_rev]. destruct (no_room_items me ms d (rev (x :: r))) eqn:Hfull.
    + exists k. cbn [rev length]. split_and!; try done.
      * lia.
      * rewrite take_app_le by (rewrite length_rev; lia). done.
      * rewrite take_app_le by (rewrite length_rev; lia). done.
      * intros j Hj. destruct (decide (j ≤ length r)%nat) as [Hle|Hgt].
        -- rewrite take_app_le by (rewrite length_rev; lia). apply Hmax. lia.
        -- rewrite take_ge; [done|]. rewrite length_app, length_rev. simpl. lia.
    + exists (length (x :: r)). split_and!; try done.
      * rewrite take_ge by (by rewrite length_rev). done.
      * rewrite take_ge by (by rewrite length_rev). cbn [snd]. by rewrite Hfull.
      * intros j Hj. lia.
Qed.

Lemma evict_items_spec me ms d l :
  ∃ k, (k ≤ length l)%nat ∧
    (evict_items me ms d l).1 = take k l ∧
    (evict_items me ms d l).2 = negb (no_room_items me ms d (take k l)) ∧
    ((evict_items me ms d l).2 = false → k = 0%nat) ∧
    (∀ j, (k < j ≤ length l)%nat → no_room_items me ms d (take j l) = true).
Proof.
  unfold evict_items. destruct (evict_rev_spec me ms d (rev l)) as (k & H).
  rewrite rev_involutive, length_rev in H. by exists k.
Qed.

Lemma take_measures (l : list (ptr * CacheEntry)) k :
  len_items (take k l) ≤ len_items l ∧ sum_bytes (take k l) ≤ sum_bytes l.
Proof.
  rewrite <- (take_drop k l) at 2 4. rewrite len_items_app, sum_bytes_app.
  pose proof (len_items_nonneg (drop k l)). pose proof (sum_bytes_nonneg (drop k l)).
  lia.
Qed.

(** With sane limits, the loop condition reads on exact numbers. *)
Lemma no_room_items_exact ctx d l :
  config_ok ctx → within_limits ctx l → entry_ok d →
  no_room_items (max_entries ctx) (max_size ctx) d l =
  bool_decide (max_entries ctx ≤ len_items l ∨
               max_size ctx < sum_bytes l + len (query d) + len (result d)
                              + sizeof_CacheEntry).
Proof.
  intros ((Hme0 & Hme) & (Hms0 & Hms)) (Hlen & Hsum) (Hql & Hrl & Hvq & Hvr).
  unfold no_room_items. unfold valid_len, INT_MAX in *.
  pose proof (len_items_nonneg l). pose proof (sum_bytes_nonneg l).
  pose proof (len_nonneg (query d)). pose proof (len_nonneg (result d)).
  rewrite to_int_small by lia.
  rewrite (to_size_t_small (sum_bytes l)) by lia.
  rewrite Hql, Hrl. unfold sizeof_CacheEntry in *.
  rewrite to_size_t_small by lia.
  destruct (max_entries ctx <=? len_items l) eqn:Hcmp1;
    destruct (max_size ctx <? sum_bytes l + len (query d) + len (result d) + 72) eqn:Hcmp2;
    simpl; symmetry.
  all: first [ apply bool_decide_eq_true | apply bool_decide_eq_false ]; lia.
Qed.

Lemma add_items_limits ctx p d l :
  config_ok ctx → within_limits ctx l → entry_ok d →
  Forall (λ x, entry_ok x.2) l →
  within_limits ctx (add_items (max_entries ctx) (max_size ctx) p d l) ∧
  Forall (λ x, entry_ok x.2) (add_items (max_entries ctx) (max_size ctx) p d l).
Proof.
  intros Hcfg Hlim Hd Hall. unfold add_items.
  destruct (evict_items_spec (max_entries ctx) (max_size ctx) d l)
    as (k & Hk & Hl & Hroom & _).
  destruct (evict_items (max_entries ctx) (max_size ctx) d l) as [l' room].
  simpl in *. subst l'.
  pose proof (take_measures l k) as (Hlen & Hsum).
  assert (within_limits ctx (take k l)) as Hlim'.
  { destruct Hlim. split; lia. }
  assert (Forall (λ x, entry_ok x.2) (take k l)) as Hall' by (by apply Forall_take).
  destruct room; [|done].
  symmetry in Hroom. apply negb_true_iff in Hroom.
  rewrite (no_room_items_exact _ _ _ Hcfg Hlim' Hd) in Hroom.
  apply bool_decide_eq_false in Hroom.
  pose proof Hd as (Hql & Hrl & Hvq & Hvr).
  pose proof Hcfg as ((Hme0 & Hme) & (Hms0 & Hms)).
  pose proof (sum_bytes_nonneg (take k l)).
  pose proof (len_nonneg (query d)). pose proof (len_nonneg (result d)).
  unfold sizeof_CacheEntry, INT_MAX in *.
  split; [|by apply Forall_cons].
  split.
  - rewrite len_items_cons. lia.
  - rewrite sum_bytes_cons. rewrite entry_bytes_exact; unfold sizeof_CacheEntry, INT_MAX; lia.
Qed.

(** ** The invariant along the interface *)

Lemma config_ok_same c c' : same_config c c' → config_ok c → config_ok c'.
Proof. intros (Hme & Hms & _) Hok. unfold config_ok. by rewrite Hme, Hms. Qed.

Lemma within_limits_same c c' l :
  same_config c c' → within_limits c l → within_limits c' l.
Proof. intros (Hme & Hms & _) Hok. unfold within_limits. by rewrite Hme, Hms. Qed.

Lemma query_cache_get_inv m cp ctx l now q :
  cache_inv m cp ctx l →
  ∃ m' ctx',
    query_cache_get m (Some cp) now q =
      Some (m', (get_outcome (find_items (default_ttl ctx) now q (len q) [] l).2).1,
                (get_outcome (find_items (default_ttl ctx) now q (len q) [] l).2).2) ∧
    cache_inv m' cp ctx' (find_items (default_ttl ctx) now q (len q) [] l).1 ∧
    same_config ctx ctx' ∧
    shrinks (estore m) (estore m') l (find_items (default_ttl ctx) now q (len q) [] l).1.
Proof.
  intros (Hc & Hdll & Hcfg & Hlim & Hall).
  destruct (query_cache_get_dll m cp ctx l now q Hc Hdll)
    as (m' & ctx' & Hget & Hc' & Hdll' & Hsame & Hsh).
  exists m', ctx'. split_and!; try done.
  destruct (find_items_measures (default_ttl ctx) now q (len q) l [])
    as (Hlen & Hsum & Hok).
  split_and!; try done.
  - by eapply config_ok_same.
  - eapply within_limits_same; [done|]. destruct Hlim. simpl in *. split; lia.
  - by apply Hok.
Qed.

Lemma query_cache_put_inv m cp ctx l now q r p :
  cache_inv m cp ctx l → estore m !! p = None → valid_len q → valid_len r →
  ∃ m' ctx',
    query_cache_put m (Some cp) now q r (Some p) true true = Some (m', 0) ∧
    cache_inv m' cp ctx'
      (add_items (max_entries ctx) (max_size ctx) p (new_entry now q r) l) ∧
    same_config ctx ctx' ∧
    (∀ a, a ∈ ptrs l →
          a ∉ ptrs (add_items (max_entries ctx) (max_size ctx) p (new_entry now q r) l) →
          estore m' !! a = None) ∧
    (p ∉ ptrs (add_items (max_entries ctx) (max_size ctx) p (new_entry now q r) l) →
     estore m' !! p = None) ∧
    (∀ a, a ≠ p → a ∉ ptrs l → estore m' !! a = estore m !! a).
Proof.
  intros (Hc & Hdll & Hcfg & Hlim & Hall) Hfresh Hq Hr.
  destruct (query_cache_put_dll m cp ctx l now q r p Hc Hdll Hfresh)
    as (m' & ctx' & Hput & Hc' & Hdll' & Hsame & Hfr & Hdel & Hdrop).
  exists m', ctx'. split_and!; try done.
  destruct (add_items_limits ctx p (new_entry now q r) l Hcfg Hlim
              (entry_ok_new now q r Hq Hr) Hall) as (Hlim' & Hall').
  split_and!; try done.
  - by eapply config_ok_same.
  - by eapply within_limits_same.
Qed.

(** A failed allocation leaves everything as it was and reports 1. *)
Lemma query_cache_put_alloc_failure m ctx now q r a aq ar :
  a = None ∨ aq = false ∨ ar = false →
  query_cache_put m ctx now q r a aq ar = Some (m, 1).
Proof.
  unfold query_cache_put. intros [->|[->| ->]]; [done| |].
  - by destruct a.
  - by destruct a, aq.
Qed.

Lemma query_cache_invalidate_inv m cp ctx l table :
  cache_inv m cp ctx l →
  ∃ m' ctx',
    query_cache_invalidate m (Some cp) table = Some (m', 0) ∧
    cache_inv m' cp ctx' (invalidate_items table l) ∧
    same_config ctx ctx' ∧
    shrinks (estore m) (estore m') l (invalidate_items table l).
Proof.
  intros (Hc & Hdll & Hcfg & Hlim & Hall).
  destruct (query_cache_invalidate_dll m cp ctx l table Hc Hdll)
    as (m' & ctx' & Hrun & Hc' & Hdll' & Hsame & Hsh).
  exists m', ctx'. split_and!; try done.
  destruct (invalidate_items_measures table l) as (Hlen & Hsum & Hok).
  split_and!; try done.
  - by eapply config_ok_same.
  - eapply within_limits_same; [done|]. destruct Hlim. split; lia.
  - by apply Hok.
Qed.

Lemma query_cache_clear_inv m cp ctx l :
  cache_inv m cp ctx l →
  ∃ m' ctx',
    query_cache_clear m (Some cp) = Some (m', 0) ∧
    cache_inv m' cp ctx' [] ∧ same_config ctx ctx' ∧
    shrinks (estore m) (estore m') l [].
Proof.
  intros (Hc & Hdll & Hcfg & Hlim & Hall).
  destruct (query_cache_clear_dll m cp ctx l Hc Hdll)
    as (m' & ctx' & Hrun & Hc' & Hdll' & Hsame & Hsh).
  exists m', ctx'. split_and!; try done.
  split_and!; try done.
  - by eapply config_ok_same.
  - destruct Hcfg as ((? & ?) & (? & ?)). destruct Hsame as (Hme & Hms & _).
    split; [rewrite Hme|rewrite Hms]; done.
Qed.

(** Every operation of the interface returns on a live cache and keeps the
    invariant. *)
Lemma step_inv cp m ctx l o :
  cache_inv m cp ctx l → op_ok m o →
  ∃ m' out ctx' l',
    step cp m o = Some (m', out) ∧ cache_inv m' cp ctx' l' ∧ same_config ctx ctx'.
Proof.
  intros Hinv Hok. destruct o as [now q|now q r a aq ar|table|]; cbn [step op_ok] in *.
  - destruct (query_cache_get_inv m cp ctx l now q Hinv)
      as (m' & ctx' & -> & Hinv' & Hsame & _).
    simpl. by eexists _, _, _, _.
  - destruct Hok as (Hq & Hr & Ha).
    destruct a as [p|]; [destruct aq; [destruct ar|]|].
    + destruct (query_cache_put_inv m cp ctx l now q r p Hinv Ha Hq Hr)
        as (m' & ctx' & -> & Hinv' & Hsame & _).
      simpl. by eexists _, _, _, _.
    + rewrite query_cache_put_alloc_failure by auto. simpl.
      eexists _, _, _, _. split_and!; try done; apply same_config_refl.
    + rewrite query_cache_put_alloc_failure by auto. simpl.
      eexists _, _, _, _. split_and!; try done; apply same_config_refl.
    + rewrite query_cache_put_alloc_failure by auto. simpl.
      eexists _, _, _, _. split_and!; try done; apply same_config_refl.
  - destruct (query_cache_invalidate_inv m cp ctx l table Hinv)
      as (m' & ctx' & -> & Hinv' & Hsame & _).
    simpl. by eexists _, _, _, _.
  - destruct (query_cache_clear_inv m cp ctx l Hinv)
      as (m' & ctx' & -> & Hinv' & Hsame & _).
    simpl. by eexists _, _, _, _.
Qed.

Lemma create_context_inv m0 cp :
  cache_inv (query_cache_create_context m0 (Some cp)).1 cp new_context [].
Proof.
  split_and!.
  - simpl. apply lookup_insert_eq.
  - by split_and!; [|apply NoDup_nil| |].
  - by vm_compute.
  - by vm_compute.
  - done.
Qed.

Lemma reachable_inv cp m :
  reachable cp m → ∃ ctx l, cache_inv m cp ctx l ∧ default_config ctx.
Proof.
  induction 1 as [m0|m o m' out Hreach (ctx & l & Hinv & Hdef) Hok Hstep].
  - exists new_context, []. split; [apply create_context_inv|done].
  - destruct (step_inv cp m ctx l o Hinv Hok) as (m1 & out1 & ctx' & l' & Hs & Hinv' & Hsame).
    rewrite Hs in Hstep. injection Hstep as <- <-.
    exists ctx', l'. split; [done|].
    destruct Hsame as (Hme & Hms & Httl), Hdef as (? & ? & ?).
    unfold default_config. rewrite Hme, Hms, Httl. done.
Qed.

(** ** Bytes: [memcmp], [strstr] and keys *)

Lemma byte_eqb_eq x y : Byte.eqb x y = true ↔ x = y.
Proof. split; [apply byte_dec_bl|apply byte_dec_lb]. Qed.

Lemma byte_eqb_refl x : Byte.eqb x x = true.
Proof. by apply byte_eqb_eq. Qed.

Lemma memcmp_refl a n : memcmp a a n = 0.
Proof.
  revert n. induction a as [|x a IH]; intros [|n]; simpl; try done.
  by rewrite byte_eqb_refl.
Qed.

Lemma byte_to_N_inj x y : Byte.to_N x = Byte.to_N y → x = y.
Proof.
  intros H. apply (f_equal Byte.of_N) in H. rewrite !Byte.of_to_N in H. congruence.
Qed.

Lemma memcmp_zero a b :
  length a = length b → memcmp a b (length a) = 0 → a = b.
Proof.
  revert b. induction a as [|x a IH]; intros [|y b]; simpl; try done.
  intros [= Hlen]. destruct (Byte.eqb x y) eqn:Hxy.
  - apply byte_eqb_eq in Hxy as ->. intros H. f_equal. by apply IH.
  - intros H. assert (x = y) as ->; [|by rewrite byte_eqb_refl in Hxy].
    apply byte_to_N_inj. lia.
Qed.

(** On entries made by [query_cache_put], the test of the scan is equality
    of the key with the query. *)
Lemma key_matches_iff d q :
  entry_ok d → key_matches d q (len q) = true ↔ query d = q.
Proof.
  intros (Hql & _). unfold key_matches. rewrite Hql. unfold len.
  rewrite andb_true_iff, Z.eqb_eq, Z.eqb_eq, Nat2Z.id. split.
  - intros [Hlen Hcmp]. apply Nat2Z.inj in Hlen. rewrite <- Hlen in Hcmp.
    by apply memcmp_zero.
  - intros ->. split; [done|]. apply memcmp_refl.
Qed.

Lemma key_matches_new now q r : key_matches (new_entry now q r) q (len q) = true.
Proof.
  unfold key_matches, new_entry. simpl. rewrite Z.eqb_refl, memcmp_refl. done.
Qed.

Lemma expired_iff ttl now d :
  - 2 ^ 63 ≤ now - created_time d < 2 ^ 63 →
  expired ttl now d = true ↔ created_time d + ttl < now.
Proof.
  intros Hrange. unfold expired. rewrite to_time_t_small by done.
  rewrite Z.ltb_lt. lia.
Qed.

Lemma expired_same_instant ttl now d :
  0 ≤ ttl → created_time d = now → expired ttl now d = false.
Proof.
  intros Httl <-. unfold expired. rewrite Z.sub_diag.
  change (to_time_t 0) with 0. apply Z.ltb_ge. done.
Qed.

(** *** C strings *)

Lemma c_str_nul_free s : nul_free s → c_str s = s.
Proof.
  unfold nul_free. induction s as [|x s IH]; [done|]. simpl.
  rewrite not_elem_of_cons. intros [Hx Hs].
  destruct (Byte.eqb x NUL) eqn:Hx0.
  - apply byte_eqb_eq in Hx0. congruence.
  - by rewrite IH.
Qed.

Lemma c_str_prefix s : ∃ rest, s = c_str s ++ rest.
Proof.
  induction s as [|x s (rest & IH)]; [by exists []|]. simpl.
  destruct (Byte.eqb x NUL).
  - by exists (x :: s).
  - exists rest. simpl. by rewrite <- IH.
Qed.

Lemma c_str_is_nul_free s : nul_free (c_str s).
Proof.
  unfold nul_free. induction s as [|x s IH]; simpl; [by apply not_elem_of_nil|].
  destruct (Byte.eqb x NUL) eqn:Hx; [by apply not_elem_of_nil|].
  apply not_elem_of_cons. split; [|done]. intros Hnul.
  rewrite <- Hnul, byte_eqb_refl in Hx. done.
Qed.

Lemma starts_with_iff needle hay :
  starts_with needle hay = true ↔ ∃ post, hay = needle ++ post.
Proof.
  revert hay. induction needle as [|x needle IH]; intros hay; simpl.
  - split; [by exists hay|done].
  - destruct hay as [|y hay].
    + split; [done|]. by intros (post & ?).
    + rewrite andb_true_iff, byte_eqb_eq, IH. split.
      * intros (-> & post & ->). by exists post.
      * intros (post & [= -> ->]). split; [done|]. by exists post.
Qed.

Lemma strstr_scan_iff hay needle :
  is_Some (strstr_scan hay needle) ↔ is_substring needle hay.
Proof.
  unfold is_substring. induction hay as [|y hay IH]; simpl.
  - destruct (starts_with needle []) eqn:Hs.
    + apply starts_with_iff in Hs as (post & Hs). split; [|by eexists].
      intros _. by exists [], post.
    + split; [by intros [? ?]|]. intros (pre & post & Heq).
      destruct pre; [|done]. simpl in Heq.
      assert (starts_with needle [] = true) as Hs'
        by (apply starts_with_iff; by exists post).
      congruence.
  - destruct (starts_with needle (y :: hay)) eqn:Hs.
    + apply starts_with_iff in Hs as (post & Hs). split; [|by eexists].
      intros _. by exists [], post.
    + rewrite IH. split.
      * intros (pre & post & ->). by exists (y :: pre), post.
      * intros (pre & post & Heq). destruct pre as [|z pre].
        -- simpl in Heq. assert (starts_with needle (y :: hay) = true) as Hs'
             by (apply starts_with_iff; by exists post).
           congruence.
        -- injection Heq as -> ->. by exists pre, post.
Qed.

(** [invalidate] drops an entry exactly when the table name, read as a C
    string, occurs in the key read as a C string. *)
Lemma mentions_iff table d :
  mentions table d = true ↔ is_substring (c_str table) (c_str (query d)).
Proof.
  unfold mentions, strstr. rewrite <- strstr_scan_iff.
  destruct (strstr_scan (c_str (query d)) (c_str table)).
  - split; [by eexists|done].
  - split; [done|]. by intros [? ?].
Qed.

Lemma is_substring_c_str t s : is_substring t (c_str s) → is_substring t s.
Proof.
  intros (pre & post & Heq). destruct (c_str_prefix s) as (rest & Hs).
  exists pre, (post ++ rest). rewrite Hs at 1. rewrite Heq.
  by rewrite <- !app_assoc.
Qed.

(** ** What a scan returns and leaves *)

Lemma filter_live_cons ttl now p d l :
  List.filter (live ttl now) ((p, d) :: l) =
  if expired ttl now d then List.filter (live ttl now) l
  else (p, d) :: List.filter (live ttl now) l.
Proof. simpl. unfold live at 1. simpl. by destruct (expired ttl now d). Qed.

Lemma find_items_spec ttl now q qlen l :
  ∀ kept,
    (∃ l1 p d l2,
        l = l1 ++ (p, d) :: l2 ∧ expired ttl now d = false ∧
        key_matches d q qlen = true ∧ Forall (passed ttl now q qlen) l1 ∧
        find_items ttl now q qlen kept l =
          ((p, touch now d) :: kept ++ List.filter (live ttl now) l1 ++ l2,
           Some (p, touch now d)))
    ∨ (Forall (passed ttl now q qlen) l ∧
       find_items ttl now q qlen kept l = (kept ++ List.filter (live ttl now) l, None)).
Proof.
  induction l as [|[p d] l IH]; intros kept.
  - right. split; [done|]. simpl. by rewrite app_nil_r.
  - cbn [find_items]. rewrite filter_live_cons.
    destruct (expired ttl now d) eqn:Hexp.
    + destruct (IH kept) as [(l1 & p' & d' & l2 & -> & He & Hk & Hall & Hf)|[Hall Hf]].
      * left. exists ((p, d) :: l1), p', d', l2. split_and!; try done.
        -- apply Forall_cons. split; [by left|done].
        -- by rewrite filter_live_cons, Hexp.
      * right. split; [|done]. apply Forall_cons. split; [by left|done].
    + destruct (key_matches d q qlen) eqn:Hkey.
      * left. exists [], p, d, l. by split_and!.
      * destruct (IH (kept ++ [(p, d)]))
          as [(l1 & p' & d' & l2 & -> & He & Hk & Hall & Hf)|[Hall Hf]].
        -- left. exists ((p, d) :: l1), p', d', l2. split_and!; try done.
           ++ apply Forall_cons. split; [by right|done].
           ++ rewrite filter_live_cons, Hexp. rewrite Hf. by rewrite <- !app_assoc.
        -- right. split.
           ++ apply Forall_cons. split; [by right|done].
           ++ rewrite Hf. by rewrite <- !app_assoc.
Qed.

Lemma ptrs_elem a d (l : list (ptr * CacheEntry)) : (a, d) ∈ l → a ∈ ptrs l.
Proof. intros Hin. unfold ptrs. apply list_elem_of_fmap. by exists (a, d). Qed.

Lemma NoDup_ptrs_unique (l : list (ptr * CacheEntry)) a d d' :
  NoDup (ptrs l) → (a, d) ∈ l → (a, d') ∈ l → d = d'.
Proof.
  induction l as [|[b e] l IH]; intros Hnd H1 H2.
  - by apply elem_of_nil in H1.
  - rewrite ptrs_cons in Hnd. apply NoDup_cons in Hnd as [Hb Hnd].
    apply elem_of_cons in H1 as [H1|H1]; apply elem_of_cons in H2 as [H2|H2].
    + congruence.
    + injection H1 as -> ->. exfalso. by apply Hb, (ptrs_elem _ d').
    + injection H2 as -> ->. exfalso. by apply Hb, (ptrs_elem _ d).
    + by apply IH.
Qed.

(** An expired entry does not survive the filter of the scan. *)
Lemma expired_not_in_live ttl now l a d :
  NoDup (ptrs l) → (a, d) ∈ l → expired ttl now d = true →
  a ∉ ptrs (List.filter (live ttl now) l).
Proof.
  intros Hnd Hin Hexp Ha. unfold ptrs in Ha. apply list_elem_of_fmap in Ha as ([a' d'] & Heq & Hx).
  simpl in Heq. subst a'. apply list_elem_of_In, filter_In in Hx as [Hx Hlive].
  apply list_elem_of_In in Hx.
  rewrite (NoDup_ptrs_unique l a d d' Hnd Hin Hx) in Hexp.
  unfold live in Hlive. simpl in Hlive. by rewrite Hexp in Hlive.
Qed.

(** ** Insertion: what [query_cache_put] leaves *)

(** An entry that fits in an empty cache is always inserted. *)
Lemma add_items_fits ctx p d l :
  config_ok ctx → entry_ok d → fits ctx [] (query d) (result d) →
  ∃ k, add_items (max_entries ctx) (max_size ctx) p d l = (p, d) :: take k l.
Proof.
  intros Hcfg Hd (Hcnt & Hsz). unfold add_items.
  destruct (evict_items_spec (max_entries ctx) (max_size ctx) d l)
    as (k & Hk & Hl & Hroom & Hzero & _).
  destruct (evict_items (max_entries ctx) (max_size ctx) d l) as [l' room].
  simpl in *. subst l'. exists k. destruct room; [done|].
  rewrite (Hzero eq_refl), take_0 in Hroom.
  rewrite no_room_items_exact in Hroom; try done.
  - symmetry in Hroom. apply negb_false_iff, bool_decide_eq_true in Hroom.
    change (len_items []) with 0 in *. change (sum_bytes []) with 0 in *.
    exfalso. lia.
  - destruct Hcfg as ((? & ?) & (? & ?)). split; done.
Qed.

(** An entry that does not fit in an empty cache empties it and is
    dropped. *)
Lemma add_items_too_large ctx p d l :
  config_ok ctx → within_limits ctx l → entry_ok d →
  max_size ctx < len (query d) + len (result d) + sizeof_CacheEntry →
  add_items (max_entries ctx) (max_size ctx) p d l = [].
Proof.
  intros Hcfg Hlim Hd Hbig. unfold add_items.
  destruct (evict_items_spec (max_entries ctx) (max_size ctx) d l)
    as (k & Hk & Hl & Hroom & Hzero & _).
  destruct (evict_items (max_entries ctx) (max_size ctx) d l) as [l' room].
  simpl in *. subst l'.
  assert (within_limits ctx (take k l)) as Hlim'.
  { destruct Hlim. pose proof (take_measures l k). split; lia. }
  rewrite no_room_items_exact in Hroom by done.
  pose proof (sum_bytes_nonneg (take k l)).
  rewrite bool_decide_eq_true_2 in Hroom by lia. simpl in Hroom. subst room.
  by rewrite (Hzero eq_refl), take_0.
Qed.

Lemma dll_nil_counters ctx h :
  dll ctx h [] →
  head ctx = None ∧ tail ctx = None ∧ entry_count ctx = 0 ∧ current_size ctx = 0.
Proof. intros ([? ?] & _ & ? & ?). by split_and!. Qed.

Lemma oversized_put_inv m cp ctx l now q r p :
  cache_inv m cp ctx l → estore m !! p = None → valid_len q → valid_len r →
  max_size ctx < len q + len r + sizeof_CacheEntry →
  ∃ m' ctx',
    query_cache_put m (Some cp) now q r (Some p) true true = Some (m', 0) ∧
    cache_inv m' cp ctx' [] ∧
    head ctx' = None ∧ tail ctx' = None ∧
    entry_count ctx' = 0 ∧ current_size ctx' = 0 ∧
    estore m' !! p = None ∧
    (∀ a, a ∈ ptrs l → estore m' !! a = None).
Proof.
  intros Hinv Hfresh Hq Hr Hbig.
  destruct (query_cache_put_inv m cp ctx l now q r p Hinv Hfresh Hq Hr)
    as (m' & ctx' & Hput & Hinv' & Hsame & Hdel & Hdrop & _).
  destruct Hinv as (Hc & Hdll & Hcfg & Hlim & Hall).
  assert (add_items (max_entries ctx) (max_size ctx) p (new_entry now q r) l = [])
    as Hnil.
  { apply add_items_too_large; try done; by apply entry_ok_new. }
  rewrite Hnil in *.
  exists m', ctx'. split; [done|]. split; [done|].
  destruct Hinv' as (_ & Hdll' & _).
  destruct (dll_nil_counters _ _ Hdll') as (? & ? & ? & ?).
  split_and!; try done.
  - apply Hdrop. apply not_elem_of_nil.
  - intros a Ha. apply Hdel; [done|]. apply not_elem_of_nil.
Qed.

(** C5: when the incoming entry alone exceeds [max_size], the eviction loop
    empties the list, [query_cache_put] frees the entry without inserting
    it and still returns 0; afterwards the cache is empty, its counters are
    zero and neither the discarded node nor any former node is allocated. *)
Theorem oversized_put_is_dropped m cp ctx l now q r p :
  cache_inv m cp ctx l → estore m !! p = None → valid_len q → valid_len r →
  max_size ctx < len q + len r + sizeof_CacheEntry →
  ∃ m' ctx',
    query_cache_put m (Some cp) now q r (Some p) true true = Some (m', 0) ∧
    cache_inv m' cp ctx' [] ∧
    head ctx' = None ∧ tail ctx' = None ∧
    entry_count ctx' = 0 ∧ current_size ctx' = 0 ∧
    estore m' !! p = None ∧
    (∀ a, a ∈ ptrs l → estore m' !! a = None).
Proof. apply oversized_put_inv. Qed.

Lemma fresh_mem_inv : cache_inv fresh_mem sample_ctx new_context [].
Proof. apply create_context_inv. Qed.

Lemma len_big_result : len big_result = DEFAULT_MAX_SIZE - 16.
Proof.
  unfold len, big_result. rewrite length_replicate. rewrite Z2Nat.id; [done|].
  by vm_compute.
Qed.

(** The hypotheses of C5 on an entry of 64 MiB + 57 bytes. *)
Lemma oversized_put_is_dropped_witness :
  (cache_inv fresh_mem sample_ctx new_context [] ∧
   estore fresh_mem !! 2%positive = None ∧
   valid_len [ "q"%byte ] ∧ valid_len big_result ∧
   max_size new_context < len [ "q"%byte ] + len big_result + sizeof_CacheEntry) ∧
  ∃ m' ctx',
    query_cache_put fresh_mem (Some sample_ctx) 0 [ "q"%byte ] big_result
      (Some 2%positive) true true = Some (m', 0) ∧
    cache_inv m' sample_ctx ctx' [] ∧
    head ctx' = None ∧ tail ctx' = None ∧
    entry_count ctx' = 0 ∧ current_size ctx' = 0 ∧
    estore m' !! 2%positive = None ∧
    (∀ a, a ∈ ptrs [] → estore m' !! a = None).
Proof.
  assert (estore fresh_mem !! 2%positive = None) as Hfresh by reflexivity.
  assert (valid_len [ "q"%byte ]) as Hq by (vm_compute; reflexivity).
  assert (max_size new_context < len [ "q"%byte ] + len big_result + sizeof_CacheEntry)
    as Hbig.
  { rewrite len_big_result. vm_compute. reflexivity. }
  assert (valid_len big_result) as Hr.
  { unfold valid_len. rewrite len_big_result. vm_compute. reflexivity. }
  split; [split_and!; [apply fresh_mem_inv|exact Hfresh|exact Hq|exact Hr|exact Hbig]|].
  exact (oversized_put_is_dropped fresh_mem sample_ctx new_context [] 0 [ "q"%byte ]
           big_result 2%positive fresh_mem_inv Hfresh Hq Hr Hbig).
Defined.

(** ** Lookup right after insertion *)

Lemma find_items_head_hit ttl now q p d l :
  expired ttl now d = false → key_matches d q (len q) = true →
  find_items ttl now q (len q) [] ((p, d) :: l) =
    ((p, touch now d) :: l, Some (p, touch now d)).
Proof. intros Hexp Hkey. simpl. by rewrite Hexp, Hkey. Qed.

Lemma put_then_get_inv m cp ctx l t now q r p :
  cache_inv m cp ctx l → estore m !! p = None → valid_len q → valid_len r →
  fits ctx [] q r →
  expired (default_ttl ctx) now (new_entry t q r) = false →
  ∃ m1 m2 ctx1 ctx2 k,
    query_cache_put m (Some cp) t q r (Some p) true true = Some (m1, 0) ∧
    cache_inv m1 cp ctx1 ((p, new_entry t q r) :: take k l) ∧
    query_cache_get m1 (Some cp) now q = Some (m2, 0, Some (r, len r)) ∧
    cache_inv m2 cp ctx2 ((p, touch now (new_entry t q r)) :: take k l) ∧
    same_config ctx ctx2.
Proof.
  intros Hinv Hfresh Hq Hr Hfit Hlive.
  destruct (query_cache_put_inv m cp ctx l t q r p Hinv Hfresh Hq Hr)
    as (m1 & ctx1 & Hput & Hinv1 & Hsame1 & _).
  destruct (add_items_fits ctx p (new_entry t q r) l) as (k & Hadd).
  { by destruct Hinv as (_ & _ & ? & _). }
  { by apply entry_ok_new. }
  { done. }
  rewrite Hadd in Hinv1.
  destruct (query_cache_get_inv m1 cp ctx1 _ now q Hinv1)
    as (m2 & ctx2 & Hget & Hinv2 & Hsame2 & _).
  pose proof Hsame1 as (_ & _ & Httl).
  rewrite Httl, find_items_head_hit in Hget, Hinv2;
    try done; try apply key_matches_new.
  exists m1, m2, ctx1, ctx2, k. split_and!; try done.
  by eapply same_config_trans.
Qed.

(** C1 (amended): in every reachable state, when the allocations of
    [query_cache_put] succeed and the entry's accounted size -- key length
    plus value length plus [sizeof(CacheEntry)] -- does not exceed
    [max_size], a put of [(q, r)] followed by a get of [q] at the same clock
    reading returns [r] with its length. *)
Theorem hit_after_put cp m now q r p :
  reachable cp m → estore m !! p = None → valid_len q → valid_len r →
  len q + len r + sizeof_CacheEntry ≤ DEFAULT_MAX_SIZE →
  ∃ m1 m2,
    query_cache_put m (Some cp) now q r (Some p) true true = Some (m1, 0) ∧
    query_cache_get m1 (Some cp) now q = Some (m2, 0, Some (r, len r)).
Proof.
  intros Hreach Hfresh Hq Hr Hfit.
  destruct (reachable_inv cp m Hreach) as (ctx & l & Hinv & Hme & Hms & Httl).
  destruct (put_then_get_inv m cp ctx l now now q r p Hinv Hfresh Hq Hr)
    as (m1 & m2 & _ & _ & _ & Hput & _ & Hget & _).
  - split.
    + rewrite Hme. by vm_compute.
    + rewrite Hms. change (sum_bytes []) with 0. lia.
  - apply expired_same_instant; [|done]. rewrite Httl. by vm_compute.
  - by exists m1, m2.
Qed.

Lemma hit_after_put_witness :
  (reachable sample_ctx fresh_mem ∧ estore fresh_mem !! 2%positive = None ∧
   valid_len [ "q"%byte ] ∧ valid_len [ "r"%byte ] ∧
   len [ "q"%byte ] + len [ "r"%byte ] + sizeof_CacheEntry ≤ DEFAULT_MAX_SIZE) ∧
  ∃ m1 m2,
    query_cache_put fresh_mem (Some sample_ctx) 5 [ "q"%byte ] [ "r"%byte ]
      (Some 2%positive) true true = Some (m1, 0) ∧
    query_cache_get m1 (Some sample_ctx) 5 [ "q"%byte ] =
      Some (m2, 0, Some ([ "r"%byte ], len [ "r"%byte ])).
Proof.
  assert (reachable sample_ctx fresh_mem) as Hreach by apply reach_create.
  assert (estore fresh_mem !! 2%positive = None) as Hfresh by reflexivity.
  assert (valid_len [ "q"%byte ]) as Hq by (by vm_compute).
  assert (valid_len [ "r"%byte ]) as Hr by (by vm_compute).
  assert (len [ "q"%byte ] + len [ "r"%byte ] + sizeof_CacheEntry ≤ DEFAULT_MAX_SIZE)
    as Hfit by (by vm_compute).
  split; [by split_and!|].
  exact (hit_after_put sample_ctx fresh_mem 5 [ "q"%byte ] [ "r"%byte ] 2%positive
           Hreach Hfresh Hq Hr Hfit).
Defined.

(** C1 as stated fails: a value of 64 MiB - 16 bytes does not exceed
    [max_size] by itself, yet with its one-byte key and the per-entry
    overhead the entry does; the put reports success, drops the entry, and
    the get that follows misses. *)
Lemma hit_after_put_value_size_alone :
  reachable sample_ctx fresh_mem ∧ estore fresh_mem !! 2%positive = None ∧
  valid_len [ "q"%byte ] ∧ valid_len big_result ∧
  len big_result ≤ DEFAULT_MAX_SIZE ∧
  ∃ m1 m2,
    query_cache_put fresh_mem (Some sample_ctx) 5 [ "q"%byte ] big_result
      (Some 2%positive) true true = Some (m1, 0) ∧
    query_cache_get m1 (Some sample_ctx) 5 [ "q"%byte ] = Some (m2, 1, None).
Proof.
  assert (estore fresh_mem !! 2%positive = None) as Hfresh by reflexivity.
  assert (valid_len [ "q"%byte ]) as Hq by (vm_compute; reflexivity).
  assert (max_size new_context < len [ "q"%byte ] + len big_result + sizeof_CacheEntry)
    as Hbig by (rewrite len_big_result; vm_compute; reflexivity).
  assert (valid_len big_result) as Hr
    by (unfold valid_len; rewrite len_big_result; vm_compute; reflexivity).
  destruct (oversized_put_inv fresh_mem sample_ctx new_context [] 5 [ "q"%byte ]
              big_result 2%positive fresh_mem_inv Hfresh Hq Hr Hbig)
    as (m1 & ctx1 & Hput & Hinv1 & _).
  destruct (query_cache_get_inv m1 sample_ctx ctx1 [] 5 [ "q"%byte ] Hinv1)
    as (m2 & ctx2 & Hget & _).
  split; [apply reach_create|]. split; [exact Hfresh|]. split; [exact Hq|].
  split; [exact Hr|]. split; [rewrite len_big_result; vm_compute; discriminate|].
  exists m1, m2. split; [exact Hput|exact Hget].
Qed.

(** ** The capacity bounds *)

(** Under the invariant the two counters are the exact length and byte
    count of the list, and both are within the limits. *)
Lemma cache_inv_counters m cp ctx l :
  cache_inv m cp ctx l →
  entry_count ctx = len_items l ∧ current_size ctx = sum_bytes l ∧
  entry_count ctx ≤ max_entries ctx ∧ current_size ctx ≤ max_size ctx.
Proof.
  intros (_ & (_ & _ & Hcnt & Hsz) & ((? & Hme) & (? & Hms)) & (Hlen & Hsum) & _).
  pose proof (len_items_nonneg l). pose proof (sum_bytes_nonneg l).
  unfold INT_MAX in *.
  rewrite to_int_small in Hcnt by lia. rewrite to_size_t_small in Hsz by lia.
  rewrite Hcnt, Hsz. by split_and!.
Qed.

Lemma no_room_items_iff_not_fits ctx kept now q r :
  config_ok ctx → within_limits ctx kept → valid_len q → valid_len r →
  no_room_items (max_entries ctx) (max_size ctx) (new_entry now q r) kept = true ↔
  ¬ fits ctx kept q r.
Proof.
  intros Hcfg Hlim Hq Hr.
  rewrite (no_room_items_exact ctx (new_entry now q r) kept Hcfg Hlim
             (entry_ok_new now q r Hq Hr)).
  rewrite bool_decide_eq_true. unfold fits. simpl. lia.
Qed.

Lemma room_items_iff_fits ctx kept now q r :
  config_ok ctx → within_limits ctx kept → valid_len q → valid_len r →
  no_room_items (max_entries ctx) (max_size ctx) (new_entry now q r) kept = false ↔
  fits ctx kept q r.
Proof.
  intros Hcfg Hlim Hq Hr.
  rewrite (no_room_items_exact ctx (new_entry now q r) kept Hcfg Hlim
             (entry_ok_new now q r Hq Hr)).
  rewrite bool_decide_eq_false. unfold fits. simpl. lia.
Qed.

(** What one put does to the list: it keeps the longest prefix (head side)
    that fits the entry and links the entry in front of it, or, when not
    even the empty list fits it, leaves the list empty. *)
Lemma query_cache_put_evicts m cp ctx l now q r p :
  cache_inv m cp ctx l → valid_len q → valid_len r → estore m !! p = None →
  ∃ m' ctx' k,
    (k ≤ length l)%nat ∧
    query_cache_put m (Some cp) now q r (Some p) true true = Some (m', 0) ∧
    same_config ctx ctx' ∧
    (∀ j, (k < j ≤ length l)%nat → ¬ fits ctx (take j l) q r) ∧
    (fits ctx (take k l) q r ∧
     cache_inv m' cp ctx' ((p, new_entry now q r) :: take k l)
     ∨ k = 0%nat ∧ ¬ fits ctx [] q r ∧ cache_inv m' cp ctx' []).
Proof.
  intros Hinv Hq Hr Hfresh.
  destruct (query_cache_put_inv m cp ctx l now q r p Hinv Hfresh Hq Hr)
    as (m' & ctx' & Hput & Hinv' & Hsame & _).
  destruct Hinv as (_ & _ & Hcfg & Hlim & _).
  assert (∀ j, within_limits ctx (take j l)) as Hlimj.
  { intros j. destruct Hlim. pose proof (take_measures l j). split; lia. }
  unfold add_items in Hinv'.
  destruct (evict_items_spec (max_entries ctx) (max_size ctx) (new_entry now q r) l)
    as (k & Hk & Hl & Hroom & Hzero & Hmax).
  destruct (evict_items (max_entries ctx) (max_size ctx) (new_entry now q r) l)
    as [l' room].
  cbn [fst snd] in *. subst l'. exists m', ctx', k. split_and!; try done.
  - intros j Hj. apply (no_room_items_iff_not_fits ctx _ now); auto.
  - destruct room.
    + left. split; [|done]. symmetry in Hroom. apply negb_true_iff in Hroom.
      by apply (room_items_iff_fits ctx _ now) in Hroom.
    + right. pose proof (Hzero eq_refl) as ->. pose proof (Hlimj 0%nat) as Hlim0.
      rewrite take_0 in *. split_and!; try done.
      apply (no_room_items_iff_not_fits ctx _ now); try done.
      symmetry in Hroom. by apply negb_false_iff in Hroom.
Qed.

(** C2: in every state reached from a freshly created context through the
    interface, the entry count is at most [max_entries] and the byte count
    at most [max_size]; and a put in such a state removes entries from the
    tail -- it keeps the first [k] entries, no longer prefix leaving room
    for the incoming entry -- until both limits have room for the entry,
    which is then linked at the head, or until the list is empty, and
    leaves the counters within the limits. *)
Theorem capacity_bound cp m :
  reachable cp m →
  ∃ ctx l,
    cstore m !! cp = Some ctx ∧ dll ctx (estore m) l ∧
    entry_count ctx ≤ max_entries ctx ∧ current_size ctx ≤ max_size ctx ∧
    ∀ now q r p,
      valid_len q → valid_len r → estore m !! p = None →
      ∃ m' ctx' k,
        (k ≤ length l)%nat ∧
        query_cache_put m (Some cp) now q r (Some p) true true = Some (m', 0) ∧
        cstore m' !! cp = Some ctx' ∧
        (∀ j, (k < j ≤ length l)%nat → ¬ fits ctx (take j l) q r) ∧
        (fits ctx (take k l) q r ∧
         dll ctx' (estore m') ((p, new_entry now q r) :: take k l)
         ∨ k = 0%nat ∧ ¬ fits ctx [] q r ∧ dll ctx' (estore m') []) ∧
        entry_count ctx' ≤ max_entries ctx' ∧ current_size ctx' ≤ max_size ctx'.
Proof.
  intros Hreach.
  destruct (reachable_inv cp m Hreach) as (ctx & l & Hinv & _).
  exists ctx, l. pose proof (cache_inv_counters _ _ _ _ Hinv) as (_ & _ & ? & ?).
  pose proof Hinv as (Hc & Hdll & _).
  split_and!; try done.
  intros now q r p Hq Hr Hfresh.
  destruct (query_cache_put_evicts m cp ctx l now q r p Hinv Hq Hr Hfresh)
    as (m' & ctx' & k & Hk & Hput & Hsame & Hmax & Hcase).
  exists m', ctx', k.
  assert (∃ l', cache_inv m' cp ctx' l') as (l' & Hinv').
  { destruct Hcase as [(_ & ?)|(_ & _ & ?)]; by eexists. }
  pose proof (cache_inv_counters _ _ _ _ Hinv') as (_ & _ & ? & ?).
  pose proof Hinv' as (Hc' & _).
  split_and!; try done.
  destruct Hcase as [(? & (_ & ? & _))|(? & ? & (_ & ? & _))]; [by left|by right].
Qed.

Lemma capacity_bound_witness :
  (reachable sample_ctx one_entry_mem ∧ valid_len key_a ∧ valid_len val_a ∧
   estore one_entry_mem !! 3%positive = None) ∧
  ∃ ctx l,
    cstore one_entry_mem !! sample_ctx = Some ctx ∧ dll ctx (estore one_entry_mem) l ∧
    entry_count ctx ≤ max_entries ctx ∧ current_size ctx ≤ max_size ctx ∧
    ∃ m' ctx' k,
      (k ≤ length l)%nat ∧
      query_cache_put one_entry_mem (Some sample_ctx) 200 key_a val_a
        (Some 3%positive) true true = Some (m', 0) ∧
      cstore m' !! sample_ctx = Some ctx' ∧
      (∀ j, (k < j ≤ length l)%nat → ¬ fits ctx (take j l) key_a val_a) ∧
      (fits ctx (take k l) key_a val_a ∧
       dll ctx' (estore m') ((3%positive, new_entry 200 key_a val_a) :: take k l)
       ∨ k = 0%nat ∧ ¬ fits ctx [] key_a val_a ∧ dll ctx' (estore m') []) ∧
      entry_count ctx' ≤ max_entries ctx' ∧ current_size ctx' ≤ max_size ctx'.
Proof.
  assert (reachable sample_ctx one_entry_mem) as Hreach.
  { apply (reach_step sample_ctx fresh_mem
             (Put 100 key_q val_r (Some 2%positive) true true) one_entry_mem (Status 0)).
    - apply reach_create.
    - split; [vm_compute; reflexivity|]. split; [vm_compute; reflexivity|reflexivity].
    - vm_compute. reflexivity. }
  assert (valid_len key_a) as Hq by (vm_compute; reflexivity).
  assert (valid_len val_a) as Hr by (vm_compute; reflexivity).
  assert (estore one_entry_mem !! 3%positive = None) as Hfresh by reflexivity.
  split; [by split_and!|].
  destruct (capacity_bound sample_ctx one_entry_mem Hreach)
    as (ctx & l & Hc & Hdll & Hcnt & Hsz & Hput).
  exists ctx, l. split; [exact Hc|]. split; [exact Hdll|]. split; [exact Hcnt|].
  split; [exact Hsz|]. exact (Hput 200 key_a val_a 3%positive Hq Hr Hfresh).
Defined.

(** ** Expiry *)

(** The invariant of a concrete memory, by evaluation. *)
Ltac solve_cache_inv :=
  split_and!;
  [ reflexivity
  | split_and!;
    [ repeat (first [ reflexivity | split | eexists ])
    | refine (bool_decide_unpack _ _); vm_compute; exact I
    | reflexivity
    | reflexivity ]
  | vm_compute; intuition discriminate
  | vm_compute; intuition discriminate
  | repeat (apply Forall_cons; split; [vm_compute; intuition discriminate|]);
    apply Forall_nil_2 ].

Lemma one_entry_mem_inv :
  cache_inv one_entry_mem sample_ctx one_entry_ctx one_entry_list.
Proof. solve_cache_inv. Qed.

Lemma two_slot_mem_inv : cache_inv two_slot_mem sample_ctx two_slot_ctx [].
Proof. solve_cache_inv. Qed.

(** C3 (amended): an entry stamped at time [t = created_time d] that is
    still in the list, and is the only one with its key, is a MISS (and is
    freed) for a get at any time [now > t + default_ttl], and a HIT
    returning its value for a get at any time [now <= t + default_ttl].
    The entries are stamped by [query_cache_put] with its clock reading
    ([new_entry]); [now - t] is taken within the range of [time_t]. *)
Theorem ttl_expiry m cp ctx l p d now :
  cache_inv m cp ctx l → (p, d) ∈ l →
  (∀ p' d', (p', d') ∈ l → query d' = query d → p' = p) →
  - 2 ^ 63 ≤ now - created_time d < 2 ^ 63 →
  (created_time d + default_ttl ctx < now →
   ∃ m', query_cache_get m (Some cp) now (query d) = Some (m', 1, None) ∧
         estore m' !! p = None) ∧
  (now ≤ created_time d + default_ttl ctx →
   ∃ m', query_cache_get m (Some cp) now (query d) =
           Some (m', 0, Some (result d, result_len d))).
Proof.
  intros Hinv Hin Huniq Hrange.
  destruct (query_cache_get_inv m cp ctx l now (query d) Hinv)
    as (m' & ctx' & Hget & Hinv' & Hsame & Hsh).
  pose proof Hinv as (_ & (_ & Hnd & _) & _ & _ & Hall).
  rewrite Forall_forall in Hall.
  pose proof (expired_iff (default_ttl ctx) now d Hrange) as Hexp.
  destruct (find_items_spec (default_ttl ctx) now (query d) (len (query d)) l [])
    as [(l1 & p' & d' & l2 & Hl & Hlive & Hkey & Hpassed & Hfind)|[Hpassed Hfind]];
    rewrite Hfind in *; clear Hfind; simpl in Hget.
  - (* the scan stopped on a live entry with the key: it is [d] *)
    assert ((p', d') ∈ l) as Hin'.
    { rewrite Hl. apply elem_of_app. right. apply elem_of_cons. by left. }
    apply key_matches_iff in Hkey; [|by apply (Hall (p', d'))].
    assert (p' = p) as -> by (by eapply Huniq).
    assert (d' = d) as -> by (by eapply NoDup_ptrs_unique).
    split.
    + intros Hlate. apply Hexp in Hlate. congruence.
    + intros _. by exists m'.
  - (* the scan passed every entry: [d] was expired *)
    rewrite Forall_forall in Hpassed.
    assert (expired (default_ttl ctx) now d = true) as Hd.
    { destruct (Hpassed _ Hin) as [?|Hno]; [done|]. simpl in Hno.
      assert (key_matches d (query d) (len (query d)) = true) as Hyes
        by (by apply key_matches_iff; [apply (Hall (p, d))|]).
      congruence. }
    split.
    + intros _. exists m'. split; [done|].
      destruct Hsh as (_ & _ & Hdel). apply Hdel; [by eapply ptrs_elem|].
      simpl. by eapply expired_not_in_live.
    + intros Hearly. apply Hexp in Hd. lia.
Qed.

Lemma ttl_expiry_witness :
  (cache_inv one_entry_mem sample_ctx one_entry_ctx one_entry_list ∧
   (2%positive, new_entry 100 key_q val_r) ∈ one_entry_list ∧
   (∀ p' d', (p', d') ∈ one_entry_list → query d' = key_q → p' = 2%positive) ∧
   - 2 ^ 63 ≤ 3701 - 100 < 2 ^ 63 ∧ - 2 ^ 63 ≤ 3700 - 100 < 2 ^ 63 ∧
   100 + default_ttl one_entry_ctx < 3701 ∧ 3700 ≤ 100 + default_ttl one_entry_ctx) ∧
  (∃ m', query_cache_get one_entry_mem (Some sample_ctx) 3701 key_q = Some (m', 1, None) ∧
         estore m' !! 2%positive = None) ∧
  (∃ m', query_cache_get one_entry_mem (Some sample_ctx) 3700 key_q =
           Some (m', 0, Some (val_r, len val_r))).
Proof.
  assert ((2%positive, new_entry 100 key_q val_r) ∈ one_entry_list) as Hin
    by (apply elem_of_cons; by left).
  assert (∀ p' d', (p', d') ∈ one_entry_list → query d' = key_q → p' = 2%positive)
    as Huniq.
  { intros p' d' Hin' _. apply elem_of_cons in Hin' as [Heq|Hnil].
    - by injection Heq.
    - by apply elem_of_nil in Hnil. }
  assert (- 2 ^ 63 ≤ 3701 - 100 < 2 ^ 63) as Hlate_range by lia.
  assert (- 2 ^ 63 ≤ 3700 - 100 < 2 ^ 63) as Hedge_range by lia.
  assert (100 + default_ttl one_entry_ctx < 3701) as Hlate by (vm_compute; reflexivity).
  assert (3700 ≤ 100 + default_ttl one_entry_ctx) as Hedge by (vm_compute; discriminate).
  split.
  { split; [apply one_entry_mem_inv|]. split; [exact Hin|]. split; [exact Huniq|].
    split; [exact Hlate_range|]. split; [exact Hedge_range|]. split; [exact Hlate|].
    exact Hedge. }
  split.
  - exact (proj1 (ttl_expiry one_entry_mem sample_ctx one_entry_ctx one_entry_list
                    2%positive (new_entry 100 key_q val_r) 3701
                    one_entry_mem_inv Hin Huniq Hlate_range) Hlate).
  - exact (proj2 (ttl_expiry one_entry_mem sample_ctx one_entry_ctx one_entry_list
                    2%positive (new_entry 100 key_q val_r) 3700
                    one_entry_mem_inv Hin Huniq Hedge_range) Hedge).
Defined.

(** C3 as stated fails at the boundary: an entry put at time 100 is still
    returned by a get at time [100 + DEFAULT_TTL], where the claim has a
    MISS. *)
Lemma ttl_boundary_is_a_hit :
  ∃ m,
    run sample_ctx fresh_mem
      [Put 100 key_q val_r (Some 2%positive) true true;
       Get (100 + DEFAULT_TTL) key_q]
    = Some (m, [Status 0; Hit val_r 1]).
Proof. eexists. vm_compute. reflexivity. Qed.

(** C6: a get splits the list into the part its scan walks over and the
    part behind the entry it returns.  On a miss the scan walks over the
    whole list; on a hit it ends on the returned entry, which is live and
    has the key, after entries that are expired or have another key.  Every
    entry walked over whose age exceeds [default_ttl] -- whatever its key --
    is out of the list and freed when the get returns; the entries not
    reached stay. *)
Theorem lazy_expiry m cp ctx l now q :
  cache_inv m cp ctx l →
  ∃ m' rc out ctx' l' visited unvisited,
    query_cache_get m (Some cp) now q = Some (m', rc, out) ∧
    cache_inv m' cp ctx' l' ∧
    l = visited ++ unvisited ∧
    (rc = 1 ∧ out = None ∧ unvisited = [] ∧
     Forall (passed (default_ttl ctx) now q (len q)) visited
     ∨ ∃ pre p d,
         rc = 0 ∧ out = Some (result d, result_len d) ∧
         visited = pre ++ [(p, d)] ∧
         Forall (passed (default_ttl ctx) now q (len q)) pre ∧
         expired (default_ttl ctx) now d = false ∧
         key_matches d q (len q) = true) ∧
    (∀ a e, (a, e) ∈ visited → expired (default_ttl ctx) now e = true →
            (a ∉ ptrs l') ∧ estore m' !! a = None) ∧
    (∀ x, x ∈ unvisited → x ∈ l').
Proof.
  intros Hinv.
  destruct (query_cache_get_inv m cp ctx l now q Hinv)
    as (m' & ctx' & Hget & Hinv' & Hsame & (_ & _ & Hdel)).
  pose proof Hinv as (_ & (_ & Hnd & _) & _).
  destruct (find_items_spec (default_ttl ctx) now q (len q) l [])
    as [(l1 & p & d & l2 & Hl & Hlive & Hkey & Hpassed & Hfind)|[Hpassed Hfind]];
    rewrite Hfind in *; clear Hfind; cbn [fst snd get_outcome app] in *.
  - (* hit *)
    eexists m', 0, _, ctx', _, (l1 ++ [(p, d)]), l2.
    split; [exact Hget|]. split; [exact Hinv'|].
    split; [by rewrite <- app_assoc|].
    split; [right; exists l1, p, d; by split_and!|].
    assert (∀ a e, (a, e) ∈ l1 ++ [(p, d)] → expired (default_ttl ctx) now e = true →
                   a ∉ ptrs ((p, touch now d) :: List.filter (live (default_ttl ctx) now) l1
                              ++ l2)) as Hgone.
    { intros a e Hin Hexp.
      rewrite Hl in Hnd. apply NoDup_ptrs_mid in Hnd as (Hnd1 & _ & Hp1 & _ & Hdisj & _).
      apply elem_of_app in Hin as [Hin|Hin].
      - rewrite ptrs_cons, ptrs_app, not_elem_of_cons, not_elem_of_app.
        split_and!.
        + intros ->. by apply Hp1, (ptrs_elem _ e).
        + by eapply expired_not_in_live.
        + by apply Hdisj, (ptrs_elem _ e).
      - apply elem_of_cons in Hin as [[= -> ->]|Hin]; [congruence|].
        by apply elem_of_nil in Hin. }
    split.
    + intros a e Hin Hexp. split; [by eapply Hgone|].
      apply Hdel; [|by eapply Hgone].
      rewrite Hl. rewrite (app_cons_snoc l1 (p, d) l2), ptrs_app.
      apply elem_of_app. left. by eapply ptrs_elem.
    + intros x Hx. apply elem_of_cons. right. apply elem_of_app. by right.
  - (* miss *)
    eexists m', 1, _, ctx', _, l, [].
    split; [exact Hget|]. split; [exact Hinv'|].
    split; [by rewrite app_nil_r|].
    split; [left; by split_and!|].
    split.
    + intros a e Hin Hexp.
      assert (a ∉ ptrs (List.filter (live (default_ttl ctx) now) l)) as Hgone
        by (by eapply expired_not_in_live).
      split; [done|]. apply Hdel; [by eapply ptrs_elem|done].
    + intros x Hx. by apply elem_of_nil in Hx.
Qed.

Lemma lazy_expiry_witness :
  cache_inv one_entry_mem sample_ctx one_entry_ctx one_entry_list ∧
  ∃ m' rc out ctx' l' visited unvisited,
    query_cache_get one_entry_mem (Some sample_ctx) 5000 val_r = Some (m', rc, out) ∧
    cache_inv m' sample_ctx ctx' l' ∧
    one_entry_list = visited ++ unvisited ∧
    (rc = 1 ∧ out = None ∧ unvisited = [] ∧
     Forall (passed (default_ttl one_entry_ctx) 5000 val_r (len val_r)) visited
     ∨ ∃ pre p d,
         rc = 0 ∧ out = Some (result d, result_len d) ∧
         visited = pre ++ [(p, d)] ∧
         Forall (passed (default_ttl one_entry_ctx) 5000 val_r (len val_r)) pre ∧
         expired (default_ttl one_entry_ctx) 5000 d = false ∧
         key_matches d val_r (len val_r) = true) ∧
    (∀ a e, (a, e) ∈ visited → expired (default_ttl one_entry_ctx) 5000 e = true →
            (a ∉ ptrs l') ∧ estore m' !! a = None) ∧
    (∀ x, x ∈ unvisited → x ∈ l').
Proof.
  split; [apply one_entry_mem_inv|].
  exact (lazy_expiry one_entry_mem sample_ctx one_entry_ctx one_entry_list 5000 val_r
           one_entry_mem_inv).
Defined.

(** ** Steps of a run *)

Lemma run_cons cp m o ops m1 out m2 outs :
  step cp m o = Some (m1, out) → run cp m1 ops = Some (m2, outs) →
  run cp m (o :: ops) = Some (m2, out :: outs).
Proof. intros Hs Hr. simpl. rewrite Hs. simpl. rewrite Hr. done. Qed.

Lemma step_put_inv cp m ctx l t q r p :
  cache_inv m cp ctx l → estore m !! p = None → valid_len q → valid_len r →
  ∃ m' ctx',
    step cp m (Put t q r (Some p) true true) = Some (m', Status 0) ∧
    cache_inv m' cp ctx'
      (add_items (max_entries ctx) (max_size ctx) p (new_entry t q r) l) ∧
    same_config ctx ctx' ∧
    (∀ a, a ≠ p → a ∉ ptrs l → estore m' !! a = estore m !! a).
Proof.
  intros Hinv Hfresh Hq Hr.
  destruct (query_cache_put_inv m cp ctx l t q r p Hinv Hfresh Hq Hr)
    as (m' & ctx' & Hput & Hinv' & Hsame & _ & _ & Hfr).
  exists m', ctx'. cbn [step]. rewrite Hput. by split_and!.
Qed.

Lemma step_get_inv cp m ctx l now q :
  cache_inv m cp ctx l →
  ∃ m' ctx',
    step cp m (Get now q) =
      Some (m', outcome_of (find_items (default_ttl ctx) now q (len q) [] l).2) ∧
    cache_inv m' cp ctx' (find_items (default_ttl ctx) now q (len q) [] l).1 ∧
    same_config ctx ctx' ∧
    (∀ a, a ∉ ptrs l → estore m' !! a = estore m !! a).
Proof.
  intros Hinv.
  destruct (query_cache_get_inv m cp ctx l now q Hinv)
    as (m' & ctx' & Hget & Hinv' & Hsame & (_ & Hfr & _)).
  exists m', ctx'. cbn [step]. rewrite Hget.
  split_and!; try done.
  by destruct (find_items (default_ttl ctx) now q (len q) [] l) as [? [[? ?]|]].
Qed.

(** ** The list functions on lists without expired entries *)

Lemma add_items_room me ms p d l :
  no_room_items me ms d l = false → add_items me ms p d l = (p, d) :: l.
Proof.
  intros Hroom. unfold add_items, evict_items.
  destruct (rev l) as [|x r'] eqn:Hrev.
  - apply (f_equal (@rev _)) in Hrev. rewrite rev_involutive in Hrev.
    simpl in Hrev. subst l. simpl. by rewrite Hroom.
  - cbn [evict_rev]. rewrite <- Hrev, rev_involutive, Hroom. done.
Qed.

Lemma add_items_evict_last me ms p d l x :
  no_room_items me ms d (l ++ [x]) = true →
  add_items me ms p d (l ++ [x]) = add_items me ms p d l.
Proof.
  intros Hfull. unfold add_items, evict_items. rewrite rev_app_distr.
  cbn [rev app evict_rev]. rewrite rev_involutive, Hfull. done.
Qed.

Lemma find_items_live_hit ttl now q qlen l1 p d l2 :
  Forall (λ x, expired ttl now x.2 = false) (l1 ++ [(p, d)]) →
  Forall (λ x, key_matches x.2 q qlen = false) l1 →
  key_matches d q qlen = true →
  ∀ kept,
    find_items ttl now q qlen kept (l1 ++ (p, d) :: l2) =
      ((p, touch now d) :: kept ++ l1 ++ l2, Some (p, touch now d)).
Proof.
  intros Hlive Hkeys Hkey.
  induction l1 as [|[a e] l1 IH]; intros kept; simpl.
  - apply Forall_cons in Hlive as [Hd _]. simpl in Hd. by rewrite Hd, Hkey.
  - simpl in Hlive. apply Forall_cons in Hlive as [He Hlive].
    apply Forall_cons in Hkeys as [Hk Hkeys]. simpl in He, Hk.
    rewrite He, Hk. rewrite IH by done. by rewrite <- !app_assoc.
Qed.

Lemma find_items_live_miss ttl now q qlen l :
  Forall (λ x, expired ttl now x.2 = false) l →
  Forall (λ x, key_matches x.2 q qlen = false) l →
  ∀ kept, find_items ttl now q qlen kept l = (kept ++ l, None).
Proof.
  intros Hlive Hkeys.
  induction l as [|[a e] l IH]; intros kept; simpl.
  - by rewrite app_nil_r.
  - apply Forall_cons in Hlive as [He Hlive].
    apply Forall_cons in Hkeys as [Hk Hkeys]. simpl in He, Hk.
    rewrite He, Hk. rewrite IH by done. by rewrite <- !app_assoc.
Qed.

Lemma expired_in_window ttl t0 now d :
  0 ≤ ttl < 2 ^ 62 → t0 ≤ now ≤ t0 + ttl → t0 ≤ created_time d ≤ t0 + ttl →
  expired ttl now d = false.
Proof.
  intros Httl Hnow Hd. unfold expired. rewrite to_time_t_small by lia.
  apply Z.ltb_ge. lia.
Qed.

Lemma entry_bytes_new t q r :
  valid_len q → valid_len r → entry_size q r ≤ INT_MAX →
  entry_bytes (new_entry t q r) = entry_size q r.
Proof.
  intros Hq Hr Hsz. unfold entry_size, sizeof_CacheEntry in *.
  rewrite entry_bytes_exact; simpl; unfold len, sizeof_CacheEntry in *; lia.
Qed.

Lemma run_app cp m ops1 ops2 m1 outs1 m2 outs2 :
  run cp m ops1 = Some (m1, outs1) → run cp m1 ops2 = Some (m2, outs2) →
  run cp m (ops1 ++ ops2) = Some (m2, outs1 ++ outs2).
Proof.
  revert m outs1. induction ops1 as [|o ops1 IH]; intros m outs1; simpl.
  - by intros [= -> <-].
  - destruct (step cp m o) as [[m' out]|]; [|done]. simpl.
    destruct (run cp m' ops1) as [[m'' outs]|] eqn:Hrun; [|done]. simpl.
    intros [= -> <-] H2. by rewrite (IH _ _ Hrun H2).
Qed.

(** A hit leaves the returned entry at the head, in front of the live
    entries that preceded it and of the entries behind it. *)
Lemma query_cache_get_promotes m cp ctx l now q :
  cache_inv m cp ctx l →
  ∃ m' ctx' rc out l',
    query_cache_get m (Some cp) now q = Some (m', rc, out) ∧
    cache_inv m' cp ctx' l' ∧
    (rc = 1 ∧ out = None
     ∨ ∃ l1 a d l2,
         rc = 0 ∧ out = Some (result d, result_len d) ∧
         l = l1 ++ (a, d) :: l2 ∧
         l' = (a, touch now d) :: List.filter (live (default_ttl ctx) now) l1 ++ l2 ∧
         head ctx' = Some a).
Proof.
  intros Hinv.
  destruct (query_cache_get_inv m cp ctx l now q Hinv)
    as (m' & ctx' & Hget & Hinv' & _).
  destruct (find_items_spec (default_ttl ctx) now q (len q) l [])
    as [(l1 & a & d & l2 & Hl & _ & _ & _ & Hfind)|[_ Hfind]];
    rewrite Hfind in *; clear Hfind; cbn [fst snd get_outcome app] in *.
  - eexists m', ctx', 0, _, _. split; [exact Hget|]. split; [exact Hinv'|].
    right. exists l1, a, d, l2. split_and!; try done.
    destruct Hinv' as (_ & Hdll & _). by rewrite (dll_head _ _ _ Hdll).
  - eexists m', ctx', 1, _, _. split; [exact Hget|]. split; [exact Hinv'|]. by left.
Qed.

(** ** Two slots, three keys *)

Section TwoSlots.

Variables (m : Mem) (cp : ptr) (ctx : QueryCacheContext).
Variables (A B C rA rB rC : list byte) (pA pB pC : ptr).
Variables (t0 tA tB tC g0 g1 g2 g3 : Z).

Hypothesis Hinv : cache_inv m cp ctx [].
Hypothesis Hslots : max_entries ctx = 2.
Hypothesis HAB : A ≠ B.
Hypothesis HAC : A ≠ C.
Hypothesis HBC : B ≠ C.
Hypothesis Hlens : Forall valid_len [A; B; C; rA; rB; rC].
Hypothesis Hsize :
  entry_size A rA + entry_size B rB + entry_size C rC ≤ max_size ctx.
Hypothesis Hptrs : NoDup [pA; pB; pC].
Hypothesis Hfresh : Forall (λ p, estore m !! p = None) [pA; pB; pC].
Hypothesis Httl : 0 ≤ default_ttl ctx < 2 ^ 62.
Hypothesis Hwindow : in_window (default_ttl ctx) t0 [tA; tB; tC; g0; g1; g2; g3].

Local Abbreviation dA := (new_entry tA A rA).
Local Abbreviation dB := (new_entry tB B rB).
Local Abbreviation dC := (new_entry tC C rC).

Lemma two_slots_lens :
  valid_len A ∧ valid_len B ∧ valid_len C ∧
  valid_len rA ∧ valid_len rB ∧ valid_len rC.
Proof.
  pose proof Hlens as H.
  repeat (apply Forall_cons in H as [? H]). split_and!; assumption.
Qed.

Lemma two_slots_times :
  (t0 ≤ tA ≤ t0 + default_ttl ctx) ∧ (t0 ≤ tB ≤ t0 + default_ttl ctx) ∧
  (t0 ≤ tC ≤ t0 + default_ttl ctx) ∧ (t0 ≤ g0 ≤ t0 + default_ttl ctx) ∧
  (t0 ≤ g1 ≤ t0 + default_ttl ctx) ∧ (t0 ≤ g2 ≤ t0 + default_ttl ctx) ∧
  (t0 ≤ g3 ≤ t0 + default_ttl ctx).
Proof.
  pose proof Hwindow as H. unfold in_window in H.
  repeat (apply Forall_cons in H as [? H]). tauto.
Qed.

Lemma two_slots_addresses :
  pA ≠ pB ∧ pA ≠ pC ∧ pB ≠ pC ∧
  estore m !! pA = None ∧ estore m !! pB = None ∧ estore m !! pC = None.
Proof.
  pose proof Hptrs as Hnd. pose proof Hfresh as H.
  apply NoDup_cons in Hnd as [HA Hnd]. apply NoDup_cons in Hnd as [HB _].
  repeat rewrite not_elem_of_cons in HA. repeat rewrite not_elem_of_cons in HB.
  repeat (apply Forall_cons in H as [? H]). cbv beta in *. tauto.
Qed.

Lemma two_slots_sizes :
  0 ≤ max_size ctx ≤ INT_MAX ∧
  entry_bytes dA = entry_size A rA ∧ entry_bytes dB = entry_size B rB ∧
  entry_bytes dC = entry_size C rC ∧
  0 ≤ entry_size A rA ∧ 0 ≤ entry_size B rB ∧ 0 ≤ entry_size C rC.
Proof.
  destruct two_slots_lens as (? & ? & ? & ? & ? & ?).
  destruct Hinv as (_ & _ & (_ & ?) & _).
  assert (∀ q r, 0 ≤ entry_size q r) as Hpos.
  { intros q r. unfold entry_size, sizeof_CacheEntry.
    pose proof (len_nonneg q). pose proof (len_nonneg r). lia. }
  pose proof (Hpos A rA). pose proof (Hpos B rB). pose proof (Hpos C rC).
  split; [done|].
  split; [apply entry_bytes_new; try done; lia|].
  split; [apply entry_bytes_new; try done; lia|].
  split; [apply entry_bytes_new; try done; lia|]. by split_and!.
Qed.

(** The loop condition on the lists of the scenario, for any context
    with the configuration of [ctx]. *)
Lemma two_slots_room c l t q r :
  same_config ctx c → within_limits c l → valid_len q → valid_len r →
  len_items l < 2 → sum_bytes l + entry_size q r ≤ max_size ctx →
  no_room_items (max_entries c) (max_size c) (new_entry t q r) l = false.
Proof.
  intros Hsame Hlim Hq Hr Hlen Hsum.
  apply room_items_iff_fits; try done.
  - eapply config_ok_same; [done|]. by destruct Hinv as (_ & _ & ? & _).
  - destruct Hsame as (Hme & Hms & _). unfold fits, entry_size in *.
    rewrite Hme, Hms, Hslots. split; lia.
Qed.

Lemma two_slots_full c l t q r :
  same_config ctx c → within_limits c l → valid_len q → valid_len r →
  2 ≤ len_items l →
  no_room_items (max_entries c) (max_size c) (new_entry t q r) l = true.
Proof.
  intros Hsame Hlim Hq Hr Hlen.
  apply no_room_items_iff_not_fits; try done.
  - eapply config_ok_same; [done|]. by destruct Hinv as (_ & _ & ? & _).
  - destruct Hsame as (Hme & _). unfold fits. rewrite Hme, Hslots. lia.
Qed.

Lemma cache_inv_limits m' c l : cache_inv m' cp c l → within_limits c l.
Proof. by intros (_ & _ & _ & ? & _). Qed.

Lemma len_items_1 (x : ptr * CacheEntry) : len_items [x] = 1.
Proof. done. Qed.

Lemma len_items_2 (x y : ptr * CacheEntry) : len_items [x; y] = 2.
Proof. done. Qed.

Lemma holds_new t q r :
  valid_len q → valid_len r → holds (new_entry t q r) t q r.
Proof. intros Hq Hr. split; [by apply entry_ok_new|done]. Qed.

Lemma holds_touch d t q r g : holds d t q r → holds (touch g d) t q r.
Proof.
  intros (Hok & Ht & Hq & Hr & Hb). split; [by apply entry_ok_touch|done].
Qed.

Lemma holds_live d t q r g c :
  holds d t q r → same_config ctx c →
  t0 ≤ g ≤ t0 + default_ttl ctx → t0 ≤ t ≤ t0 + default_ttl ctx →
  expired (default_ttl c) g d = false.
Proof.
  intros (_ & Ht & _) (_ & _ & Hc) Hg Hw. rewrite Hc.
  eapply expired_in_window; [exact Httl|exact Hg|by rewrite Ht].
Qed.

Lemma holds_key d t q r : holds d t q r → key_matches d q (len q) = true.
Proof. intros (Hok & _ & Hq & _). by apply key_matches_iff. Qed.

Lemma holds_other_key d t q r q' :
  holds d t q r → q ≠ q' → key_matches d q' (len q') = false.
Proof.
  intros (Hok & _ & Hq & _) Hne. apply not_true_is_false. intros Hm.
  apply key_matches_iff in Hm; [congruence|done].
Qed.

Lemma holds_outcome d t q r p :
  holds d t q r → outcome_of (Some (p, d)) = Hit r (len r).
Proof. intros ((_ & Hrl & _) & _ & _ & Hr & _). simpl. by rewrite Hrl, Hr. Qed.

(** A hit on the second entry of a list of two moves it to the head. *)
Lemma two_slots_get_second m' c p1 d1 p2 d2 t1 q1 r1 t2 q2 r2 g :
  cache_inv m' cp c [(p1, d1); (p2, d2)] → same_config ctx c →
  holds d1 t1 q1 r1 → holds d2 t2 q2 r2 → q1 ≠ q2 →
  t0 ≤ g ≤ t0 + default_ttl ctx →
  t0 ≤ t1 ≤ t0 + default_ttl ctx → t0 ≤ t2 ≤ t0 + default_ttl ctx →
  ∃ m'' c',
    step cp m' (Get g q2) = Some (m'', Hit r2 (len r2)) ∧
    cache_inv m'' cp c' [(p2, touch g d2); (p1, d1)] ∧ same_config ctx c' ∧
    (∀ a, a ∉ ptrs [(p1, d1); (p2, d2)] → estore m'' !! a = estore m' !! a).
Proof.
  intros Hinv' Hsame Hd1 Hd2 Hne Hg Ht1 Ht2.
  destruct (step_get_inv cp m' c _ g q2 Hinv') as (m'' & c' & Hs & Hinv'' & Hsame' & Hfr).
  assert (find_items (default_ttl c) g q2 (len q2) [] ([(p1, d1)] ++ (p2, d2) :: []) =
            ((p2, touch g d2) :: [] ++ [(p1, d1)] ++ [], Some (p2, touch g d2)))
    as Hfind.
  { apply find_items_live_hit.
    - repeat (apply Forall_cons; split); try apply Forall_nil_2; simpl;
        by eapply holds_live.
    - repeat (apply Forall_cons; split); try apply Forall_nil_2; simpl.
      by eapply holds_other_key.
    - by eapply holds_key. }
  cbn [app] in Hfind. rewrite Hfind in Hs, Hinv''. cbn [fst snd] in *.
  rewrite (holds_outcome _ t2 q2 r2) in Hs by (by apply holds_touch).
  exists m'', c'. split_and!; try done. by eapply same_config_trans.
Qed.

(** A get for a key that neither entry of a list of two has. *)
Lemma two_slots_get_neither m' c p1 d1 p2 d2 t1 q1 r1 t2 q2 r2 g q :
  cache_inv m' cp c [(p1, d1); (p2, d2)] → same_config ctx c →
  holds d1 t1 q1 r1 → holds d2 t2 q2 r2 → q1 ≠ q → q2 ≠ q →
  t0 ≤ g ≤ t0 + default_ttl ctx →
  t0 ≤ t1 ≤ t0 + default_ttl ctx → t0 ≤ t2 ≤ t0 + default_ttl ctx →
  ∃ m'' c',
    step cp m' (Get g q) = Some (m'', Miss) ∧
    cache_inv m'' cp c' [(p1, d1); (p2, d2)] ∧ same_config ctx c' ∧
    (∀ a, a ∉ ptrs [(p1, d1); (p2, d2)] → estore m'' !! a = estore m' !! a).
Proof.
  intros Hinv' Hsame Hd1 Hd2 Hne1 Hne2 Hg Ht1 Ht2.
  destruct (step_get_inv cp m' c _ g q Hinv') as (m'' & c' & Hs & Hinv'' & Hsame' & Hfr).
  rewrite find_items_live_miss in Hs, Hinv''.
  - exists m'', c'. split_and!; try done. by eapply same_config_trans.
  - repeat (apply Forall_cons; split); try apply Forall_nil_2; simpl;
      by eapply holds_live.
  - repeat (apply Forall_cons; split); try apply Forall_nil_2; simpl;
      by eapply holds_other_key.
  - repeat (apply Forall_cons; split); try apply Forall_nil_2; simpl;
      by eapply holds_live.
  - repeat (apply Forall_cons; split); try apply Forall_nil_2; simpl;
      by eapply holds_other_key.
Qed.

(** A put into a full list of two evicts the second entry, the tail. *)
Lemma two_slots_put_third m' c p1 d1 p2 d2 t q r p :
  cache_inv m' cp c [(p1, d1); (p2, d2)] → same_config ctx c →
  estore m' !! p = None → valid_len q → valid_len r →
  entry_bytes d1 + entry_size q r ≤ max_size ctx →
  ∃ m'' c',
    step cp m' (Put t q r (Some p) true true) = Some (m'', Status 0) ∧
    cache_inv m'' cp c' [(p, new_entry t q r); (p1, d1)] ∧ same_config ctx c'.
Proof.
  intros Hinv' Hsame Hf Hq Hr Hsz.
  destruct (step_put_inv cp m' c _ t q r p Hinv' Hf Hq Hr)
    as (m'' & c' & Hs & Hinv'' & Hsame' & _).
  pose proof (cache_inv_limits _ _ _ Hinv') as Hlim.
  assert (within_limits c [(p1, d1)]) as Hlim1.
  { destruct Hlim as (Hl & Hb). rewrite len_items_2 in Hl.
    rewrite !sum_bytes_cons in Hb. pose proof (entry_bytes_nonneg d2).
    split; [rewrite len_items_1; lia|rewrite sum_bytes_cons; lia]. }
  change [(p1, d1); (p2, d2)] with ([(p1, d1)] ++ [(p2, d2)]) in Hinv''.
  rewrite add_items_evict_last in Hinv''.
  2:{ apply (two_slots_full c _ t q r Hsame Hlim Hq Hr). rewrite len_items_2. lia. }
  rewrite add_items_room in Hinv''.
  2:{ apply (two_slots_room c _ t q r Hsame Hlim1 Hq Hr).
      - rewrite len_items_1. lia.
      - rewrite sum_bytes_cons. change (sum_bytes []) with 0. lia. }
  exists m'', c'. split_and!; try done. by eapply same_config_trans.
Qed.

(** The first two puts. *)
Lemma two_slots_two_puts :
  ∃ m2 ctx2,
    run cp m [Put tA A rA (Some pA) true true; Put tB B rB (Some pB) true true]
      = Some (m2, [Status 0; Status 0]) ∧
    cache_inv m2 cp ctx2 [(pB, dB); (pA, dA)] ∧ same_config ctx ctx2 ∧
    estore m2 !! pC = None.
Proof.
  destruct two_slots_lens as (HlA & HlB & HlC & HlrA & HlrB & HlrC).
  destruct two_slots_addresses as (HpAB & HpAC & HpBC & HfA & HfB & HfC).
  destruct two_slots_sizes as (Hms & HbA & HbB & HbC & HsA & HsB & HsC).
  destruct (step_put_inv cp m ctx [] tA A rA pA Hinv HfA HlA HlrA)
    as (m1 & ctx1 & Hs1 & Hinv1 & Hsame1 & Hfr1).
  rewrite add_items_room in Hinv1.
  2:{ apply (two_slots_room ctx [] tA A rA (same_config_refl ctx)
               (cache_inv_limits _ _ _ Hinv) HlA HlrA).
      - by vm_compute.
      - change (sum_bytes []) with 0. lia. }
  
  assert (estore m1 !! pB = None) as HfB1.
  { rewrite Hfr1; [done|by apply not_eq_sym|apply not_elem_of_nil]. }
  destruct (step_put_inv cp m1 ctx1 _ tB B rB pB Hinv1 HfB1 HlB HlrB)
    as (m2 & ctx2 & Hs2 & Hinv2 & Hsame2 & Hfr2).
  rewrite add_items_room in Hinv2.
  2:{ apply (two_slots_room ctx1 _ tB B rB Hsame1 (cache_inv_limits _ _ _ Hinv1) HlB HlrB).
      - rewrite len_items_1. lia.
      - rewrite sum_bytes_cons. change (sum_bytes []) with 0. lia. }
  
  exists m2, ctx2. split_and!.
  - eapply run_cons; [done|]. eapply run_cons; [done|]. done.
  - done.
  - by eapply same_config_trans.
  - rewrite Hfr2, Hfr1; try done; try (by apply not_eq_sym).
    + apply not_elem_of_nil.
    + rewrite ptrs_cons, not_elem_of_cons. split; [by apply not_eq_sym|].
      apply not_elem_of_nil.
Qed.
(** Insert A, B, C: A is evicted. *)
Lemma oldest_is_evicted :
  ∃ m',
    run cp m
      [Put tA A rA (Some pA) true true; Put tB B rB (Some pB) true true;
       Put tC C rC (Some pC) true true; Get g1 A; Get g2 B; Get g3 C]
    = Some (m', [Status 0; Status 0; Status 0; Miss; Hit rB (len rB); Hit rC (len rC)]).
Proof.
  destruct two_slots_lens as (HlA & HlB & HlC & HlrA & HlrB & HlrC).
  destruct two_slots_times as (HtA & HtB & HtC & Hg0 & Hg1 & Hg2 & Hg3).
  destruct two_slots_sizes as (Hms & HbA & HbB & HbC & HsA & HsB & HsC).
  destruct two_slots_two_puts as (m2 & ctx2 & Hrun2 & Hinv2 & Hsame2 & HfC).
  pose proof (holds_new tA A rA HlA HlrA) as HhA.
  pose proof (holds_new tB B rB HlB HlrB) as HhB.
  pose proof (holds_new tC C rC HlC HlrC) as HhC.
  destruct (two_slots_put_third m2 ctx2 pB dB pA dA tC C rC pC Hinv2 Hsame2 HfC HlC HlrC)
    as (m3 & ctx3 & Hs3 & Hinv3 & Hsame3); [lia|].
  destruct (two_slots_get_neither m3 ctx3 pC dC pB dB tC C rC tB B rB g1 A Hinv3 Hsame3 HhC HhB)
    as (m4 & ctx4 & Hs4 & Hinv4 & Hsame4 & _); try done; try (by apply not_eq_sym).
  destruct (two_slots_get_second m4 ctx4 pC dC pB dB tC C rC tB B rB g2 Hinv4 Hsame4 HhC HhB)
    as (m5 & ctx5 & Hs5 & Hinv5 & Hsame5 & _); try done; try (by apply not_eq_sym).
  destruct (two_slots_get_second m5 ctx5 pB (touch g2 dB) pC dC tB B rB tC C rC g3 Hinv5 Hsame5
              (holds_touch _ _ _ _ g2 HhB) HhC)
    as (m6 & ctx6 & Hs6 & Hinv6 & Hsame6 & _); try done.
  exists m6.
  apply (run_app cp m [_; _] [_; _; _; _] m2 [_; _] m6 [_; _; _; _] Hrun2).
  eapply run_cons; [exact Hs3|]. eapply run_cons; [exact Hs4|].
  eapply run_cons; [exact Hs5|]. eapply run_cons; [exact Hs6|]. done.
Qed.

(** Insert A, B, get A, insert C: B is evicted. *)
Lemma promoted_is_kept :
  ∃ m',
    run cp m
      [Put tA A rA (Some pA) true true; Put tB B rB (Some pB) true true;
       Get g0 A; Put tC C rC (Some pC) true true; Get g1 A; Get g2 B; Get g3 C]
    = Some (m', [Status 0; Status 0; Hit rA (len rA); Status 0;
                 Hit rA (len rA); Miss; Hit rC (len rC)]).
Proof.
  destruct two_slots_lens as (HlA & HlB & HlC & HlrA & HlrB & HlrC).
  destruct two_slots_times as (HtA & HtB & HtC & Hg0 & Hg1 & Hg2 & Hg3).
  destruct two_slots_sizes as (Hms & HbA & HbB & HbC & HsA & HsB & HsC).
  destruct two_slots_addresses as (HpAB & HpAC & HpBC & _).
  destruct two_slots_two_puts as (m2 & ctx2 & Hrun2 & Hinv2 & Hsame2 & HfC).
  pose proof (holds_new tA A rA HlA HlrA) as HhA.
  pose proof (holds_new tB B rB HlB HlrB) as HhB.
  pose proof (holds_new tC C rC HlC HlrC) as HhC.
  destruct (two_slots_get_second m2 ctx2 pB dB pA dA tB B rB tA A rA g0 Hinv2 Hsame2 HhB HhA)
    as (m3 & ctx3 & Hs3 & Hinv3 & Hsame3 & Hfr3); try done; try (by apply not_eq_sym).
  assert (estore m3 !! pC = None) as HfC3.
  { rewrite Hfr3; [done|]. rewrite !ptrs_cons, !not_elem_of_cons.
    split_and!; try (by apply not_eq_sym). apply not_elem_of_nil. }
  destruct (two_slots_put_third m3 ctx3 pA (touch g0 dA) pB dB tC C rC pC Hinv3 Hsame3 HfC3 HlC HlrC)
    as (m4 & ctx4 & Hs4 & Hinv4 & Hsame4).
  { change (entry_bytes (touch g0 dA)) with (entry_bytes dA). lia. }
  pose proof (holds_touch _ _ _ _ g0 HhA) as HhA'.
  destruct (two_slots_get_second m4 ctx4 pC dC pA (touch g0 dA) tC C rC tA A rA g1 Hinv4 Hsame4
              HhC HhA')
    as (m5 & ctx5 & Hs5 & Hinv5 & Hsame5 & _); try done; try (by apply not_eq_sym).
  pose proof (holds_touch _ _ _ _ g1 HhA') as HhA''.
  destruct (two_slots_get_neither m5 ctx5 pA (touch g1 (touch g0 dA)) pC dC tA A rA tC C rC g2 B
              Hinv5 Hsame5 HhA'' HhC)
    as (m6 & ctx6 & Hs6 & Hinv6 & Hsame6 & _); try done; try (by apply not_eq_sym).
  destruct (two_slots_get_second m6 ctx6 pA (touch g1 (touch g0 dA)) pC dC tA A rA tC C rC g3
              Hinv6 Hsame6 HhA'' HhC)
    as (m7 & ctx7 & Hs7 & Hinv7 & Hsame7 & _); try done.
  exists m7.
  apply (run_app cp m [_; _] [_; _; _; _; _] m2 [_; _] m7 [_; _; _; _; _] Hrun2).
  eapply run_cons; [exact Hs3|]. eapply run_cons; [exact Hs4|].
  eapply run_cons; [exact Hs5|]. eapply run_cons; [exact Hs6|].
  eapply run_cons; [exact Hs7|]. done.
Qed.

(** C4: a put keeps a prefix of the list (head side) behind the new head,
    so what it evicts is taken from the tail; a hit leaves the returned
    entry at the head.  Hence in a cache of two slots (all clock readings
    within one TTL window, the three entries within [max_size]): after
    puts of A, B and C, A misses while B and C hit; with a get of A
    between the puts of B and C, it is B that misses while A and C
    hit. *)
Theorem lru_eviction_and_promotion mg ctxg lg now q r p :
  cache_inv mg cp ctxg lg → valid_len q → valid_len r → estore mg !! p = None →
  (∃ m' ctx' k,
     (k ≤ length lg)%nat ∧
     query_cache_put mg (Some cp) now q r (Some p) true true = Some (m', 0) ∧
     (cache_inv m' cp ctx' ((p, new_entry now q r) :: take k lg)
      ∨ k = 0%nat ∧ cache_inv m' cp ctx' [])) ∧
  (∃ m' ctx' rc out l',
     query_cache_get mg (Some cp) now q = Some (m', rc, out) ∧
     cache_inv m' cp ctx' l' ∧
     (rc = 1 ∧ out = None
      ∨ ∃ l1 a d l2,
          rc = 0 ∧ out = Some (result d, result_len d) ∧
          lg = l1 ++ (a, d) :: l2 ∧
          l' = (a, touch now d) :: List.filter (live (default_ttl ctxg) now) l1 ++ l2 ∧
          head ctx' = Some a)) ∧
  (∃ m',
     run cp m
       [Put tA A rA (Some pA) true true; Put tB B rB (Some pB) true true;
        Put tC C rC (Some pC) true true; Get g1 A; Get g2 B; Get g3 C]
     = Some (m', [Status 0; Status 0; Status 0;
                  Miss; Hit rB (len rB); Hit rC (len rC)])) ∧
  (∃ m',
     run cp m
       [Put tA A rA (Some pA) true true; Put tB B rB (Some pB) true true;
        Get g0 A; Put tC C rC (Some pC) true true; Get g1 A; Get g2 B; Get g3 C]
     = Some (m', [Status 0; Status 0; Hit rA (len rA); Status 0;
                  Hit rA (len rA); Miss; Hit rC (len rC)])).
Proof.
  intros Hinvg Hq Hr Hp. split_and!.
  - destruct (query_cache_put_evicts mg cp ctxg lg now q r p Hinvg Hq Hr Hp)
      as (m' & ctx' & k & Hk & Hput & _ & _ & Hcase).
    exists m', ctx', k. split; [done|]. split; [done|].
    destruct Hcase as [(_ & ?)|(? & _ & ?)]; [by left|by right].
  - apply query_cache_get_promotes, Hinvg.
  - apply oldest_is_evicted.
  - apply promoted_is_kept.
Qed.

End TwoSlots.

(** ** Invalidation *)

Lemma elem_of_invalidate_items table (l : list (ptr * CacheEntry)) x :
  x ∈ invalidate_items table l ↔ x ∈ l ∧ mentions table x.2 = false.
Proof.
  unfold invalidate_items. rewrite !list_elem_of_In, filter_In, negb_true_iff. done.
Qed.

Lemma invalidate_items_sublist table (l : list (ptr * CacheEntry)) :
  sublist (invalidate_items table l) l.
Proof.
  induction l as [|[a d] l IH]; [done|]. rewrite invalidate_items_cons.
  destruct (mentions table d); [by apply sublist_cons|by apply sublist_skip].
Qed.

Lemma mentions_false_iff t d :
  nul_free t → mentions t d = false ↔ ¬ is_substring t (c_str (query d)).
Proof.
  intros Ht. rewrite <- (c_str_nul_free t Ht) at 2. rewrite <- mentions_iff.
  by destruct (mentions t d).
Qed.

Lemma cache_inv_lookup m cp ctx l a d :
  cache_inv m cp ctx l → (a, d) ∈ l →
  ∃ e, estore m !! a = Some e ∧ unlinked e = d.
Proof.
  intros (_ & Hdll & _) Hin. apply list_elem_of_split in Hin as (l1 & l2 & ->).
  destruct (dll_mid _ _ _ _ _ _ Hdll) as (e & He & Hd & _). by exists e.
Qed.

(** What the loop of [query_cache_invalidate] removes, as the code stands:
    for a table name [t] without NUL bytes, the entries whose key contains
    [t] before the key's first NUL byte, and no others.  For keys without
    NUL bytes that is the whole key. *)
Lemma invalidate_removes_c_string_matches m cp ctx l t :
  cache_inv m cp ctx l → nul_free t →
  ∃ m' ctx' l',
    query_cache_invalidate m (Some cp) t = Some (m', 0) ∧
    cache_inv m' cp ctx' l' ∧
    (∀ a d, (a, d) ∈ l' ↔ (a, d) ∈ l ∧ ¬ is_substring t (c_str (query d))) ∧
    (∀ a d, (a, d) ∈ l → nul_free (query d) →
            ((a, d) ∈ l' ↔ ¬ is_substring t (query d))) ∧
    (∀ a d, (a, d) ∈ l → is_substring t (c_str (query d)) →
            estore m' !! a = None).
Proof.
  intros Hinv Ht.
  destruct (query_cache_invalidate_inv m cp ctx l t Hinv)
    as (m' & ctx' & Hrun & Hinv' & _ & (_ & _ & Hdel)).
  pose proof Hinv as (_ & (_ & Hnd & _) & _).
  exists m', ctx', (invalidate_items t l). split; [done|]. split; [done|].
  assert (∀ a d, (a, d) ∈ invalidate_items t l ↔
                 (a, d) ∈ l ∧ ¬ is_substring t (c_str (query d))) as Hmem.
  { intros a d. rewrite elem_of_invalidate_items. simpl.
    by rewrite mentions_false_iff. }
  split_and!.
  - exact Hmem.
  - intros a d Hin Hkey. rewrite Hmem, (c_str_nul_free _ Hkey). tauto.
  - intros a d Hin Hsub. apply Hdel; [by eapply ptrs_elem|].
    intros Ha. unfold ptrs in Ha. apply list_elem_of_fmap in Ha as ([a' d'] & Heq & Hin').
    simpl in Heq. subst a'. apply Hmem in Hin' as [Hin' Hno].
    by rewrite (NoDup_ptrs_unique l a d d' Hnd Hin Hin') in Hsub.
Qed.

Lemma nul_free_by_c_str s : c_str s = s → nul_free s.
Proof. intros <-. apply c_str_is_nul_free. Qed.

Lemma table_orders_nul_free : nul_free table_orders.
Proof. apply nul_free_by_c_str. reflexivity. Qed.

(** C7: a defect of [query_cache_invalidate].  The claim has every entry
    removed whose stored key contains the table name as a byte-wise
    substring.  Keys are stored and looked up by their length ([memcpy],
    [memcmp]), NUL bytes included, and the comment in the loop says that
    it checks whether the table name appears in the query; but the loop
    scans the key with [strstr], which reads it only up to its first NUL
    byte.  The 18-byte key "SELECT\0FROM orders" contains "orders": an
    entry put under it survives the invalidation of "orders", and the get
    that follows still returns its value, where the claim has a miss.  On
    the two keys of the claim's example, which hold no NUL byte, the code
    does what the claim says: the first is removed and misses, the second
    still hits. *)
Theorem invalidate_stops_at_nul :
  is_substring table_orders key_nul_orders ∧
  (∃ m',
     run sample_ctx fresh_mem
       [Put 10 key_nul_orders val_r (Some 2%positive) true true;
        Invalidate table_orders;
        Get 11 key_nul_orders]
     = Some (m', [Status 0; Status 0; Hit val_r 1])) ∧
  (∃ m',
     run sample_ctx fresh_mem
       [Put 10 key_orders val_r (Some 2%positive) true true;
        Put 11 key_users val_r (Some 3%positive) true true;
        Invalidate table_orders;
        Get 12 key_users; Get 13 key_orders]
     = Some (m', [Status 0; Status 0; Status 0; Hit val_r 1; Miss])).
Proof.
  split_and!.
  - exists (list_byte_of_string "SELECT" ++ [NUL] ++ list_byte_of_string "FROM "), [].
    reflexivity.
  - eexists. vm_compute. reflexivity.
  - eexists. vm_compute. reflexivity.
Qed.

(** C10: invalidate returns 0 and consults no clock; the entries whose key
    does not contain the table name stay in the list in their order, each
    node with its contents (timestamps and access count included) as
    before -- also those whose age exceeds [default_ttl] at any clock
    reading [now]. *)
Theorem invalidate_keeps_the_rest m cp ctx l t now :
  cache_inv m cp ctx l → nul_free t →
  ∃ m' ctx' l',
    query_cache_invalidate m (Some cp) t = Some (m', 0) ∧
    cache_inv m' cp ctx' l' ∧
    sublist l' l ∧
    (∀ a d, (a, d) ∈ l → ¬ is_substring t (query d) →
            (a, d) ∈ l' ∧ ∃ e, estore m' !! a = Some e ∧ unlinked e = d) ∧
    (∀ a d, (a, d) ∈ l → expired (default_ttl ctx) now d = true →
            ¬ is_substring t (query d) → (a, d) ∈ l').
Proof.
  intros Hinv Ht.
  destruct (query_cache_invalidate_inv m cp ctx l t Hinv)
    as (m' & ctx' & Hrun & Hinv' & _).
  exists m', ctx', (invalidate_items t l). split; [done|]. split; [done|].
  split; [apply invalidate_items_sublist|].
  assert (∀ a d, (a, d) ∈ l → ¬ is_substring t (query d) →
                 (a, d) ∈ invalidate_items t l) as Hkeep.
  { intros a d Hin Hno. apply elem_of_invalidate_items. split; [done|]. simpl.
    apply mentions_false_iff; [done|]. intros Hsub. by apply Hno, is_substring_c_str. }
  split.
  - intros a d Hin Hno. split; [by apply Hkeep|].
    eapply cache_inv_lookup; [exact Hinv'|by apply Hkeep].
  - intros a d Hin _ Hno. by apply Hkeep.
Qed.

(** ** Duplicate keys *)

(** C8: two puts of the same key that trigger no eviction leave two nodes,
    at distinct addresses, the later one in front; a get of the key within
    the TTL of the later put returns the later value [r2], found first
    from the head, and leaves the earlier entry in place behind it. *)
Theorem duplicate_keys_coexist m cp ctx l t1 t2 now q r1 r2 p1 p2 :
  cache_inv m cp ctx l →
  valid_len q → valid_len r1 → valid_len r2 →
  estore m !! p1 = None → estore m !! p2 = None → p1 ≠ p2 →
  len_items l + 2 ≤ max_entries ctx →
  sum_bytes l + entry_size q r1 + entry_size q r2 ≤ max_size ctx →
  - 2 ^ 63 ≤ now - t2 < 2 ^ 63 → now ≤ t2 + default_ttl ctx →
  ∃ m1 m2 m3 ctx2 ctx3,
    query_cache_put m (Some cp) t1 q r1 (Some p1) true true = Some (m1, 0) ∧
    query_cache_put m1 (Some cp) t2 q r2 (Some p2) true true = Some (m2, 0) ∧
    cache_inv m2 cp ctx2 ((p2, new_entry t2 q r2) :: (p1, new_entry t1 q r1) :: l) ∧
    query_cache_get m2 (Some cp) now q = Some (m3, 0, Some (r2, len r2)) ∧
    cache_inv m3 cp ctx3
      ((p2, touch now (new_entry t2 q r2)) :: (p1, new_entry t1 q r1) :: l).
Proof.
  intros Hinv Hq Hr1 Hr2 Hf1 Hf2 Hne Hcount Hbytes Hrange Hlive.
  pose proof Hinv as (_ & _ & Hcfg & Hlim & _).
  pose proof Hcfg as (_ & (_ & Hms)).
  pose proof (sum_bytes_nonneg l) as Hsum0.
  pose proof (len_nonneg q). pose proof (len_nonneg r1). pose proof (len_nonneg r2).
  unfold entry_size, sizeof_CacheEntry in Hbytes.
  (* first put *)
  destruct (query_cache_put_inv m cp ctx l t1 q r1 p1 Hinv Hf1 Hq Hr1)
    as (m1 & ctx1 & Hput1 & Hinv1 & Hsame1 & _ & _ & Hfr1).
  rewrite add_items_room in Hinv1.
  2:{ apply room_items_iff_fits; try done. unfold fits, sizeof_CacheEntry. lia. }
  (* second put *)
  assert (estore m1 !! p2 = None) as Hf2'.
  { rewrite Hfr1; [done|by apply not_eq_sym|].
    intros Hin. destruct Hinv as (_ & (Hseg & _) & _).
    destruct (dlseg_lookup _ _ _ _ _ _ _ Hseg Hin) as [? ?]. congruence. }
  destruct (query_cache_put_inv m1 cp ctx1 _ t2 q r2 p2 Hinv1 Hf2' Hq Hr2)
    as (m2 & ctx2 & Hput2 & Hinv2 & Hsame2 & _).
  pose proof Hsame1 as (Hme1 & Hms1 & Httl1).
  rewrite add_items_room in Hinv2.
  2:{ pose proof Hinv1 as (_ & _ & Hcfg1 & Hlim1 & _).
      apply room_items_iff_fits; try done. unfold fits.
      rewrite Hme1, Hms1, len_items_cons, sum_bytes_cons.
      rewrite entry_bytes_new by (unfold entry_size, sizeof_CacheEntry; done || lia).
      unfold entry_size, sizeof_CacheEntry. lia. }
  (* the get *)
  destruct (query_cache_get_inv m2 cp ctx2 _ now q Hinv2)
    as (m3 & ctx3 & Hget & Hinv3 & _).
  pose proof Hsame2 as (_ & _ & Httl2).
  rewrite find_items_head_hit in Hget, Hinv3; try apply key_matches_new.
  2,3: rewrite Httl2, Httl1; apply not_true_is_false; intros Hexp;
       apply expired_iff in Hexp; simpl in *; lia.
  exists m1, m2, m3, ctx2, ctx3. by split_and!.
Qed.

(** ** Null handles *)

(** C9: with a null handle, [query_cache_destroy_context] returns with the
    memory unchanged, in every memory; get, invalidate and clear fault on
    their first statement, and put faults once its allocations have
    succeeded -- none of them tests the handle. *)
Theorem destroy_null_is_noop m :
  query_cache_destroy_context m None = Some m ∧
  (∀ now q, query_cache_get m None now q = None) ∧
  (∀ table, query_cache_invalidate m None table = None) ∧
  query_cache_clear m None = None ∧
  (∀ now q r p, query_cache_put m None now q r (Some p) true true = None).
Proof. by split_and!. Qed.

(** Teardown of a live context frees the context and every node. *)
Lemma destroy_context_frees m cp ctx l :
  cache_inv m cp ctx l →
  ∃ m', query_cache_destroy_context m (Some cp) = Some m' ∧
        cstore m' !! cp = None ∧
        (∀ a, a ∈ ptrs l → estore m' !! a = None) ∧
        (∀ a, a ∉ ptrs l → estore m' !! a = estore m !! a).
Proof.
  intros (Hc & Hdll & _). unfold query_cache_destroy_context. rewrite Hc. simpl.
  pose proof (dll_length_le_size _ _ _ Hdll) as Hlen.
  destruct Hdll as (Hseg & Hnd & _).
  destruct (destroy_loop_dlseg l (estore m) None (head ctx) (tail ctx)
              (S (size (estore m))) Hseg Hnd ltac:(lia)) as (h' & -> & Hdel & Hfr).
  simpl. eexists. split; [done|]. simpl. rewrite lookup_delete_eq. by split_and!.
Qed.

Lemma lru_eviction_and_promotion_witness :
  (cache_inv two_slot_mem sample_ctx two_slot_ctx [] ∧
   max_entries two_slot_ctx = 2 ∧
   key_a ≠ key_b ∧ key_a ≠ key_c ∧ key_b ≠ key_c ∧
   Forall valid_len [key_a; key_b; key_c; val_a; val_b; val_c] ∧
   entry_size key_a val_a + entry_size key_b val_b + entry_size key_c val_c
     ≤ max_size two_slot_ctx ∧
   NoDup [2%positive; 3%positive; 4%positive] ∧
   Forall (λ p, estore two_slot_mem !! p = None) [2%positive; 3%positive; 4%positive] ∧
   0 ≤ default_ttl two_slot_ctx < 2 ^ 62 ∧
   in_window (default_ttl two_slot_ctx) 1000 [1000; 1001; 1003; 1002; 1004; 1005; 1006] ∧
   cache_inv one_entry_mem sample_ctx one_entry_ctx one_entry_list ∧
   valid_len key_q ∧ valid_len val_r ∧ estore one_entry_mem !! 3%positive = None) ∧
  ((∃ m' ctx' k,
      (k ≤ length one_entry_list)%nat ∧
      query_cache_put one_entry_mem (Some sample_ctx) 200 key_q val_r
        (Some 3%positive) true true = Some (m', 0) ∧
      (cache_inv m' sample_ctx ctx'
         ((3%positive, new_entry 200 key_q val_r) :: take k one_entry_list)
       ∨ k = 0%nat ∧ cache_inv m' sample_ctx ctx' [])) ∧
   (∃ m' ctx' rc out l',
      query_cache_get one_entry_mem (Some sample_ctx) 200 key_q = Some (m', rc, out) ∧
      cache_inv m' sample_ctx ctx' l' ∧
      (rc = 1 ∧ out = None
       ∨ ∃ l1 a d l2,
           rc = 0 ∧ out = Some (result d, result_len d) ∧
           one_entry_list = l1 ++ (a, d) :: l2 ∧
           l' = (a, touch 200 d)
                  :: List.filter (live (default_ttl one_entry_ctx) 200) l1 ++ l2 ∧
           head ctx' = Some a)) ∧
   (∃ m',
      run sample_ctx two_slot_mem
        [Put 1000 key_a val_a (Some 2%positive) true true;
         Put 1001 key_b val_b (Some 3%positive) true true;
         Put 1003 key_c val_c (Some 4%positive) true true;
         Get 1004 key_a; Get 1005 key_b; Get 1006 key_c]
      = Some (m', [Status 0; Status 0; Status 0;
                   Miss; Hit val_b (len val_b); Hit val_c (len val_c)])) ∧
   (∃ m',
      run sample_ctx two_slot_mem
        [Put 1000 key_a val_a (Some 2%positive) true true;
         Put 1001 key_b val_b (Some 3%positive) true true;
         Get 1002 key_a;
         Put 1003 key_c val_c (Some 4%positive) true true;
         Get 1004 key_a; Get 1005 key_b; Get 1006 key_c]
      = Some (m', [Status 0; Status 0; Hit val_a (len val_a); Status 0;
                   Hit val_a (len val_a); Miss; Hit val_c (len val_c)]))).
Proof.
  assert (max_entries two_slot_ctx = 2) as H1 by reflexivity.
  assert (key_a ≠ key_b) as H2 by discriminate.
  assert (key_a ≠ key_c) as H3 by discriminate.
  assert (key_b ≠ key_c) as H4 by discriminate.
  assert (Forall valid_len [key_a; key_b; key_c; val_a; val_b; val_c]) as H5
    by (repeat (apply Forall_cons; split; [vm_compute; reflexivity|]); apply Forall_nil_2).
  assert (entry_size key_a val_a + entry_size key_b val_b + entry_size key_c val_c
            ≤ max_size two_slot_ctx) as H6 by (vm_compute; discriminate).
  assert (NoDup [2%positive; 3%positive; 4%positive]) as H7
    by (refine (bool_decide_unpack _ _); vm_compute; exact I).
  assert (Forall (λ p, estore two_slot_mem !! p = None)
            [2%positive; 3%positive; 4%positive]) as H8
    by (repeat (apply Forall_cons; split; [reflexivity|]); apply Forall_nil_2).
  assert (0 ≤ default_ttl two_slot_ctx < 2 ^ 62) as H9
    by (split; vm_compute; [discriminate|reflexivity]).
  assert (in_window (default_ttl two_slot_ctx) 1000
            [1000; 1001; 1003; 1002; 1004; 1005; 1006]) as H10
    by (repeat (apply Forall_cons; split; [split; vm_compute; discriminate|]);
        apply Forall_nil_2).
  assert (valid_len key_q) as H11 by (vm_compute; reflexivity).
  assert (valid_len val_r) as H12 by (vm_compute; reflexivity).
  assert (estore one_entry_mem !! 3%positive = None) as H13 by reflexivity.
  split.
  { split; [apply two_slot_mem_inv|]. split; [exact H1|]. split; [exact H2|].
    split; [exact H3|]. split; [exact H4|]. split; [exact H5|]. split; [exact H6|].
    split; [exact H7|]. split; [exact H8|]. split; [exact H9|]. split; [exact H10|].
    split; [apply one_entry_mem_inv|]. split; [exact H11|]. split; [exact H12|].
    exact H13. }
  exact (lru_eviction_and_promotion two_slot_mem sample_ctx two_slot_ctx
           key_a key_b key_c val_a val_b val_c 2%positive 3%positive 4%positive
           1000 1000 1001 1003 1002 1004 1005 1006
           two_slot_mem_inv H1 H2 H3 H4 H5 H6 H7 H8 H9 H10
           one_entry_mem one_entry_ctx one_entry_list 200 key_q val_r 3%positive
           one_entry_mem_inv H11 H12 H13).
Defined.

Lemma invalidate_keeps_the_rest_witness :
  (cache_inv one_entry_mem sample_ctx one_entry_ctx one_entry_list ∧
   nul_free table_orders) ∧
  ∃ m' ctx' l',
    query_cache_invalidate one_entry_mem (Some sample_ctx) table_orders = Some (m', 0) ∧
    cache_inv m' sample_ctx ctx' l' ∧
    sublist l' one_entry_list ∧
    (∀ a d, (a, d) ∈ one_entry_list → ¬ is_substring table_orders (query d) →
            (a, d) ∈ l' ∧ ∃ e, estore m' !! a = Some e ∧ unlinked e = d) ∧
    (∀ a d, (a, d) ∈ one_entry_list →
            expired (default_ttl one_entry_ctx) 99999 d = true →
            ¬ is_substring table_orders (query d) → (a, d) ∈ l').
Proof.
  split; [split; [apply one_entry_mem_inv|apply table_orders_nul_free]|].
  exact (invalidate_keeps_the_rest one_entry_mem sample_ctx one_entry_ctx one_entry_list
           table_orders 99999 one_entry_mem_inv table_orders_nul_free).
Defined.

Lemma duplicate_keys_coexist_witness :
  (cache_inv fresh_mem sample_ctx new_context [] ∧
   valid_len key_q ∧ valid_len val_a ∧ valid_len val_b ∧
   estore fresh_mem !! 2%positive = None ∧ estore fresh_mem !! 3%positive = None ∧
   2%positive ≠ 3%positive ∧
   len_items [] + 2 ≤ max_entries new_context ∧
   sum_bytes [] + entry_size key_q val_a + entry_size key_q val_b ≤ max_size new_context ∧
   - 2 ^ 63 ≤ 102 - 101 < 2 ^ 63 ∧ 102 ≤ 101 + default_ttl new_context) ∧
  ∃ m1 m2 m3 ctx2 ctx3,
    query_cache_put fresh_mem (Some sample_ctx) 100 key_q val_a (Some 2%positive)
      true true = Some (m1, 0) ∧
    query_cache_put m1 (Some sample_ctx) 101 key_q val_b (Some 3%positive)
      true true = Some (m2, 0) ∧
    cache_inv m2 sample_ctx ctx2
      [(3%positive, new_entry 101 key_q val_b); (2%positive, new_entry 100 key_q val_a)] ∧
    query_cache_get m2 (Some sample_ctx) 102 key_q = Some (m3, 0, Some (val_b, len val_b)) ∧
    cache_inv m3 sample_ctx ctx3
      [(3%positive, touch 102 (new_entry 101 key_q val_b));
       (2%positive, new_entry 100 key_q val_a)].
Proof.
  assert (valid_len key_q) as H1 by (vm_compute; reflexivity).
  assert (valid_len val_a) as H2 by (vm_compute; reflexivity).
  assert (valid_len val_b) as H3 by (vm_compute; reflexivity).
  assert (estore fresh_mem !! 2%positive = None) as H4 by reflexivity.
  assert (estore fresh_mem !! 3%positive = None) as H5 by reflexivity.
  assert (2%positive ≠ 3%positive) as H6 by discriminate.
  assert (len_items [] + 2 ≤ max_entries new_context) as H7 by (vm_compute; discriminate).
  assert (sum_bytes [] + entry_size key_q val_a + entry_size key_q val_b
            ≤ max_size new_context) as H8 by (vm_compute; discriminate).
  assert (- 2 ^ 63 ≤ 102 - 101 < 2 ^ 63) as H9 by lia.
  assert (102 ≤ 101 + default_ttl new_context) as H10 by (vm_compute; discriminate).
  split.
  { split; [apply fresh_mem_inv|]. split; [exact H1|]. split; [exact H2|].
    split; [exact H3|]. split; [exact H4|]. split; [exact H5|]. split; [exact H6|].
    split; [exact H7|]. split; [exact H8|]. split; [exact H9|]. exact H10. }
  exact (duplicate_keys_coexist fresh_mem sample_ctx new_context [] 100 101 102
           key_q val_a val_b 2%positive 3%positive
           fresh_mem_inv H1 H2 H3 H4 H5 H6 H7 H8 H9 H10).
Defined.

(** * Further properties of the interface *)

(** ** The context store along the interface *)

Lemma query_cache_get_cstore m cp now q m' rc out :
  query_cache_get m (Some cp) now q = Some (m', rc, out) →
  ∃ ctx', cstore m' = <[cp := ctx']> (cstore m).
Proof.
  unfold query_cache_get. cbn [mbind option_bind].
  destruct (cstore m !! cp) as [c|]; [|done]. cbn [mbind option_bind].
  destruct (find_cache_entry c (estore m) now q (len q)) as [[[c' h] e]|]; [|done].
  cbn [mbind option_bind]. destruct e as [p|].
  - destruct (h !! p); [|done]. cbn [mbind option_bind]. intros [= <- _ _]. by eexists.
  - intros [= <- _ _]. by eexists.
Qed.

Lemma query_cache_put_cstore m cp now q r p m' rc :
  query_cache_put m (Some cp) now q r (Some p) true true = Some (m', rc) →
  ∃ ctx', cstore m' = <[cp := ctx']> (cstore m).
Proof.
  unfold query_cache_put. cbn [negb mbind option_bind].
  destruct (cstore m !! cp) as [c|]; [|done]. cbn [mbind option_bind].
  destruct (add_cache_entry c _ p) as [[c' h]|]; [|done].
  cbn [mbind option_bind]. intros [= <- _]. by eexists.
Qed.

Lemma query_cache_invalidate_cstore m cp table m' rc :
  query_cache_invalidate m (Some cp) table = Some (m', rc) →
  ∃ ctx', cstore m' = <[cp := ctx']> (cstore m).
Proof.
  unfold query_cache_invalidate. cbn [mbind option_bind].
  destruct (cstore m !! cp) as [c|]; [|done]. cbn [mbind option_bind].
  destruct (invalidate_loop _ c _ _ table) as [[c' h]|]; [|done].
  cbn [mbind option_bind]. intros [= <- _]. by eexists.
Qed.

Lemma query_cache_clear_cstore m cp m' rc :
  query_cache_clear m (Some cp) = Some (m', rc) →
  ∃ ctx', cstore m' = <[cp := ctx']> (cstore m).
Proof.
  unfold query_cache_clear. cbn [mbind option_bind].
  destruct (cstore m !! cp) as [c|]; [|done]. cbn [mbind option_bind].
  destruct (clear_loop _ c _ _) as [[c' h]|]; [|done].
  cbn [mbind option_bind]. intros [= <- _]. by eexists.
Qed.

Lemma cstore_frame (s s' : gmap ptr QueryCacheContext) cp :
  (∃ ctx', s' = <[cp := ctx']> s) → ∀ c, c ≠ cp → s' !! c = s !! c.
Proof. intros [ctx' ->] c Hc. by rewrite lookup_insert_ne. Qed.

(** ** One step of the interface, in full *)

Lemma shrinks_turns h h' l l' : shrinks h h' l l' → turns h h' l l'.
Proof.
  intros (Hsub & Hfr & Hdel). split_and!.
  - intros a Ha Hna. by apply Hsub in Ha.
  - intros a Hna Ha. by apply Hdel.
  - intros a _ Hna. by apply Hfr.
Qed.

Lemma turns_refl h l : turns h h l l.
Proof. split_and!; intros a ? ?; done. Qed.

Lemma ptrs_take_subset (l : list (ptr * CacheEntry)) k a :
  a ∈ ptrs (take k l) → a ∈ ptrs l.
Proof.
  unfold ptrs. rewrite !list_elem_of_fmap. intros (x & -> & Hx).
  exists x. split; [done|]. rewrite <- (take_drop k l). apply elem_of_app. by left.
Qed.

Lemma add_items_ptrs me ms p d l a :
  a ∈ ptrs (add_items me ms p d l) → a = p ∨ a ∈ ptrs l.
Proof.
  unfold add_items.
  destruct (evict_items_spec me ms d l) as (k & _ & Hl & _).
  destruct (evict_items me ms d l) as [l' room]. simpl in Hl. subst l'.
  destruct room.
  - rewrite ptrs_cons. intros [->|Ha]%elem_of_cons; [by left|].
    right. by eapply ptrs_take_subset.
  - intros Ha. right. by eapply ptrs_take_subset.
Qed.

Lemma step_cases cp m ctx l o m' out :
  cache_inv m cp ctx l → op_ok m o → step cp m o = Some (m', out) →
  ∃ ctx',
    cache_inv m' cp ctx' (list_after ctx o l) ∧ same_config ctx ctx' ∧
    out = outcome_after ctx o l ∧
    (∀ c, c ≠ cp → cstore m' !! c = cstore m !! c) ∧
    turns (estore m) (estore m') l (list_after ctx o l).
Proof.
  intros Hinv Hok Hstep. destruct o as [now q|now q r a aq ar|table|].
  - destruct (query_cache_get_inv m cp ctx l now q Hinv)
      as (m1 & ctx1 & Hget & Hinv1 & Hsame & Hsh).
    cbn [step] in Hstep. rewrite Hget in Hstep. cbn [mbind option_bind] in Hstep.
    pose proof (query_cache_get_cstore _ _ _ _ _ _ _ Hget) as Hcs.
    exists ctx1. cbn [list_after outcome_after].
    destruct (find_items (default_ttl ctx) now q (len q) [] l) as [l1 [[a d]|]];
      cbn [get_outcome fst snd outcome_of] in *; injection Hstep as <- <-;
      split_and!; try done; try (by apply cstore_frame); by apply shrinks_turns.
  - destruct a as [p|]; [destruct aq; [destruct ar|]|].
    + destruct Hok as (Hq & Hr & Hfresh).
      destruct (query_cache_put_inv m cp ctx l now q r p Hinv Hfresh Hq Hr)
        as (m1 & ctx1 & Hput & Hinv1 & Hsame & Hdel & Hdrop & Hfr).
      cbn [step] in Hstep. rewrite Hput in Hstep. cbn [mbind option_bind] in Hstep.
      injection Hstep as <- <-.
      pose proof (query_cache_put_cstore _ _ _ _ _ _ _ _ Hput) as Hcs.
      exists ctx1. cbn [list_after outcome_after].
      split_and!; try done; try (by apply cstore_frame).
      assert (p ∉ ptrs l) as Hpl.
      { intros Hin. destruct Hinv as (_ & (Hseg & _) & _).
        destruct (dlseg_lookup _ _ _ _ _ _ _ Hseg Hin) as [? ?]. congruence. }
      split_and!.
      * intros a Ha Hna. apply add_items_ptrs in Ha as [->|Ha]; done.
      * intros a Hna Ha. by apply Hdel.
      * intros a Hna Hnl. destruct (decide (a = p)) as [->|Hne].
        -- rewrite Hfresh. by apply Hdrop.
        -- by apply Hfr.
    + cbn [step] in Hstep.
      rewrite (query_cache_put_alloc_failure m (Some cp) now q r (Some p) true false)
        in Hstep by auto.
      cbn [mbind option_bind] in Hstep. injection Hstep as <- <-.
      exists ctx. cbn [list_after outcome_after].
      split_and!; try done; first [apply same_config_refl|apply turns_refl].
    + cbn [step] in Hstep.
      rewrite (query_cache_put_alloc_failure m (Some cp) now q r (Some p) false ar)
        in Hstep by auto.
      cbn [mbind option_bind] in Hstep. injection Hstep as <- <-.
      exists ctx. cbn [list_after outcome_after].
      split_and!; try done; first [apply same_config_refl|apply turns_refl].
    + cbn [step] in Hstep.
      rewrite (query_cache_put_alloc_failure m (Some cp) now q r None aq ar)
        in Hstep by auto.
      cbn [mbind option_bind] in Hstep. injection Hstep as <- <-.
      exists ctx. cbn [list_after outcome_after].
      split_and!; try done; first [apply same_config_refl|apply turns_refl].
  - destruct (query_cache_invalidate_inv m cp ctx l table Hinv)
      as (m1 & ctx1 & Hrun & Hinv1 & Hsame & Hsh).
    cbn [step] in Hstep. rewrite Hrun in Hstep. cbn [mbind option_bind] in Hstep.
    injection Hstep as <- <-.
    pose proof (query_cache_invalidate_cstore _ _ _ _ _ Hrun) as Hcs.
    exists ctx1. cbn [list_after outcome_after].
    split_and!; try done; try (by apply cstore_frame); by apply shrinks_turns.
  - destruct (query_cache_clear_inv m cp ctx l Hinv)
      as (m1 & ctx1 & Hrun & Hinv1 & Hsame & Hsh).
    cbn [step] in Hstep. rewrite Hrun in Hstep. cbn [mbind option_bind] in Hstep.
    injection Hstep as <- <-.
    pose proof (query_cache_clear_cstore _ _ _ _ Hrun) as Hcs.
    exists ctx1. cbn [list_after outcome_after].
    split_and!; try done; try (by apply cstore_frame); by apply shrinks_turns.
Qed.

(** No operation faults in a state that satisfies the invariant. *)
Lemma step_total cp m ctx l o :
  cache_inv m cp ctx l → op_ok m o → ∃ m' out, step cp m o = Some (m', out).
Proof.
  intros Hinv Hok. destruct (step_inv cp m ctx l o Hinv Hok) as (m' & out & _ & _ & ? & _).
  by exists m', out.
Qed.

(** ** Where the entries of the list come from *)

Lemma backed_snoc ops x o :
  backed ops x → spares (query x.2) o → backed (ops ++ [o]) x.
Proof.
  intros (pre & post & -> & Hpost) Ho. exists pre, (post ++ [o]). split.
  - by rewrite <- app_assoc.
  - apply Forall_app. split; [done|]. by apply Forall_singleton.
Qed.

Lemma backed_touch ops a d now : backed ops (a, d) → backed ops (a, touch now d).
Proof. by destruct d. Qed.

Lemma live_elem_of_filter ttl now (l : list (ptr * CacheEntry)) x :
  x ∈ l → expired ttl now x.2 = false → x ∈ List.filter (live ttl now) l.
Proof.
  intros Hin Hlive. apply list_elem_of_In, filter_In. split.
  - by apply list_elem_of_In.
  - unfold live. by rewrite Hlive.
Qed.

Lemma find_items_elem ttl now q qlen l x :
  x ∈ (find_items ttl now q qlen [] l).1 →
  x ∈ l ∨ ∃ d, (x.1, d) ∈ l ∧ x.2 = touch now d.
Proof.
  destruct (find_items_spec ttl now q qlen l [])
    as [(l1 & p & d & l2 & -> & _ & _ & _ & ->)|[_ ->]]; cbn [fst app].
  - intros [->|Hx]%elem_of_cons.
    + right. exists d. split; [|done]. apply elem_of_app. right. by left.
    + left. apply elem_of_app in Hx as [Hx|Hx].
      * apply elem_of_app. left. apply list_elem_of_In, filter_In in Hx as [Hx _].
        by apply list_elem_of_In.
      * apply elem_of_app. right. by right.
  - intros Hx. left. apply list_elem_of_In, filter_In in Hx as [Hx _].
    by apply list_elem_of_In.
Qed.

Lemma add_items_elem me ms p d l x :
  x ∈ add_items me ms p d l → x = (p, d) ∨ x ∈ l.
Proof.
  unfold add_items.
  destruct (evict_items_spec me ms d l) as (k & _ & Hl & _).
  destruct (evict_items me ms d l) as [l' room]. simpl in Hl. subst l'.
  assert (x ∈ take k l → x ∈ l) as Htake.
  { intros Hx. rewrite <- (take_drop k l). apply elem_of_app. by left. }
  destruct room.
  - intros [->|Hx]%elem_of_cons; [by left|right; by apply Htake].
  - intros Hx. right. by apply Htake.
Qed.

Lemma backed_step ctx o ops l :
  Forall (backed ops) l → Forall (backed (ops ++ [o])) (list_after ctx o l).
Proof.
  rewrite !Forall_forall. intros Hl x Hx.
  destruct o as [now q|now q r a aq ar|table|]; cbn [list_after] in Hx.
  - apply find_items_elem in Hx as [Hx|(d & Hd & Hx)].
    + apply backed_snoc; [by apply Hl|done].
    + apply backed_snoc; [|done]. destruct x as [a e]. simpl in *. subst e.
      apply backed_touch. by apply Hl.
  - assert (x ∈ l → backed (ops ++ [Put now q r a aq ar]) x) as Hold.
    { intros Hin. apply backed_snoc; [by apply Hl|done]. }
    destruct a as [p|]; [destruct aq; [destruct ar|]|]; try by apply Hold.
    apply add_items_elem in Hx as [->|Hx]; [|by apply Hold].
    exists ops, []. split; [done|]. apply Forall_nil_2.
  - apply elem_of_invalidate_items in Hx as [Hx Hno].
    apply backed_snoc; [by apply Hl|]. cbn [spares].
    unfold mentions in Hno. by destruct (strstr (query x.2) table).
  - by apply elem_of_nil in Hx.
Qed.


(** ** The byte counter without wrap-around *)

Lemma sized_touch ms a d now : sized ms (a, d) → sized ms (a, touch now d).
Proof. by destruct d. Qed.

Lemma add_items_sized ctx p now q r l :
  config_ok ctx → within_limits ctx l → valid_len q → valid_len r →
  Forall (sized (max_size ctx)) l →
  Forall (sized (max_size ctx))
    (add_items (max_entries ctx) (max_size ctx) p (new_entry now q r) l).
Proof.
  intros Hcfg Hlim Hq Hr Hl. unfold add_items.
  destruct (evict_items_spec (max_entries ctx) (max_size ctx) (new_entry now q r) l)
    as (k & _ & Hk & Hroom & _).
  destruct (evict_items _ _ _ l) as [l' room]. simpl in Hk, Hroom. subst l'.
  assert (Forall (sized (max_size ctx)) (take k l)) as Htake by (by apply Forall_take).
  destruct room; [|done]. apply Forall_cons. split; [|done].
  symmetry in Hroom. apply negb_true_iff in Hroom.
  apply room_items_iff_fits in Hroom as [_ Hfit]; try done.
  - pose proof (sum_bytes_nonneg (take k l)). unfold sized, entry_size. simpl. lia.
  - destruct Hlim as [? ?]. pose proof (take_measures l k) as [? ?]. split; lia.
Qed.

Lemma sized_step ctx o m l :
  config_ok ctx → within_limits ctx l → op_ok m o →
  Forall (sized (max_size ctx)) l →
  Forall (sized (max_size ctx)) (list_after ctx o l).
Proof.
  intros Hcfg Hlim Hok Hl.
  destruct o as [now q|now q r a aq ar|table|]; cbn [list_after].
  - rewrite Forall_forall in *. intros x Hx.
    apply find_items_elem in Hx as [Hx|(d & Hd & Hx)]; [by apply Hl|].
    destruct x as [a e]. simpl in *. subst e. apply sized_touch. by apply Hl.
  - destruct a as [p|]; [destruct aq; [destruct ar|]|]; try done.
    destruct Hok as (Hq & Hr & _). by apply add_items_sized.
  - rewrite Forall_forall in *. intros x Hx.
    apply elem_of_invalidate_items in Hx as [Hx _]. by apply Hl.
  - apply Forall_nil_2.
Qed.

Lemma entry_bytes_sized ms a d :
  ms ≤ INT_MAX → entry_ok d → sized ms (a, d) →
  entry_bytes d = len (query d) + len (result d) + sizeof_CacheEntry.
Proof.
  intros Hms (Hql & Hrl & Hvq & Hvr) Hsz. unfold sized, entry_size in Hsz. simpl in Hsz.
  pose proof (len_nonneg (query d)). pose proof (len_nonneg (result d)).
  unfold sizeof_CacheEntry in *.
  rewrite entry_bytes_exact; unfold sizeof_CacheEntry; lia.
Qed.

Lemma sum_bytes_accounted ms l :
  ms ≤ INT_MAX → Forall (λ x, entry_ok x.2) l → Forall (sized ms) l →
  sum_bytes l = accounted l.
Proof.
  intros Hms. induction l as [|[a d] l IH]; [done|].
  intros [Hd Hl]%Forall_cons [Hs Hsl]%Forall_cons. simpl in Hd.
  rewrite sum_bytes_cons, IH by done.
  rewrite (entry_bytes_sized ms a d) by done. done.
Qed.


(** ** The most recent put of a key *)

Lemma filter_split_inv {A} (P : A → bool) (l a : list A) x b :
  List.filter P l = a ++ x :: b →
  ∃ l1 l2, l = l1 ++ x :: l2 ∧ a = List.filter P l1 ∧ b = List.filter P l2 ∧
           P x = true.
Proof.
  revert a. induction l as [|y l IH]; intros a Heq; simpl in Heq.
  - by destruct a.
  - destruct (P y) eqn:Hy.
    + destruct a as [|y' a]; simpl in Heq; injection Heq as <- Heq.
      * exists [], l. by split_and!.
      * destruct (IH a Heq) as (l1 & l2 & -> & -> & -> & Hx).
        exists (y :: l1), l2. simpl. rewrite Hy. by split_and!.
    + destruct (IH a Heq) as (l1 & l2 & -> & -> & -> & Hx).
      exists (y :: l1), l2. simpl. rewrite Hy. by split_and!.
Qed.

Lemma app_split_inv {A} (a b r1 : list A) x r2 :
  a ++ b = r1 ++ x :: r2 →
  (∃ a2, a = r1 ++ x :: a2 ∧ r2 = a2 ++ b) ∨
  (∃ b1, b = b1 ++ x :: r2 ∧ r1 = a ++ b1).
Proof.
  revert r1. induction a as [|y a IH]; intros r1 Heq; simpl in Heq.
  - right. by exists r1.
  - destruct r1 as [|y' r1]; simpl in Heq; injection Heq as <- Heq.
    + left. by exists a.
    + destruct (IH r1 Heq) as [(a2 & -> & ->)|(b1 & -> & ->)].
      * left. by exists a2.
      * right. by exists b1.
Qed.

Lemma steady_from_snoc lo ts t' :
  steady_from lo (ts ++ [t']) →
  steady_from lo ts ∧ lo ≤ t' < 2 ^ 62 ∧ Forall (λ t, lo ≤ t ≤ t') ts.
Proof.
  revert lo. induction ts as [|t ts IH]; intros lo; simpl.
  - intros [? _]. split_and!; try done; lia.
  - intros [Ht Hts]. destruct (IH t Hts) as (? & ? & Hall).
    split_and!; try done; try lia. apply Forall_cons. split; [lia|].
    eapply Forall_impl; [exact Hall|]. simpl. lia.
Qed.

Lemma steady_snoc ops o :
  steady (ops ++ [o]) →
  steady ops ∧
  ∀ now, clock o = Some now →
         0 ≤ now < 2 ^ 62 ∧ ∀ t, t ∈ omap clock ops → 0 ≤ t ≤ now.
Proof.
  unfold steady. rewrite omap_app.
  change (omap clock [o]) with (match clock o with Some t => [t] | None => [] end).
  destruct (clock o) as [t'|].
  - intros (Hs & Ht & Hall)%steady_from_snoc. split; [done|].
    intros now [= <-]. split; [done|]. by apply Forall_forall.
  - rewrite app_nil_r. intros Hs. split; [done|]. by intros now.
Qed.

Lemma clock_elem_snoc ops o t : t ∈ omap clock ops → t ∈ omap clock (ops ++ [o]).
Proof. intros Ht. rewrite omap_app. apply elem_of_app. by left. Qed.

Lemma backed_clock ops x : backed ops x → created_time x.2 ∈ omap clock ops.
Proof.
  intros (pre & post & -> & _). rewrite omap_app. apply elem_of_app. right.
  cbn [omap clock]. by left.
Qed.

Lemma fresh_snoc ops x o :
  fresh ops x → spares (query x.2) o → ¬ stores (query x.2) o →
  fresh (ops ++ [o]) x.
Proof.
  intros (pre & post & -> & Hsp & Hst) Ho Hno. exists pre, (post ++ [o]). split_and!.
  - by rewrite <- app_assoc.
  - apply Forall_app. split; [done|]. by apply Forall_singleton.
  - apply Forall_app. split; [done|]. by apply Forall_singleton.
Qed.

Lemma fresh_snoc_get ops x now q : fresh ops x → fresh (ops ++ [Get now q]) x.
Proof. intros Hfr. apply fresh_snoc; [done|exact I|by intros []]. Qed.

Lemma fresh_touch ops a d now : fresh ops (a, d) → fresh ops (a, touch now d).
Proof. by destruct d. Qed.

Lemma outdated_snoc ops x o : outdated ops x → outdated (ops ++ [o]) x.
Proof. intros (T & HT & Hlt). exists T. split; [by apply clock_elem_snoc|done]. Qed.

Lemma outdated_touch ops a d now : outdated ops (a, d) → outdated ops (a, touch now d).
Proof. by destruct d. Qed.

(** An entry behind an expired one that is not older is expired too. *)
Lemma expired_behind ttl now (d f : CacheEntry) :
  0 ≤ now < 2 ^ 62 → 0 ≤ created_time d → 0 ≤ created_time f ≤ now →
  created_time d ≤ created_time f →
  expired ttl now f = true → created_time d + ttl < now.
Proof.
  intros Hnow Hd Hf Hle Hexp. apply expired_iff in Hexp; lia.
Qed.

Section RankedGet.

Variables (ops : list op) (now : Z) (q : list byte) (l : list (ptr * CacheEntry)).

Hypothesis Hsteady : steady (ops ++ [Get now q]).
Hypothesis Hall : Forall (λ x, entry_ok x.2) l.
Hypothesis Hback : Forall (backed ops) l.
Hypothesis Hrank : ranked ops l.

Lemma ranked_get_now : 0 ≤ now < 2 ^ 62 ∧ ∀ t, t ∈ omap clock ops → 0 ≤ t ≤ now.
Proof. destruct (steady_snoc _ _ Hsteady) as [_ H]. by apply H. Qed.

Lemma ranked_get_created x : x ∈ l → 0 ≤ created_time x.2 ≤ now.
Proof.
  intros Hx. destruct ranked_get_now as [_ H]. apply H, backed_clock.
  pose proof Hback as Hb. rewrite Forall_forall in Hb. by apply Hb.
Qed.

Lemma ranked_get_outdated x :
  x ∈ l → outdated ops x → expired DEFAULT_TTL now x.2 = true.
Proof.
  intros Hx (T & HT & Hlt). destruct ranked_get_now as [Hnow Hle].
  pose proof (Hle T HT). pose proof (ranked_get_created x Hx).
  apply expired_iff; lia.
Qed.

(** What becomes of an entry [x] that stood behind [f] when the scan has
    passed [f]: either [f] is live and stays, or [x] is expired now. *)
Lemma ranked_get_shadow f x :
  f ∈ l → x ∈ l → created_time x.2 ≤ created_time f.2 →
  outdated (ops ++ [Get now q]) x ∨ expired DEFAULT_TTL now f.2 = false.
Proof.
  intros Hfl Hxl Hle. destruct ranked_get_now as [Hnow _].
  pose proof (ranked_get_created f Hfl). pose proof (ranked_get_created x Hxl).
  destruct (expired DEFAULT_TTL now f.2) eqn:Hexp; [|by right].
  left. exists now. split.
  - rewrite omap_app. apply elem_of_app. right. cbn [omap clock]. by left.
  - apply (expired_behind DEFAULT_TTL now x.2 f.2); try done; lia.
Qed.

Lemma ranked_get_filter l1' x l2' :
  List.filter (live DEFAULT_TTL now) l = l1' ++ x :: l2' →
  fresh (ops ++ [Get now q]) x ∨ outdated (ops ++ [Get now q]) x ∨
  ∃ f, f ∈ l1' ∧ query f.2 = query x.2 ∧ created_time x.2 ≤ created_time f.2.
Proof.
  intros (g1 & g2 & Hl & -> & _ & _)%filter_split_inv.
  destruct (Hrank g1 x g2 Hl) as [Hfr|[Hout|(f & Hf & Hkey & Hle)]].
  - left. by apply fresh_snoc_get.
  - right. left. by apply outdated_snoc.
  - right. destruct (ranked_get_shadow f x) as [?|Hlive]; try done.
    + rewrite Hl. apply elem_of_app. by left.
    + rewrite Hl. apply elem_of_app. right. by left.
    + by left.
    + right. exists f. split; [by apply live_elem_of_filter|done].
Qed.

(** The entry that a hit returns is fresh. *)
Lemma ranked_get_hit h1 p d h2 :
  l = h1 ++ (p, d) :: h2 →
  expired DEFAULT_TTL now d = false → key_matches d q (len q) = true →
  Forall (passed DEFAULT_TTL now q (len q)) h1 →
  fresh ops (p, d).
Proof.
  intros Hl Hlive Hkey Hpassed.
  assert ((p, d) ∈ l) as Hin by (rewrite Hl; apply elem_of_app; right; by left).
  pose proof Hall as Hok. rewrite Forall_forall in Hok.
  destruct (Hrank h1 (p, d) h2 Hl) as [Hfr|[Hout|(f & Hf & Hfkey & Hle)]]; [done| |].
  - apply (ranked_get_outdated _ Hin) in Hout. simpl in Hout. congruence.
  - exfalso. destruct ranked_get_now as [Hnow _].
    assert (f ∈ l) as Hfl by (rewrite Hl; apply elem_of_app; by left).
    pose proof (ranked_get_created f Hfl). pose proof (ranked_get_created _ Hin).
    rewrite Forall_forall in Hpassed. simpl in *.
    apply key_matches_iff in Hkey; [|by apply (Hok (p, d))].
    destruct (Hpassed f Hf) as [Hexp|Hno].
    + pose proof (expired_behind DEFAULT_TTL now d f.2 Hnow ltac:(lia) ltac:(lia) Hle Hexp).
      assert (expired DEFAULT_TTL now d = true) by (apply expired_iff; lia).
      congruence.
    + assert (key_matches f.2 q (len q) = true)
        by (apply key_matches_iff; [by apply Hok|congruence]).
      congruence.
Qed.

Lemma ranked_get :
  ranked (ops ++ [Get now q]) (find_items DEFAULT_TTL now q (len q) [] l).1.
Proof.
  destruct (find_items_spec DEFAULT_TTL now q (len q) l [])
    as [(h1 & p & d & h2 & Hl & Hlive & Hkey & Hpassed & ->)|[_ ->]];
    cbn [fst app]; intros l1' x l2' Heq; [|exact (ranked_get_filter l1' x l2' Heq)].
  destruct l1' as [|y r1]; simpl in Heq; injection Heq as <- Heq.
  { left. apply fresh_touch, fresh_snoc_get. by eapply ranked_get_hit. }
  (* [x] stands behind the promoted entry: in the part walked over, or in
     the part not reached *)
  assert (∃ g1 g2, l = g1 ++ x :: g2 ∧
            ∀ f, f ∈ g1 → expired DEFAULT_TTL now f.2 = false →
                 ∃ f', f' ∈ (p, touch now d) :: r1 ∧ query f'.2 = query f.2 ∧
                       created_time f'.2 = created_time f.2)
    as (g1 & g2 & Hx & Hstay).
  { apply app_split_inv in Heq as [(a2 & Hh1 & ->)|(b1 & -> & ->)].
    - apply filter_split_inv in Hh1 as (g1 & g2 & -> & -> & _ & _).
      exists g1, (g2 ++ (p, d) :: h2). split; [by rewrite Hl, <- app_assoc|].
      intros f Hf Hf_live. exists f. split; [|done]. right.
      by apply live_elem_of_filter.
    - exists (h1 ++ (p, d) :: b1), l2'. split; [by rewrite Hl, <- app_assoc|].
      intros f Hf Hf_live.
      apply elem_of_app in Hf as [Hf|[->|Hf]%elem_of_cons].
      + exists f. split; [|done]. right. apply elem_of_app. left.
        by apply live_elem_of_filter.
      + exists (p, touch now d). split; [by left|by destruct d].
      + exists f. split; [|done]. right. apply elem_of_app. by right. }
  destruct (Hrank g1 x g2 Hx) as [Hfr|[Hout|(f & Hf & Hfkey & Hle)]].
  - left. by apply fresh_snoc_get.
  - right. left. by apply outdated_snoc.
  - right. destruct (ranked_get_shadow f x) as [?|Hf_live]; try done.
    + rewrite Hx. apply elem_of_app. by left.
    + rewrite Hx. apply elem_of_app. right. by left.
    + by left.
    + right. destruct (Hstay f Hf Hf_live) as (f' & Hf' & Hk' & Ht').
      exists f'. split; [done|]. split; congruence.
Qed.

End RankedGet.

Lemma ranked_put ctx ops now q r p l :
  steady (ops ++ [Put now q r (Some p) true true]) →
  Forall (backed ops) l → ranked ops l →
  ranked (ops ++ [Put now q r (Some p) true true])
    (add_items (max_entries ctx) (max_size ctx) p (new_entry now q r) l).
Proof.
  intros Hsteady Hback Hrank. unfold add_items.
  destruct (evict_items_spec (max_entries ctx) (max_size ctx) (new_entry now q r) l)
    as (k & _ & Hk & _ & Hzero & _).
  destruct (evict_items _ _ _ l) as [l' room]. simpl in Hk, Hzero. subst l'.
  destruct (steady_snoc _ _ Hsteady) as [_ Hnow].
  destruct (Hnow now eq_refl) as [_ Hle].
  assert (∀ l1 x l2, take k l = l1 ++ x :: l2 →
            (fresh (ops ++ [Put now q r (Some p) true true]) x ∨
             outdated (ops ++ [Put now q r (Some p) true true]) x ∨
             ∃ f, f ∈ l1 ∧ query f.2 = query x.2 ∧
                  created_time x.2 ≤ created_time f.2) ∨
            (query x.2 = q ∧ created_time x.2 ≤ now)) as Hold.
  { intros l1 x l2 Heq.
    assert (l = l1 ++ x :: (l2 ++ drop k l)) as Hl.
    { rewrite <- (take_drop k l) at 1. rewrite Heq. by rewrite <- app_assoc. }
    assert (x ∈ l) as Hx by (rewrite Hl; apply elem_of_app; right; by left).
    destruct (Hrank l1 x _ Hl) as [Hfr|[Hout|Hsh]].
    - destruct (List.list_eq_dec Byte.byte_eq_dec (query x.2) q) as [Hq|Hq].
      + right. split; [done|]. apply Hle, backed_clock.
        rewrite Forall_forall in Hback. by apply Hback.
      + left. left. apply fresh_snoc; [done|done|]. cbn [stores]. congruence.
    - left. right. left. by apply outdated_snoc.
    - left. right. by right. }
  destruct room.
  - intros l1' x l2' Heq.
    destruct l1' as [|y r1]; simpl in Heq; injection Heq as <- Heq.
    + left. exists ops, []. split_and!; [done|apply Forall_nil_2|apply Forall_nil_2].
    + destruct (Hold r1 x l2' Heq) as [[Hfr|[Hout|(f & Hf & ? & ?)]]|[Hq Ht]].
      * by left.
      * right. by left.
      * right. right. exists f. split; [by right|done].
      * right. right. exists (p, new_entry now q r). split; [by left|]. done.
  - rewrite Hzero by done. intros l1' x l2' Heq. by destruct l1'.
Qed.

Lemma ranked_keep ops o l :
  (∀ q, spares q o) → (∀ q, ¬ stores q o) →
  ranked ops l → ranked (ops ++ [o]) l.
Proof.
  intros Hsp Hst Hrank l1 x l2 Hl.
  destruct (Hrank l1 x l2 Hl) as [Hfr|[Hout|Hsh]].
  - left. by apply fresh_snoc.
  - right. left. by apply outdated_snoc.
  - right. by right.
Qed.

Lemma ranked_invalidate ops table l :
  ranked ops l → ranked (ops ++ [Invalidate table]) (invalidate_items table l).
Proof.
  intros Hrank l1' x l2' Heq. unfold invalidate_items in Heq.
  apply filter_split_inv in Heq as (g1 & g2 & Hl & -> & _ & Hx).
  apply negb_true_iff in Hx. simpl in Hx.
  destruct (Hrank g1 x g2 Hl) as [Hfr|[Hout|(f & Hf & Hkey & Hle)]].
  - left. apply fresh_snoc; [done| |by intros []]. cbn [spares].
    unfold mentions in Hx. by destruct (strstr (query x.2) table).
  - right. left. by apply outdated_snoc.
  - right. right. exists f. split; [|done].
    apply list_elem_of_In, filter_In. split; [by apply list_elem_of_In|].
    apply negb_true_iff. unfold mentions in *. by rewrite Hkey.
Qed.

Lemma ranked_step ctx o ops l :
  default_ttl ctx = DEFAULT_TTL → steady (ops ++ [o]) →
  Forall (λ x, entry_ok x.2) l → Forall (backed ops) l → ranked ops l →
  ranked (ops ++ [o]) (list_after ctx o l).
Proof.
  intros Httl Hsteady Hall Hback Hrank.
  destruct o as [now q|now q r a aq ar|table|]; cbn [list_after].
  - rewrite Httl. by apply ranked_get.
  - destruct a as [p|]; [destruct aq; [destruct ar|]|];
      try (apply ranked_keep; [by intros ?|by intros ? []|done]).
    by apply ranked_put.
  - by apply ranked_invalidate.
  - intros l1 x l2 Heq. by destruct l1.
Qed.

(** ** A cache under no pressure *)

Lemma stored_count_app ops1 ops2 :
  stored_count (ops1 ++ ops2) = stored_count ops1 + stored_count ops2.
Proof.
  induction ops1 as [|o ops1 IH]; [done|]. simpl.
  change (foldr _ 0 (ops1 ++ ops2)) with (stored_count (ops1 ++ ops2)).
  change (foldr _ 0 ops1) with (stored_count ops1). rewrite IH.
  destruct o as [| ? ? ? [?|] [|] [|] | |]; lia.
Qed.

Lemma stored_bytes_app ops1 ops2 :
  stored_bytes (ops1 ++ ops2) = stored_bytes ops1 + stored_bytes ops2.
Proof.
  induction ops1 as [|o ops1 IH]; [done|]. simpl.
  change (foldr _ 0 (ops1 ++ ops2)) with (stored_bytes (ops1 ++ ops2)).
  change (foldr _ 0 ops1) with (stored_bytes ops1). rewrite IH.
  destruct o as [| ? ? ? [?|] [|] [|] | |]; lia.
Qed.

Lemma entry_size_pos q r : 0 < entry_size q r.
Proof.
  unfold entry_size, sizeof_CacheEntry. pose proof (len_nonneg q).
  pose proof (len_nonneg r). lia.
Qed.

Lemma stored_count_nonneg ops : 0 ≤ stored_count ops.
Proof.
  induction ops as [|o ops IH]; [done|]. simpl.
  change (foldr _ 0 ops) with (stored_count ops).
  destruct o as [| ? ? ? [?|] [|] [|] | |]; lia.
Qed.

Lemma stored_bytes_nonneg ops : 0 ≤ stored_bytes ops.
Proof.
  induction ops as [|o ops IH]; [done|]. simpl.
  change (foldr _ 0 ops) with (stored_bytes ops).
  destruct o as [| ? q r [?|] [|] [|] | |]; try lia.
  pose proof (entry_size_pos q r). lia.
Qed.

Lemma unpressed_snoc ops o : unpressed (ops ++ [o]) → unpressed ops.
Proof.
  unfold unpressed. rewrite stored_count_app, stored_bytes_app.
  pose proof (stored_count_nonneg [o]). pose proof (stored_bytes_nonneg [o]). lia.
Qed.

Lemma snoc_split_inv {A} (ops : list A) o pre x post :
  ops ++ [o] = pre ++ x :: post →
  (post = [] ∧ pre = ops ∧ x = o) ∨
  ∃ post0, post = post0 ++ [o] ∧ ops = pre ++ x :: post0.
Proof.
  intros Heq. destruct (snoc_cases post) as [->|(post0 & o' & ->)].
  - left. apply (app_inj_tail ops pre o x) in Heq as [-> ->]. done.
  - right. exists post0.
    change (pre ++ x :: post0 ++ [o']) with (pre ++ (x :: post0) ++ [o']) in Heq.
    rewrite app_assoc in Heq.
    apply app_inj_tail in Heq as [-> ->]. done.
Qed.

(** A scan leaves every live entry in the list, touched at most. *)
Lemma find_items_keeps ttl now q l a d :
  (a, d) ∈ l → expired ttl now d = false →
  ∃ d', (a, d') ∈ (find_items ttl now q (len q) [] l).1 ∧
        query d' = query d ∧ result d' = result d ∧
        created_time d' = created_time d.
Proof.
  intros Hin Hlive.
  destruct (find_items_spec ttl now q (len q) l [])
    as [(l1 & p & d0 & l2 & -> & _ & _ & _ & ->)|[_ ->]]; cbn [fst app].
  - apply elem_of_app in Hin as [Hin|[Heq|Hin]%elem_of_cons].
    + exists d. split; [|done]. right. apply elem_of_app. left.
      by apply live_elem_of_filter.
    + injection Heq as -> ->. exists (touch now d0). split; [by left|by destruct d0].
    + exists d. split; [|done]. right. apply elem_of_app. by right.
  - exists d. split; [|done]. by apply live_elem_of_filter.
Qed.

Lemma settled_step ctx o ops m l :
  default_config ctx → config_ok ctx → within_limits ctx l →
  Forall (λ x, entry_ok x.2) l → op_ok m o →
  unpressed (ops ++ [o]) → steady (ops ++ [o]) →
  settled ops l → settled (ops ++ [o]) (list_after ctx o l).
Proof.
  intros (Hme & Hms & Httl) Hcfg Hlim Hall Hok Hun Hsteady (Hcnt & Hsum & Hkeep).
  destruct Hun as [Hun1 Hun2]. rewrite stored_count_app in Hun1.
  rewrite stored_bytes_app in Hun2.
  unfold settled. rewrite stored_count_app, stored_bytes_app.
  (* the list that the operation leaves, and what it keeps *)
  assert (len_items (list_after ctx o l) ≤ stored_count ops + stored_count [o] ∧
          sum_bytes (list_after ctx o l) ≤ stored_bytes ops + stored_bytes [o] ∧
          (∀ a d, (a, d) ∈ l → spares (query d) o →
                  (∀ g, clock o = Some g →
                        0 ≤ created_time d ≤ g ∧ g < 2 ^ 62 ∧
                        g ≤ created_time d + DEFAULT_TTL) →
                  ∃ d', (a, d') ∈ list_after ctx o l ∧ query d' = query d ∧
                        result d' = result d ∧ created_time d' = created_time d) ∧
          (∀ t q r a, o = Put t q r (Some a) true true →
                      (a, new_entry t q r) ∈ list_after ctx o l))
    as (Hcnt' & Hsum' & Hstay & Hnew).
  { destruct o as [now q|now q r a aq ar|table|]; cbn [list_after].
    - (* get *)
      destruct (find_items_measures (default_ttl ctx) now q (len q) l [])
        as (Hn & Hs & _). cbn [app] in Hn, Hs.
      change (stored_count [Get now q]) with 0. change (stored_bytes [Get now q]) with 0.
      split_and!; try lia; [|done].
      intros a d Hin _ Hclk. destruct (Hclk now eq_refl) as (Hd & Hnow & Hlive).
      apply find_items_keeps; [done|]. rewrite Httl.
      apply not_true_is_false. intros Hexp. apply expired_iff in Hexp; lia.
    - (* put *)
      destruct a as [p|]; [destruct aq; [destruct ar|]|].
      + destruct Hok as (Hq & Hr & _).
        change (stored_count [Put now q r (Some p) true true]) with (1 + 0) in *.
        change (stored_bytes [Put now q r (Some p) true true])
          with (entry_size q r + 0) in *.
        pose proof (stored_count_nonneg ops). pose proof (stored_bytes_nonneg ops).
        pose proof (entry_size_pos q r).
        rewrite add_items_room.
        2:{ apply room_items_iff_fits; try done. unfold fits.
            rewrite Hme, Hms. unfold entry_size in *. split; lia. }
        rewrite len_items_cons, sum_bytes_cons.
        rewrite entry_bytes_new; try done.
        2:{ unfold DEFAULT_MAX_SIZE, INT_MAX in *. lia. }
        split_and!; try lia.
        * intros a d Hin _ _. exists d. split; [by right|done].
        * intros t q' r' a [= -> -> -> ->]. by left.
      + change (stored_count [Put now q r (Some p) true false]) with 0.
        change (stored_bytes [Put now q r (Some p) true false]) with 0.
        split_and!; try lia; [|done]. intros a d Hin _ _. by exists d.
      + change (stored_count [Put now q r (Some p) false ar]) with 0.
        change (stored_bytes [Put now q r (Some p) false ar]) with 0.
        split_and!; try lia; [|done]. intros a d Hin _ _. by exists d.
      + change (stored_count [Put now q r None aq ar]) with 0.
        change (stored_bytes [Put now q r None aq ar]) with 0.
        split_and!; try lia; [|done]. intros a d Hin _ _. by exists d.
    - (* invalidate *)
      destruct (invalidate_items_measures table l) as (Hn & Hs & _).
      change (stored_count [Invalidate table]) with 0.
      change (stored_bytes [Invalidate table]) with 0.
      split_and!; try lia; [|done].
      intros a d Hin Hsp _. exists d. split; [|done].
      apply elem_of_invalidate_items. split; [done|]. cbn [spares] in Hsp.
      unfold mentions. simpl. by rewrite Hsp.
    - (* clear *)
      change (stored_count [Clear]) with 0. change (stored_bytes [Clear]) with 0.
      pose proof (stored_count_nonneg ops). pose proof (stored_bytes_nonneg ops).
      change (len_items []) with 0. change (sum_bytes []) with 0.
      split_and!; try done; lia. }
  split; [done|]. split; [done|].
  intros pre t q r a post Hops Hsp Hclk.
  apply snoc_split_inv in Hops as [(-> & -> & <-)|(post0 & -> & ->)].
  - exists (new_entry t q r). split; [by eapply Hnew|done].
  - apply Forall_app in Hsp as [Hsp0 Ho]. rewrite Forall_singleton in Ho.
    rewrite omap_app in Hclk. apply Forall_app in Hclk as [Hclk0 Hclko].
    destruct (Hkeep pre t q r a post0 eq_refl Hsp0 Hclk0)
      as (d & Hin & Hq & Hr & Ht).
    destruct (Hstay a d Hin) as (d' & Hin' & Hq' & Hr' & Ht').
    + by rewrite Hq.
    + intros g Hg. destruct (steady_snoc _ _ Hsteady) as [_ Hnow].
      destruct (Hnow g Hg) as [Hrange Hle].
      assert (t ∈ omap clock (pre ++ Put t q r (Some a) true true :: post0)) as Hin_t.
      { rewrite omap_app. apply elem_of_app. right. cbn [omap clock]. by left. }
      apply Hle in Hin_t. rewrite Ht.
      change (omap clock [o]) with (match clock o with Some t => [t] | None => [] end)
        in Hclko.
      rewrite Hg in Hclko. rewrite Forall_singleton in Hclko. lia.
    + exists d'. split; [done|]. split_and!; congruence.
Qed.

Lemma last_store_unique q (pre pre' : list op) P P' post post' :
  pre ++ P :: post = pre' ++ P' :: post' →
  stores q P → stores q P' →
  Forall (λ o, ¬ stores q o) post → Forall (λ o, ¬ stores q o) post' →
  P = P'.
Proof.
  intros Heq HP HP' Hpost Hpost'. revert pre' Heq.
  induction pre as [|y pre IH]; intros [|y' pre'] Heq; simpl in Heq.
  - by injection Heq.
  - injection Heq as <- ->. exfalso.
    apply Forall_app in Hpost as [_ [Hno _]%Forall_cons_1]. done.
  - injection Heq as -> <-. exfalso.
    apply Forall_app in Hpost' as [_ [Hno _]%Forall_cons_1]. done.
  - injection Heq as _ Heq. by eapply IH.
Qed.

(** ** The order of the list *)

Lemma Forall_list_filter {A} (P : A → Prop) (f : A → bool) (l : list A) :
  Forall P l → Forall P (List.filter f l).
Proof.
  rewrite !Forall_forall. intros Hl x Hx. apply Hl.
  apply list_elem_of_In, filter_In in Hx as [Hx _]. by apply list_elem_of_In.
Qed.

Lemma by_recency_filter ops o (f : ptr * CacheEntry → bool) l :
  by_recency ops l → by_recency (ops ++ [o]) (List.filter f l).
Proof.
  intros [Hclk Hsort]. split.
  - apply Forall_list_filter. eapply Forall_impl; [exact Hclk|].
    intros x Hx. by apply clock_elem_snoc.
  - intros l1' x l2' Heq.
    apply filter_split_inv in Heq as (g1 & g2 & Hl & _ & -> & _).
    apply Forall_list_filter. by eapply Hsort.
Qed.

Lemma by_recency_keep ops o l : by_recency ops l → by_recency (ops ++ [o]) l.
Proof.
  intros [Hclk Hsort]. split; [|done].
  eapply Forall_impl; [exact Hclk|]. intros x Hx. by apply clock_elem_snoc.
Qed.

Lemma by_recency_take ops k l : by_recency ops l → by_recency ops (take k l).
Proof.
  intros [Hclk Hsort]. split; [by apply Forall_take|].
  intros l1 x l2 Heq.
  assert (l = l1 ++ x :: (l2 ++ drop k l)) as Hl.
  { rewrite <- (take_drop k l) at 1. rewrite Heq. by rewrite <- app_assoc. }
  apply Hsort in Hl. by apply Forall_app in Hl as [? _].
Qed.

(** A node stamped with the current clock reading goes in front. *)
Lemma by_recency_push ops o now a d l :
  steady (ops ++ [o]) → clock o = Some now → last_access_time d = now →
  by_recency ops l → by_recency (ops ++ [o]) ((a, d) :: l).
Proof.
  intros Hsteady Ho Hd [Hclk Hsort].
  destruct (steady_snoc _ _ Hsteady) as [_ Hnow].
  destruct (Hnow now Ho) as [_ Hle].
  assert (now ∈ omap clock (ops ++ [o])) as Hin.
  { rewrite omap_app. apply elem_of_app. right.
    change (omap clock [o]) with (match clock o with Some t => [t] | None => [] end).
    rewrite Ho. by left. }
  split.
  - apply Forall_cons. split; [simpl; by rewrite Hd|].
    eapply Forall_impl; [exact Hclk|]. intros x Hx. by apply clock_elem_snoc.
  - intros l1 x l2 Heq. destruct l1 as [|y l1]; simpl in Heq; injection Heq as <- Heq.
    + subst l2. simpl. rewrite Hd. eapply Forall_impl; [exact Hclk|].
      intros y Hy. simpl in Hy. apply Hle in Hy. lia.
    + by eapply Hsort.
Qed.

Lemma by_recency_get ops now q l :
  steady (ops ++ [Get now q]) → by_recency ops l →
  by_recency (ops ++ [Get now q]) (find_items DEFAULT_TTL now q (len q) [] l).1.
Proof.
  intros Hsteady Hrec.
  destruct (find_items_spec DEFAULT_TTL now q (len q) l [])
    as [(h1 & p & d & h2 & Hl & _ & _ & _ & ->)|[_ ->]]; cbn [fst app].
  - apply (by_recency_push ops (Get now q) now); [done|done|by destruct d|].
    destruct Hrec as [Hclk Hsort]. subst l. split.
    + apply Forall_app in Hclk as [Hclk1 [_ Hclk2]%Forall_cons_1].
      apply Forall_app. split; [by apply Forall_list_filter|done].
    + intros r1 x r2 Heq.
      apply app_split_inv in Heq as [(a2 & Hh1 & ->)|(b1 & -> & ->)].
      * apply filter_split_inv in Hh1 as (g1 & g2 & -> & _ & -> & _).
        specialize (Hsort g1 x (g2 ++ (p, d) :: h2)).
        rewrite <- app_assoc in Hsort. specialize (Hsort eq_refl).
        apply Forall_app in Hsort as [Hg2 [_ Hh2]%Forall_cons_1].
        apply Forall_app. split; [by apply Forall_list_filter|done].
      * apply (Hsort (h1 ++ (p, d) :: b1) x r2). by rewrite <- app_assoc.
  - by apply by_recency_filter.
Qed.

Lemma by_recency_step ctx o ops l :
  default_ttl ctx = DEFAULT_TTL → steady (ops ++ [o]) →
  by_recency ops l → by_recency (ops ++ [o]) (list_after ctx o l).
Proof.
  intros Httl Hsteady Hrec.
  destruct o as [now q|now q r a aq ar|table|]; cbn [list_after].
  - rewrite Httl. by apply by_recency_get.
  - destruct a as [p|]; [destruct aq; [destruct ar|]|];
      try (by apply by_recency_keep).
    unfold add_items.
    destruct (evict_items_spec (max_entries ctx) (max_size ctx) (new_entry now q r) l)
      as (k & _ & Hk & _).
    destruct (evict_items _ _ _ l) as [l' room]. simpl in Hk. subst l'.
    destruct room.
    + apply (by_recency_push ops _ now); try done. by apply by_recency_take.
    + apply by_recency_keep. by apply by_recency_take.
  - by apply by_recency_filter.
  - split; [apply Forall_nil_2|]. intros l1 x l2 Heq. by destruct l1.
Qed.

(** ** Histories *)

(** The invariant of a history: besides [cache_inv], the configuration is
    the default one, contexts other than [cp] are as they were before the
    context was created, the node store differs from the initial one on
    the nodes of the list only, every entry is backed by a put and is by
    itself within the size limit, under a steady clock the list is
    ranked and in the order of last access, and without pressure it is
    settled. *)
Lemma history_inv cp m0 ops outs m :
  history cp m0 ops outs m →
  ∃ ctx l,
    cache_inv m cp ctx l ∧ default_config ctx ∧
    (∀ c, c ≠ cp → cstore m !! c = cstore m0 !! c) ∧
    (∀ a, a ∈ ptrs l → estore m0 !! a = None) ∧
    (∀ a, a ∉ ptrs l → estore m !! a = estore m0 !! a) ∧
    Forall (backed ops) l ∧ Forall (sized (max_size ctx)) l ∧
    (steady ops → ranked ops l ∧ by_recency ops l) ∧
    (unpressed ops → steady ops → settled ops l).
Proof.
  induction 1 as [|ops outs m o out m' _ IH Hok Hstep].
  - exists new_context, []. split; [apply create_context_inv|].
    split; [by split_and!|]. split_and!.
    + intros c Hc. simpl. by rewrite lookup_insert_ne.
    + intros a Ha. by apply elem_of_nil in Ha.
    + done.
    + apply Forall_nil_2.
    + apply Forall_nil_2.
    + intros _. split; [intros l1 x l2 Heq; by destruct l1|].
      split; [apply Forall_nil_2|]. intros l1 x l2 Heq. by destruct l1.
    + intros _ _. split_and!; try done. intros pre t q r a post Heq. by destruct pre.
  - destruct IH
      as (ctx & l & Hinv & Hcfg & Hcs & Hnew & Hfr & Hback & Hsz & Hrank & Hset).
    destruct (step_cases cp m ctx l o m' out Hinv Hok Hstep)
      as (ctx' & Hinv' & Hsame & _ & Hcs' & (Hin & Hout & Hkeep)).
    exists ctx', (list_after ctx o l). split; [done|]. split_and!.
    + destruct Hcfg as (? & ? & ?), Hsame as (? & ? & ?).
      unfold default_config. split_and!; congruence.
    + intros c Hc. rewrite Hcs' by done. by apply Hcs.
    + intros a Ha. destruct (decide (a ∈ ptrs l)) as [Hl|Hl]; [by apply Hnew|].
      rewrite <- Hfr by done. by apply Hin.
    + intros a Ha. destruct (decide (a ∈ ptrs l)) as [Hl|Hl].
      * rewrite Hout by done. symmetry. by apply Hnew.
      * rewrite Hkeep by done. by apply Hfr.
    + by apply backed_step.
    + destruct Hsame as (_ & -> & _).
      destruct Hinv as (_ & _ & ? & ? & _). by eapply sized_step.
    + intros Hsteady. destruct (steady_snoc _ _ Hsteady) as [Hs _].
      destruct Hcfg as (_ & _ & Httl). destruct Hinv as (_ & _ & _ & _ & Hall).
      destruct (Hrank Hs) as [Hrk Hrec].
      split; [by apply ranked_step|by apply by_recency_step].
    + intros Hun Hsteady. destruct (steady_snoc _ _ Hsteady) as [Hs _].
      pose proof (unpressed_snoc _ _ Hun) as Hun0.
      destruct Hinv as (_ & _ & ? & ? & ?). eapply settled_step; eauto.
Qed.

Lemma history_reachable cp m0 ops outs m :
  history cp m0 ops outs m → reachable cp m.
Proof.
  induction 1 as [|ops outs m o out m' _ IH Hok Hstep].
  - apply reach_create.
  - by eapply reach_step.
Qed.

Lemma history_run cp m0 ops outs m :
  history cp m0 ops outs m →
  run cp (query_cache_create_context m0 (Some cp)).1 ops = Some (m, outs).
Proof.
  induction 1 as [|ops outs m o out m' _ IH Hok Hstep]; [done|].
  eapply run_app; [exact IH|]. cbn [run]. rewrite Hstep. done.
Qed.

(** Every reachable state has a history. *)
Lemma reachable_history cp m :
  reachable cp m → ∃ m0 ops outs, history cp m0 ops outs m.
Proof.
  induction 1 as [m0|m o m' out _ (m0 & ops & outs & Hh) Hok Hstep].
  - exists m0, [], []. apply history_create.
  - exists m0, (ops ++ [o]), (outs ++ [out]). by eapply history_step.
Qed.


(** ** No faults *)

Lemma get_outcome_len ttl now q l :
  Forall (λ x, entry_ok x.2) l →
  outcome_of (find_items ttl now q (len q) [] l).2 = Miss ∨
  ∃ r, outcome_of (find_items ttl now q (len q) [] l).2 = Hit r (len r).
Proof.
  intros Hall.
  destruct (find_items_spec ttl now q (len q) l [])
    as [(l1 & p & d & l2 & -> & _ & _ & _ & ->)|[_ ->]]; cbn [snd outcome_of];
    [|by left].
  right. exists (result d).
  apply Forall_app in Hall as [_ [(_ & Hrl & _) _]%Forall_cons_1].
  simpl in Hrl. by destruct d; simpl in *; subst.
Qed.

(** X1: in every state reached from a freshly created context through the
    interface, an operation issued with lengths that fit an [int] and, for
    a put, a node address that is not in use, returns: no null or dangling
    pointer is dereferenced and every loop ends.  A get returns a miss or a
    hit whose reported length is the length of the value; a put returns 0
    when its three allocations succeed and otherwise returns 1 with the
    memory unchanged; invalidate and clear return 0. *)
Theorem interface_never_faults cp m o :
  reachable cp m → op_ok m o →
  ∃ m' out,
    step cp m o = Some (m', out) ∧
    match o with
    | Get _ _ => out = Miss ∨ ∃ r, out = Hit r (len r)
    | Put _ _ _ (Some _) true true => out = Status 0
    | Put _ _ _ _ _ _ => out = Status 1 ∧ m' = m
    | Invalidate _ | Clear => out = Status 0
    end.
Proof.
  intros Hreach Hok.
  destruct (reachable_inv cp m Hreach) as (ctx & l & Hinv & _).
  destruct (step_total cp m ctx l o Hinv Hok) as (m' & out & Hstep).
  exists m', out. split; [done|].
  destruct (step_cases cp m ctx l o m' out Hinv Hok Hstep) as (ctx' & _ & _ & -> & _).
  destruct o as [now q|now q r a aq ar|table|]; cbn [outcome_after]; try done.
  - apply get_outcome_len. by destruct Hinv as (_ & _ & _ & _ & ?).
  - cbn [step] in Hstep.
    destruct a as [p|]; [destruct aq; [destruct ar|]|]; try done;
      rewrite query_cache_put_alloc_failure in Hstep by auto;
      cbn [mbind option_bind] in Hstep; by injection Hstep as <-.
Qed.

Lemma interface_never_faults_witness :
  (reachable sample_ctx fresh_mem ∧
   op_ok fresh_mem (Put 100 key_q val_r (Some 2%positive) true true)) ∧
  ∃ m' out,
    step sample_ctx fresh_mem (Put 100 key_q val_r (Some 2%positive) true true)
      = Some (m', out) ∧
    out = Status 0.
Proof.
  assert (reachable sample_ctx fresh_mem) as Hreach by apply reach_create.
  assert (op_ok fresh_mem (Put 100 key_q val_r (Some 2%positive) true true)) as Hok.
  { split; [vm_compute; reflexivity|]. split; [vm_compute; reflexivity|reflexivity]. }
  split; [by split|].
  exact (interface_never_faults sample_ctx fresh_mem
           (Put 100 key_q val_r (Some 2%positive) true true) Hreach Hok).
Defined.

(** ** What a context shares with the rest of the memory *)

(** X2: a context used through the interface touches nothing but itself
    and its own nodes.  After any history from its creation in a memory
    [m0], every other context is as in [m0], the nodes of the list were
    unallocated in [m0], and at every address outside the list the node
    store is as in [m0]: nodes that were evicted, expired, invalidated,
    cleared or dropped have been freed, and no node of another owner has
    been written or freed. *)
Theorem other_memory_is_untouched cp m0 ops outs m :
  history cp m0 ops outs m →
  ∃ ctx l,
    cstore m !! cp = Some ctx ∧ dll ctx (estore m) l ∧
    (∀ c, c ≠ cp → cstore m !! c = cstore m0 !! c) ∧
    (∀ a, a ∈ ptrs l → estore m0 !! a = None) ∧
    (∀ a, a ∉ ptrs l → estore m !! a = estore m0 !! a).
Proof.
  intros Hh.
  destruct (history_inv cp m0 ops outs m Hh)
    as (ctx & l & (Hc & Hdll & _) & _ & Hcs & Hnew & Hfr & _).
  by exists ctx, l.
Qed.

(** A history of two operations: a put and a hit on it. *)
Lemma sample_history :
  history sample_ctx empty_mem
    [Put 100 key_q val_r (Some 2%positive) true true; Get 200 key_q]
    [Status 0; Hit val_r 1]
    (mem_after [Put 100 key_q val_r (Some 2%positive) true true; Get 200 key_q]).
Proof.
  apply (history_step sample_ctx empty_mem
           [Put 100 key_q val_r (Some 2%positive) true true] [Status 0]
           one_entry_mem (Get 200 key_q) (Hit val_r 1)).
  - apply (history_step sample_ctx empty_mem [] [] fresh_mem
             (Put 100 key_q val_r (Some 2%positive) true true) (Status 0)).
    + apply history_create.
    + split; [vm_compute; reflexivity|]. split; [vm_compute; reflexivity|reflexivity].
    + vm_compute. reflexivity.
  - exact I.
  - vm_compute. reflexivity.
Qed.

Lemma other_memory_is_untouched_witness :
  history sample_ctx empty_mem
    [Put 100 key_q val_r (Some 2%positive) true true; Get 200 key_q]
    [Status 0; Hit val_r 1]
    (mem_after [Put 100 key_q val_r (Some 2%positive) true true; Get 200 key_q]) ∧
  ∃ ctx l,
    cstore (mem_after [Put 100 key_q val_r (Some 2%positive) true true; Get 200 key_q])
      !! sample_ctx = Some ctx ∧
    dll ctx
      (estore (mem_after [Put 100 key_q val_r (Some 2%positive) true true;
                          Get 200 key_q])) l ∧
    (∀ c, c ≠ sample_ctx →
          cstore (mem_after [Put 100 key_q val_r (Some 2%positive) true true;
                             Get 200 key_q]) !! c = cstore empty_mem !! c) ∧
    (∀ a, a ∈ ptrs l → estore empty_mem !! a = None) ∧
    (∀ a, a ∉ ptrs l →
          estore (mem_after [Put 100 key_q val_r (Some 2%positive) true true;
                             Get 200 key_q]) !! a = estore empty_mem !! a).
Proof.
  split; [exact sample_history|].
  exact (other_memory_is_untouched sample_ctx empty_mem _ _ _ sample_history).
Defined.

(** ** Hits and the puts behind them *)

(** X3: the cache makes up no result.  Whenever a get of [q] at clock
    reading [now] hits with the value [r] after some history, the history
    holds a put of exactly the key [q] with exactly the value [r] (all
    allocations succeeded), stamped at a clock reading [t] with
    [now - t <= DEFAULT_TTL], and since that put the context was neither
    cleared nor invalidated with a table name that [strstr] finds in [q].
    The length returned is the length of [r]. *)
Theorem hits_are_genuine cp m0 ops outs m now q m' r n :
  history cp m0 ops outs m →
  query_cache_get m (Some cp) now q = Some (m', 0, Some (r, n)) →
  ∃ pre t a post,
    ops = pre ++ Put t q r (Some a) true true :: post ∧
    Forall (spares q) post ∧
    to_time_t (now - t) ≤ DEFAULT_TTL ∧ n = len r.
Proof.
  intros Hh Hget.
  destruct (history_inv cp m0 ops outs m Hh)
    as (ctx & l & Hinv & (_ & _ & Httl) & _ & _ & _ & Hback & _).
  destruct (query_cache_get_inv m cp ctx l now q Hinv) as (m1 & ctx1 & Hget1 & _).
  rewrite Hget in Hget1.
  pose proof Hinv as (_ & _ & _ & _ & Hall).
  destruct (find_items_spec (default_ttl ctx) now q (len q) l [])
    as [(l1 & p & d & l2 & -> & Hlive & Hkey & _ & Hfind)|[_ Hfind]];
    rewrite Hfind in Hget1; cbn [snd fst get_outcome] in Hget1; [|done].
  apply Forall_app in Hall as [_ [Hd _]%Forall_cons_1].
  apply Forall_app in Hback as [_ [(pre & post & -> & Hpost) _]%Forall_cons_1].
  apply key_matches_iff in Hkey; [|done]. cbn [fst snd] in *.
  destruct Hd as (_ & Hrl & _).
  assert (result d = r ∧ result_len d = n) as [Hr Hn].
  { destruct d. simpl in *. by injection Hget1 as _ <- <-. }
  exists pre, (created_time d), p, post. subst q r n. split_and!; try done.
  rewrite <- Httl. unfold expired in Hlive. by apply Z.ltb_ge in Hlive.
Qed.

Lemma hits_are_genuine_witness :
  (history sample_ctx empty_mem
     [Put 100 key_q val_r (Some 2%positive) true true] [Status 0] one_entry_mem ∧
   query_cache_get one_entry_mem (Some sample_ctx) 200 key_q =
     Some (mem_after [Put 100 key_q val_r (Some 2%positive) true true; Get 200 key_q],
           0, Some (val_r, 1))) ∧
  ∃ pre t a post,
    [Put 100 key_q val_r (Some 2%positive) true true] =
      pre ++ Put t key_q val_r (Some a) true true :: post ∧
    Forall (spares key_q) post ∧
    to_time_t (200 - t) ≤ DEFAULT_TTL ∧ 1 = len val_r.
Proof.
  assert (history sample_ctx empty_mem
            [Put 100 key_q val_r (Some 2%positive) true true] [Status 0] one_entry_mem)
    as Hh.
  { apply (history_step sample_ctx empty_mem [] [] fresh_mem
             (Put 100 key_q val_r (Some 2%positive) true true) (Status 0)).
    - apply history_create.
    - split; [vm_compute; reflexivity|]. split; [vm_compute; reflexivity|reflexivity].
    - vm_compute. reflexivity. }
  assert (query_cache_get one_entry_mem (Some sample_ctx) 200 key_q =
            Some (mem_after [Put 100 key_q val_r (Some 2%positive) true true;
                             Get 200 key_q], 0, Some (val_r, 1))) as Hget
    by (vm_compute; reflexivity).
  split; [by split|].
  exact (hits_are_genuine sample_ctx empty_mem _ _ _ 200 key_q _ val_r 1 Hh Hget).
Defined.

(** ** Teardown *)

Lemma destroy_context_store m cp ctx l :
  cache_inv m cp ctx l →
  ∃ h', query_cache_destroy_context m (Some cp) = Some (mkMem (delete cp (cstore m)) h') ∧
        (∀ a, a ∈ ptrs l → h' !! a = None) ∧
        (∀ a, a ∉ ptrs l → h' !! a = estore m !! a).
Proof.
  intros (Hc & Hdll & _). unfold query_cache_destroy_context. rewrite Hc.
  cbn [mbind option_bind].
  pose proof (dll_length_le_size _ _ _ Hdll) as Hlen.
  destruct Hdll as (Hseg & Hnd & _).
  destruct (destroy_loop_dlseg l (estore m) None (head ctx) (tail ctx)
              (S (size (estore m))) Hseg Hnd ltac:(lia)) as (h' & -> & Hdel & Hfr).
  cbn [mbind option_bind]. by exists h'.
Qed.

(** X4: creation and teardown are inverse to each other around any use of
    the context.  When the context was created at an address that held no
    context, then after any history [query_cache_destroy_context] returns
    the memory exactly as it was before [query_cache_create_context]: the
    context and every node still in the list are freed, nothing else is,
    and nothing is leaked. *)
Theorem teardown_restores_memory cp m0 ops outs m :
  history cp m0 ops outs m → cstore m0 !! cp = None →
  query_cache_destroy_context m (Some cp) = Some m0.
Proof.
  intros Hh Hfresh.
  destruct (history_inv cp m0 ops outs m Hh)
    as (ctx & l & Hinv & _ & Hcs & Hnew & Hfr & _).
  destruct (destroy_context_store m cp ctx l Hinv) as (h' & -> & Hdel & Hkeep).
  destruct m0 as [cs0 es0]. simpl in *. f_equal. f_equal.
  - apply map_eq. intros c. destruct (decide (c = cp)) as [->|Hne].
    + by rewrite lookup_delete_eq.
    + rewrite lookup_delete_ne by done. by apply Hcs.
  - apply map_eq. intros a. destruct (decide (a ∈ ptrs l)) as [Hl|Hl].
    + rewrite Hdel by done. symmetry. by apply Hnew.
    + rewrite Hkeep by done. by apply Hfr.
Qed.

Lemma teardown_restores_memory_witness :
  (history sample_ctx empty_mem
     [Put 100 key_q val_r (Some 2%positive) true true; Get 200 key_q]
     [Status 0; Hit val_r 1]
     (mem_after [Put 100 key_q val_r (Some 2%positive) true true; Get 200 key_q]) ∧
   cstore empty_mem !! sample_ctx = None) ∧
  query_cache_destroy_context
    (mem_after [Put 100 key_q val_r (Some 2%positive) true true; Get 200 key_q])
    (Some sample_ctx) = Some empty_mem.
Proof.
  assert (cstore empty_mem !! sample_ctx = None) as Hfresh by reflexivity.
  split; [split; [exact sample_history|exact Hfresh]|].
  exact (teardown_restores_memory sample_ctx empty_mem _ _ _ sample_history Hfresh).
Defined.

(** ** The counters *)

Lemma one_entry_mem_reachable : reachable sample_ctx one_entry_mem.
Proof.
  apply (reach_step sample_ctx fresh_mem
           (Put 100 key_q val_r (Some 2%positive) true true) one_entry_mem (Status 0)).
  - apply reach_create.
  - split; [vm_compute; reflexivity|]. split; [vm_compute; reflexivity|reflexivity].
  - vm_compute. reflexivity.
Qed.

(** X5: in every state reached from a freshly created context through the
    interface, [entry_count] is the number of nodes of the list and
    [current_size] is the sum over the nodes of key length + value length
    + [sizeof(CacheEntry)], both as plain integers: neither counter has
    wrapped; the nodes have pairwise distinct addresses, the length fields
    of every node are the lengths of its buffers, and the three limits are
    still the defaults that [query_cache_create_context] set. *)
Theorem counters_are_exact cp m :
  reachable cp m →
  ∃ ctx l,
    cstore m !! cp = Some ctx ∧ dll ctx (estore m) l ∧
    entry_count ctx = Z.of_nat (length l) ∧
    current_size ctx = accounted l ∧
    NoDup (ptrs l) ∧
    Forall (λ x, query_len x.2 = len (query x.2) ∧
                 result_len x.2 = len (result x.2)) l ∧
    max_entries ctx = DEFAULT_MAX_ENTRIES ∧ max_size ctx = DEFAULT_MAX_SIZE ∧
    default_ttl ctx = DEFAULT_TTL.
Proof.
  intros Hreach.
  destruct (reachable_history cp m Hreach) as (m0 & ops & outs & Hh).
  destruct (history_inv cp m0 ops outs m Hh)
    as (ctx & l & Hinv & (Hme & Hms & Httl) & _ & _ & _ & _ & Hsz & _).
  destruct (cache_inv_counters m cp ctx l Hinv) as (Hcnt & Hsum & _).
  pose proof Hinv as (Hc & Hdll & (_ & _ & Hmax) & _ & Hall).
  exists ctx, l. split_and!; try done.
  - rewrite Hsum. by apply (sum_bytes_accounted (max_size ctx)).
  - by destruct Hdll as (_ & ? & _).
  - eapply Forall_impl; [exact Hall|]. by intros x (? & ? & _).
Qed.

Lemma counters_are_exact_witness :
  reachable sample_ctx one_entry_mem ∧
  ∃ ctx l,
    cstore one_entry_mem !! sample_ctx = Some ctx ∧ dll ctx (estore one_entry_mem) l ∧
    entry_count ctx = Z.of_nat (length l) ∧
    current_size ctx = accounted l ∧
    NoDup (ptrs l) ∧
    Forall (λ x, query_len x.2 = len (query x.2) ∧
                 result_len x.2 = len (result x.2)) l ∧
    max_entries ctx = DEFAULT_MAX_ENTRIES ∧ max_size ctx = DEFAULT_MAX_SIZE ∧
    default_ttl ctx = DEFAULT_TTL.
Proof.
  split; [exact one_entry_mem_reachable|].
  exact (counters_are_exact sample_ctx one_entry_mem one_entry_mem_reachable).
Defined.

(** ** Clearing, and the empty cache *)

Lemma mem_insert_id m cp ctx :
  cstore m !! cp = Some ctx → mkMem (<[cp := ctx]> (cstore m)) (estore m) = m.
Proof. intros Hc. destruct m as [cs es]. simpl in *. f_equal. by apply insert_id. Qed.

Lemma empty_cache_get m cp ctx now q :
  cache_inv m cp ctx [] → query_cache_get m (Some cp) now q = Some (m, 1, None).
Proof.
  intros (Hc & Hdll & _). destruct (dll_nil_inv _ _ Hdll) as [Hhd _].
  unfold query_cache_get. cbn [mbind option_bind]. rewrite Hc. cbn [mbind option_bind].
  unfold find_cache_entry. rewrite Hhd.
  change (find_loop (S (size (estore m))) ctx (estore m) None now q (len q))
    with (Some (ctx, estore m, @None ptr)).
  cbn [mbind option_bind]. by rewrite mem_insert_id.
Qed.

Lemma empty_cache_clear m cp ctx :
  cache_inv m cp ctx [] → query_cache_clear m (Some cp) = Some (m, 0).
Proof.
  intros (Hc & Hdll & _). destruct (dll_nil_inv _ _ Hdll) as [Hhd _].
  unfold query_cache_clear. cbn [mbind option_bind]. rewrite Hc. cbn [mbind option_bind].
  rewrite Hhd.
  change (clear_loop (S (size (estore m))) ctx (estore m) None)
    with (Some (ctx, estore m)).
  cbn [mbind option_bind]. by rewrite mem_insert_id.
Qed.

Lemma empty_cache_invalidate m cp ctx table :
  cache_inv m cp ctx [] → query_cache_invalidate m (Some cp) table = Some (m, 0).
Proof.
  intros (Hc & Hdll & _). destruct (dll_nil_inv _ _ Hdll) as [Hhd _].
  unfold query_cache_invalidate. cbn [mbind option_bind]. rewrite Hc.
  cbn [mbind option_bind]. rewrite Hhd.
  change (invalidate_loop (S (size (estore m))) ctx (estore m) None table)
    with (Some (ctx, estore m)).
  cbn [mbind option_bind]. by rewrite mem_insert_id.
Qed.

(** X6: [query_cache_clear] returns 0 and leaves an empty cache: head and
    tail are null, both counters are zero, the limits are unchanged, every
    node of the list is freed and no other address of the node store is
    touched.  A get of any key at any clock reading after it is a miss
    that changes nothing. *)
Theorem clear_empties_the_cache m cp ctx l :
  cache_inv m cp ctx l →
  ∃ m' ctx',
    query_cache_clear m (Some cp) = Some (m', 0) ∧
    cache_inv m' cp ctx' [] ∧
    head ctx' = None ∧ tail ctx' = None ∧
    entry_count ctx' = 0 ∧ current_size ctx' = 0 ∧
    same_config ctx ctx' ∧
    (∀ a, a ∈ ptrs l → estore m' !! a = None) ∧
    (∀ a, a ∉ ptrs l → estore m' !! a = estore m !! a) ∧
    (∀ now q, query_cache_get m' (Some cp) now q = Some (m', 1, None)).
Proof.
  intros Hinv.
  destruct (query_cache_clear_inv m cp ctx l Hinv)
    as (m' & ctx' & Hclear & Hinv' & Hsame & (_ & Hfr & Hdel)).
  exists m', ctx'. pose proof Hinv' as (_ & Hdll & _).
  destruct (dll_nil_counters _ _ Hdll) as (? & ? & ? & ?).
  split_and!; try done.
  - intros a Ha. apply Hdel; [done|]. apply not_elem_of_nil.
  - intros now q. by eapply empty_cache_get.
Qed.

Lemma clear_empties_the_cache_witness :
  cache_inv one_entry_mem sample_ctx one_entry_ctx one_entry_list ∧
  ∃ m' ctx',
    query_cache_clear one_entry_mem (Some sample_ctx) = Some (m', 0) ∧
    cache_inv m' sample_ctx ctx' [] ∧
    head ctx' = None ∧ tail ctx' = None ∧
    entry_count ctx' = 0 ∧ current_size ctx' = 0 ∧
    same_config one_entry_ctx ctx' ∧
    (∀ a, a ∈ ptrs one_entry_list → estore m' !! a = None) ∧
    (∀ a, a ∉ ptrs one_entry_list → estore m' !! a = estore one_entry_mem !! a) ∧
    (∀ now q, query_cache_get m' (Some sample_ctx) now q = Some (m', 1, None)).
Proof.
  split; [exact one_entry_mem_inv|].
  exact (clear_empties_the_cache one_entry_mem sample_ctx one_entry_ctx one_entry_list
           one_entry_mem_inv).
Defined.

(** X7: on an empty cache the three operations that only read or shrink
    the list are idle: clear and invalidate (with any table name) return 0
    and a get (of any key, at any clock reading) returns 1, each leaving
    the whole memory exactly as it was.  In particular a second clear
    after a clear changes nothing. *)
Theorem empty_cache_is_inert m cp ctx :
  cache_inv m cp ctx [] →
  query_cache_clear m (Some cp) = Some (m, 0) ∧
  (∀ table, query_cache_invalidate m (Some cp) table = Some (m, 0)) ∧
  (∀ now q, query_cache_get m (Some cp) now q = Some (m, 1, None)).
Proof.
  intros Hinv. split_and!.
  - by eapply empty_cache_clear.
  - intros table. by eapply empty_cache_invalidate.
  - intros now q. by eapply empty_cache_get.
Qed.

Lemma empty_cache_is_inert_witness :
  cache_inv fresh_mem sample_ctx new_context [] ∧
  query_cache_clear fresh_mem (Some sample_ctx) = Some (fresh_mem, 0) ∧
  (∀ table, query_cache_invalidate fresh_mem (Some sample_ctx) table
            = Some (fresh_mem, 0)) ∧
  (∀ now q, query_cache_get fresh_mem (Some sample_ctx) now q
            = Some (fresh_mem, 1, None)).
Proof.
  split; [exact fresh_mem_inv|].
  exact (empty_cache_is_inert fresh_mem sample_ctx new_context fresh_mem_inv).
Defined.

(** ** Invalidation with an empty table name *)

Lemma strstr_empty_needle q table : c_str table = [] → strstr q table = Some (c_str q).
Proof. intros Ht. unfold strstr. rewrite Ht. by destruct (c_str q). Qed.

Lemma invalidate_loop_step fuel ctx h p table :
  invalidate_loop (S fuel) ctx h (Some p) table =
  e ← h !! p;
  match strstr (query e) table with
  | Some _ =>
      '(ctx', h') ← remove_cache_entry ctx h p;
      invalidate_loop fuel ctx' h' (next e) table
  | None => invalidate_loop fuel ctx h (next e) table
  end.
Proof. reflexivity. Qed.

Lemma clear_loop_step fuel ctx h p :
  clear_loop (S fuel) ctx h (Some p) =
  e ← h !! p;
  '(ctx', h') ← remove_cache_entry ctx h p;
  clear_loop fuel ctx' h' (next e).
Proof. reflexivity. Qed.

Lemma invalidate_loop_empty_name table :
  c_str table = [] →
  ∀ fuel ctx h entry,
    invalidate_loop fuel ctx h entry table = clear_loop fuel ctx h entry.
Proof.
  intros Ht. induction fuel as [|fuel IH]; intros ctx h entry;
    destruct entry as [p|]; try reflexivity.
  rewrite invalidate_loop_step, clear_loop_step.
  destruct (h !! p) as [e|]; cbn [mbind option_bind]; [|reflexivity].
  rewrite strstr_empty_needle by done.
  destruct (remove_cache_entry ctx h p) as [[ctx' h']|]; cbn [mbind option_bind];
    [|reflexivity].
  apply IH.
Qed.

(** X8: [strstr] finds the empty string in every key, so an invalidation
    whose table name is empty -- or starts with a NUL byte -- is a clear:
    in every memory and for every handle, [query_cache_invalidate] with
    such a name does what [query_cache_clear] does, faults included. *)
Theorem invalidate_empty_name_is_clear m ctx table :
  c_str table = [] →
  query_cache_invalidate m ctx table = query_cache_clear m ctx.
Proof.
  intros Ht. unfold query_cache_invalidate, query_cache_clear.
  destruct ctx as [cp|]; [|done]. cbn [mbind option_bind].
  destruct (cstore m !! cp) as [c|]; [|done]. cbn [mbind option_bind].
  by rewrite invalidate_loop_empty_name.
Qed.

Lemma invalidate_empty_name_is_clear_witness :
  c_str [NUL; "x"%byte] = [] ∧
  query_cache_invalidate one_entry_mem (Some sample_ctx) [NUL; "x"%byte] =
    query_cache_clear one_entry_mem (Some sample_ctx).
Proof.
  assert (c_str [NUL; "x"%byte] = []) as Ht by reflexivity.
  split; [exact Ht|].
  exact (invalidate_empty_name_is_clear one_entry_mem (Some sample_ctx)
           [NUL; "x"%byte] Ht).
Defined.

(** ** Lookups after an invalidation *)

Lemma find_items_no_key ttl now q l :
  Forall (λ x, entry_ok x.2) l → Forall (λ x, query x.2 ≠ q) l →
  (find_items ttl now q (len q) [] l).2 = None.
Proof.
  intros Hall Hno.
  destruct (find_items_spec ttl now q (len q) l [])
    as [(l1 & p & d & l2 & -> & _ & Hkey & _ & _)|[_ ->]]; [|done].
  apply Forall_app in Hall as [_ [Hd _]%Forall_cons_1].
  apply Forall_app in Hno as [_ [Hq _]%Forall_cons_1].
  apply key_matches_iff in Hkey; done.
Qed.

(** X9: an invalidation leaves no entry behind that a get of a matching
    query could return.  If the table name [t], read as a C string, occurs
    in the query [q], read as a C string -- for byte sequences without NUL
    bytes: if [t] is a substring of [q] -- then after
    [query_cache_invalidate] with [t] a get of [q] misses, at every clock
    reading, whatever the cache held. *)
Theorem no_hit_after_invalidate m cp ctx l t now q :
  cache_inv m cp ctx l → is_substring (c_str t) (c_str q) →
  ∃ m1 m2,
    query_cache_invalidate m (Some cp) t = Some (m1, 0) ∧
    query_cache_get m1 (Some cp) now q = Some (m2, 1, None).
Proof.
  intros Hinv Hsub.
  destruct (query_cache_invalidate_inv m cp ctx l t Hinv)
    as (m1 & ctx1 & Hrun & Hinv1 & _).
  destruct (query_cache_get_inv m1 cp ctx1 _ now q Hinv1) as (m2 & ctx2 & Hget & _).
  exists m1, m2. split; [done|].
  rewrite find_items_no_key in Hget; [done| |].
  - by destruct Hinv1 as (_ & _ & _ & _ & ?).
  - apply Forall_forall. intros x [_ Hno]%elem_of_invalidate_items Hq.
    assert (mentions t x.2 = true) as Hyes by (apply mentions_iff; by rewrite Hq).
    congruence.
Qed.

Lemma no_hit_after_invalidate_witness :
  (cache_inv one_entry_mem sample_ctx one_entry_ctx one_entry_list ∧
   is_substring (c_str (list_byte_of_string "SELECT")) (c_str key_q)) ∧
  ∃ m1 m2,
    query_cache_invalidate one_entry_mem (Some sample_ctx)
      (list_byte_of_string "SELECT") = Some (m1, 0) ∧
    query_cache_get m1 (Some sample_ctx) 200 key_q = Some (m2, 1, None).
Proof.
  assert (is_substring (c_str (list_byte_of_string "SELECT")) (c_str key_q)) as Hsub.
  { exists [], (list_byte_of_string " 1"). reflexivity. }
  split; [split; [exact one_entry_mem_inv|exact Hsub]|].
  exact (no_hit_after_invalidate one_entry_mem sample_ctx one_entry_ctx one_entry_list
           (list_byte_of_string "SELECT") 200 key_q one_entry_mem_inv Hsub).
Defined.

(** ** Lookups: exact keys, live entries *)

Lemma passed_iff ttl now q x :
  entry_ok x.2 →
  passed ttl now q (len q) x ↔ (query x.2 = q → expired ttl now x.2 = true).
Proof.
  intros Hok. unfold passed. rewrite <- (key_matches_iff x.2 q Hok).
  destruct (expired ttl now x.2), (key_matches x.2 q (len q)); intuition congruence.
Qed.

(** X10: a lookup compares whole keys byte by byte and returns the first
    live match from the head.  A get of [q] returns 0 exactly when the
    list holds an entry whose key equals [q] and whose age does not exceed
    [default_ttl]; it then returns the value of the first such entry with
    the value's length, every entry in front of it having another key or
    being expired.  Otherwise -- no entry has the key [q], or all that
    have it are expired -- it returns 1 and no value. *)
Theorem lookup_is_exact m cp ctx l now q :
  cache_inv m cp ctx l →
  ∃ m' rc out,
    query_cache_get m (Some cp) now q = Some (m', rc, out) ∧
    (rc = 0 ∧
     (∃ l1 a d l2,
        l = l1 ++ (a, d) :: l2 ∧ query d = q ∧
        expired (default_ttl ctx) now d = false ∧
        out = Some (result d, len (result d)) ∧
        Forall (λ x, query x.2 = q → expired (default_ttl ctx) now x.2 = true) l1)
     ∨ rc = 1 ∧ out = None ∧
       Forall (λ x, query x.2 = q → expired (default_ttl ctx) now x.2 = true) l).
Proof.
  intros Hinv.
  destruct (query_cache_get_inv m cp ctx l now q Hinv) as (m' & ctx' & Hget & _).
  pose proof Hinv as (_ & _ & _ & _ & Hall).
  destruct (find_items_spec (default_ttl ctx) now q (len q) l [])
    as [(l1 & a & d & l2 & Hl & Hlive & Hkey & Hpassed & Hfind)|[Hpassed Hfind]];
    rewrite Hfind in Hget; cbn [fst snd get_outcome] in Hget.
  - eexists m', 0, _. split; [exact Hget|]. left. split; [done|].
    exists l1, a, d, l2. subst l.
    apply Forall_app in Hall as [Hall1 [Hd _]%Forall_cons_1].
    split_and!; try done.
    + by apply key_matches_iff in Hkey.
    + destruct Hd as (_ & Hrl & _). simpl in Hrl. destruct d; simpl in *. by rewrite Hrl.
    + rewrite Forall_forall in *. intros x Hx. apply passed_iff; auto.
  - eexists m', 1, _. split; [exact Hget|]. right. split_and!; try done.
    rewrite Forall_forall in *. intros x Hx. apply passed_iff; auto.
Qed.

Lemma lookup_is_exact_witness :
  cache_inv one_entry_mem sample_ctx one_entry_ctx one_entry_list ∧
  ∃ m' rc out,
    query_cache_get one_entry_mem (Some sample_ctx) 200 key_a = Some (m', rc, out) ∧
    (rc = 0 ∧
     (∃ l1 a d l2,
        one_entry_list = l1 ++ (a, d) :: l2 ∧ query d = key_a ∧
        expired (default_ttl one_entry_ctx) 200 d = false ∧
        out = Some (result d, len (result d)) ∧
        Forall (λ x, query x.2 = key_a →
                     expired (default_ttl one_entry_ctx) 200 x.2 = true) l1)
     ∨ rc = 1 ∧ out = None ∧
       Forall (λ x, query x.2 = key_a →
                    expired (default_ttl one_entry_ctx) 200 x.2 = true) one_entry_list).
Proof.
  split; [exact one_entry_mem_inv|].
  exact (lookup_is_exact one_entry_mem sample_ctx one_entry_ctx one_entry_list 200 key_a
           one_entry_mem_inv).
Defined.

(** ** What a hit writes *)

Lemma unlinked_fields e :
  query (unlinked e) = query e ∧ query_len (unlinked e) = query_len e ∧
  result (unlinked e) = result e ∧ result_len (unlinked e) = result_len e ∧
  created_time (unlinked e) = created_time e ∧
  last_access_time (unlinked e) = last_access_time e ∧
  access_count (unlinked e) = access_count e.
Proof. by destruct e. Qed.

(** X11: a hit writes two fields of the node it returns and nothing else
    of it: [access_count] grows by one (as an [int]) and
    [last_access_time] becomes the clock reading; the key, the value,
    their lengths and [created_time] stay as they were.  The node is then
    the head of the list. *)
Theorem hit_updates_metadata m cp ctx l now q m' r n :
  cache_inv m cp ctx l →
  query_cache_get m (Some cp) now q = Some (m', 0, Some (r, n)) →
  ∃ a e e' ctx',
    estore m !! a = Some e ∧ estore m' !! a = Some e' ∧
    cstore m' !! cp = Some ctx' ∧ head ctx' = Some a ∧ prev e' = None ∧
    query e = q ∧ result e = r ∧ result_len e = n ∧
    query e' = query e ∧ query_len e' = query_len e ∧
    result e' = result e ∧ result_len e' = result_len e ∧
    created_time e' = created_time e ∧
    last_access_time e' = now ∧
    access_count e' = to_int (access_count e + 1).
Proof.
  intros Hinv Hget.
  destruct (query_cache_get_inv m cp ctx l now q Hinv)
    as (m1 & ctx1 & Hget1 & Hinv1 & _).
  rewrite Hget in Hget1. pose proof Hinv as (_ & _ & _ & _ & Hall).
  destruct (find_items_spec (default_ttl ctx) now q (len q) l [])
    as [(l1 & a & d & l2 & Hl & _ & Hkey & _ & Hfind)|[_ Hfind]];
    rewrite Hfind in Hget1, Hinv1; cbn [fst snd get_outcome app] in Hget1, Hinv1;
    [|done].
  injection Hget1 as <- Hr Hn.
  assert ((a, d) ∈ l) as Hin.
  { rewrite Hl. apply elem_of_app. right. by left. }
  destruct (cache_inv_lookup m cp ctx l a d Hinv Hin) as (e & He & Hd).
  destruct (cache_inv_lookup m' cp ctx1 _ a (touch now d) Hinv1 ltac:(by left))
    as (e' & He' & Hd').
  rewrite Forall_forall in Hall. apply key_matches_iff in Hkey; [|by apply (Hall (a, d))].
  pose proof Hinv1 as (Hc1 & Hdll1 & _).
  pose proof (dll_head _ _ _ Hdll1) as Hhd. cbn [hd_ptr] in Hhd.
  destruct Hdll1 as ((_ & e1 & He1 & _ & Hpv & _) & _).
  rewrite He' in He1. injection He1 as <-.
  exists a, e, e', ctx1.
  pose proof (unlinked_fields e) as (? & ? & ? & ? & ? & ? & ?).
  pose proof (unlinked_fields e') as (? & ? & ? & ? & ? & ? & ?).
  rewrite Hd in *. rewrite Hd' in *.
  destruct d; simpl in *. split_and!; congruence.
Qed.

Lemma hit_updates_metadata_witness :
  (cache_inv one_entry_mem sample_ctx one_entry_ctx one_entry_list ∧
   query_cache_get one_entry_mem (Some sample_ctx) 200 key_q =
     Some (mem_after [Put 100 key_q val_r (Some 2%positive) true true; Get 200 key_q],
           0, Some (val_r, 1))) ∧
  ∃ a e e' ctx',
    estore one_entry_mem !! a = Some e ∧
    estore (mem_after [Put 100 key_q val_r (Some 2%positive) true true; Get 200 key_q])
      !! a = Some e' ∧
    cstore (mem_after [Put 100 key_q val_r (Some 2%positive) true true; Get 200 key_q])
      !! sample_ctx = Some ctx' ∧
    head ctx' = Some a ∧ prev e' = None ∧
    query e = key_q ∧ result e = val_r ∧ result_len e = 1 ∧
    query e' = query e ∧ query_len e' = query_len e ∧
    result e' = result e ∧ result_len e' = result_len e ∧
    created_time e' = created_time e ∧
    last_access_time e' = 200 ∧
    access_count e' = to_int (access_count e + 1).
Proof.
  assert (query_cache_get one_entry_mem (Some sample_ctx) 200 key_q =
            Some (mem_after [Put 100 key_q val_r (Some 2%positive) true true;
                             Get 200 key_q], 0, Some (val_r, 1))) as Hget
    by (vm_compute; reflexivity).
  split; [split; [exact one_entry_mem_inv|exact Hget]|].
  exact (hit_updates_metadata one_entry_mem sample_ctx one_entry_ctx one_entry_list
           200 key_q _ val_r 1 one_entry_mem_inv Hget).
Defined.

(** ** Hits and the age of an entry *)

Lemma get_only_entry m cp ctx l p d now :
  cache_inv m cp ctx l → (p, d) ∈ l →
  (∀ p' d', (p', d') ∈ l → query d' = query d → p' = p) →
  ∃ m' ctx' l',
    cache_inv m' cp ctx' l' ∧ same_config ctx ctx' ∧
    (∀ p' d', (p', d') ∈ l' → query d' = query d → p' = p) ∧
    (expired (default_ttl ctx) now d = true →
     query_cache_get m (Some cp) now (query d) = Some (m', 1, None) ∧
     estore m' !! p = None) ∧
    (expired (default_ttl ctx) now d = false →
     query_cache_get m (Some cp) now (query d) =
       Some (m', 0, Some (result d, result_len d)) ∧
     (p, touch now d) ∈ l').
Proof.
  intros Hinv Hin Huniq.
  destruct (query_cache_get_inv m cp ctx l now (query d) Hinv)
    as (m' & ctx' & Hget & Hinv' & Hsame & Hsh).
  pose proof Hinv as (_ & (_ & Hnd & _) & _ & _ & Hall).
  rewrite Forall_forall in Hall.
  exists m', ctx', (find_items (default_ttl ctx) now (query d) (len (query d)) [] l).1.
  split; [done|]. split; [done|]. split.
  { intros p' d' Hin' Hq. apply find_items_elem in Hin' as [Hin'|(d0 & Hin' & Hd0)].
    - by eapply Huniq.
    - simpl in *. subst d'. apply (Huniq p' d0 Hin'). by destruct d0. }
  destruct (find_items_spec (default_ttl ctx) now (query d) (len (query d)) l [])
    as [(l1 & p' & d' & l2 & Hl & Hlive & Hkey & Hpassed & Hfind)|[Hpassed Hfind]];
    rewrite Hfind in *; clear Hfind; cbn [fst snd get_outcome app] in *.
  - assert ((p', d') ∈ l) as Hin'.
    { rewrite Hl. apply elem_of_app. right. by left. }
    apply key_matches_iff in Hkey; [|by apply (Hall (p', d'))].
    assert (p' = p) as -> by (by eapply Huniq).
    assert (d' = d) as -> by (by eapply NoDup_ptrs_unique).
    split; [congruence|]. intros _. split; [by destruct d|by left].
  - rewrite Forall_forall in Hpassed.
    assert (expired (default_ttl ctx) now d = true) as Hd.
    { destruct (Hpassed _ Hin) as [?|Hno]; [done|]. simpl in Hno.
      assert (key_matches d (query d) (len (query d)) = true) as Hyes
        by (by apply key_matches_iff; [apply (Hall (p, d))|]).
      congruence. }
    split; [|congruence]. intros _. split; [done|].
    destruct Hsh as (_ & _ & Hdel). apply Hdel; [by eapply ptrs_elem|].
    simpl. by eapply expired_not_in_live.
Qed.

Lemma step_get_hit cp m now q m' r n :
  query_cache_get m (Some cp) now q = Some (m', 0, Some (r, n)) →
  step cp m (Get now q) = Some (m', Hit r n).
Proof. intros Hget. cbn [step]. by rewrite Hget. Qed.

Lemma step_get_miss cp m now q m' :
  query_cache_get m (Some cp) now q = Some (m', 1, None) →
  step cp m (Get now q) = Some (m', Miss).
Proof. intros Hget. cbn [step]. by rewrite Hget. Qed.

Lemma hits_then_late_miss cp hits late :
  ∀ m ctx l p d,
    cache_inv m cp ctx l → (p, d) ∈ l →
    (∀ p' d', (p', d') ∈ l → query d' = query d → p' = p) →
    Forall (λ g, expired (default_ttl ctx) g d = false) hits →
    expired (default_ttl ctx) late d = true →
    ∃ m',
      run cp m (map (λ g, Get g (query d)) hits ++ [Get late (query d)]) =
        Some (m', replicate (length hits) (Hit (result d) (result_len d)) ++ [Miss]) ∧
      estore m' !! p = None.
Proof.
  induction hits as [|g hits IH]; intros m ctx l p d Hinv Hin Huniq Hhits Hlate.
  - destruct (get_only_entry m cp ctx l p d late Hinv Hin Huniq)
      as (m' & _ & _ & _ & _ & _ & Hmiss & _).
    destruct (Hmiss Hlate) as [Hget Hfree].
    exists m'. split; [|done]. cbn [map length replicate app].
    eapply run_cons; [by apply step_get_miss|done].
  - apply Forall_cons in Hhits as [Hg Hhits].
    destruct (get_only_entry m cp ctx l p d g Hinv Hin Huniq)
      as (m1 & ctx1 & l1 & Hinv1 & (_ & _ & Httl) & Huniq1 & _ & Hhit).
    destruct (Hhit Hg) as [Hget Hin1].
    destruct (IH m1 ctx1 l1 p (touch g d) Hinv1 Hin1) as (m' & Hrun & Hfree).
    + intros p' d' Hin' Hq. apply (Huniq1 p' d' Hin'). by destruct d.
    + rewrite Httl. eapply Forall_impl; [exact Hhits|]. intros t Ht. by destruct d.
    + rewrite Httl. by destruct d.
    + exists m'. split; [|done]. cbn [map length replicate app].
      eapply run_cons; [by apply step_get_hit|].
      by destruct d.
Qed.

(** X12: the age of an entry counts from its insertion; hits do not renew
    it.  For an entry that is the only one with its key, any number of
    gets at clock readings up to [created_time + default_ttl] all hit with
    its value, and a get at a later clock reading then misses and frees
    the node -- however recently the entry was last returned.  (Clock
    differences are taken within the range of [time_t].) *)
Theorem hits_do_not_extend_ttl m cp ctx l p d hits late :
  cache_inv m cp ctx l → (p, d) ∈ l →
  (∀ p' d', (p', d') ∈ l → query d' = query d → p' = p) →
  Forall (λ g, - 2 ^ 63 ≤ g - created_time d < 2 ^ 63 ∧
               g ≤ created_time d + default_ttl ctx) hits →
  - 2 ^ 63 ≤ late - created_time d < 2 ^ 63 →
  created_time d + default_ttl ctx < late →
  ∃ m',
    run cp m (map (λ g, Get g (query d)) hits ++ [Get late (query d)]) =
      Some (m', replicate (length hits) (Hit (result d) (result_len d)) ++ [Miss]) ∧
    estore m' !! p = None.
Proof.
  intros Hinv Hin Huniq Hhits Hrange Hlate.
  apply (hits_then_late_miss cp hits late m ctx l p d); try done.
  - eapply Forall_impl; [exact Hhits|]. intros g [Hr Hg]. simpl in *.
    apply not_true_is_false. intros Hexp. apply expired_iff in Hexp; [lia|done].
  - by apply expired_iff.
Qed.

Lemma hits_do_not_extend_ttl_witness :
  (cache_inv one_entry_mem sample_ctx one_entry_ctx one_entry_list ∧
   (2%positive, new_entry 100 key_q val_r) ∈ one_entry_list ∧
   (∀ p' d', (p', d') ∈ one_entry_list → query d' = key_q → p' = 2%positive) ∧
   Forall (λ g, - 2 ^ 63 ≤ g - 100 < 2 ^ 63 ∧ g ≤ 100 + default_ttl one_entry_ctx)
     [200; 3000; 3700] ∧
   - 2 ^ 63 ≤ 3701 - 100 < 2 ^ 63 ∧
   100 + default_ttl one_entry_ctx < 3701) ∧
  ∃ m',
    run sample_ctx one_entry_mem
      [Get 200 key_q; Get 3000 key_q; Get 3700 key_q; Get 3701 key_q] =
      Some (m', [Hit val_r 1; Hit val_r 1; Hit val_r 1; Miss]) ∧
    estore m' !! 2%positive = None.
Proof.
  assert ((2%positive, new_entry 100 key_q val_r) ∈ one_entry_list) as Hin
    by (apply elem_of_cons; by left).
  assert (∀ p' d', (p', d') ∈ one_entry_list → query d' = key_q → p' = 2%positive)
    as Huniq.
  { intros p' d' Hin' _. apply elem_of_cons in Hin' as [Heq|Hnil].
    - by injection Heq.
    - by apply elem_of_nil in Hnil. }
  assert (Forall (λ g, - 2 ^ 63 ≤ g - 100 < 2 ^ 63 ∧ g ≤ 100 + default_ttl one_entry_ctx)
            [200; 3000; 3700]) as Hhits.
  { repeat (apply Forall_cons; split; [vm_compute; intuition discriminate|]).
    apply Forall_nil_2. }
  assert (- 2 ^ 63 ≤ 3701 - 100 < 2 ^ 63) as Hrange by lia.
  assert (100 + default_ttl one_entry_ctx < 3701) as Hlate by (vm_compute; reflexivity).
  split.
  { split; [exact one_entry_mem_inv|]. split; [exact Hin|]. split; [exact Huniq|].
    split; [exact Hhits|]. split; [exact Hrange|exact Hlate]. }
  exact (hits_do_not_extend_ttl one_entry_mem sample_ctx one_entry_ctx one_entry_list
           2%positive (new_entry 100 key_q val_r) [200; 3000; 3700] 3701
           one_entry_mem_inv Hin Huniq Hhits Hrange Hlate).
Defined.

(** ** Live entries stay *)

(** X13: a get removes nothing but expired entries.  Every entry whose age
    does not exceed [default_ttl] at the clock reading of the get is still
    allocated and in the list afterwards, whatever key was looked up:
    either untouched, or -- if it is the entry the get returns -- with the
    two fields of a hit updated, at the head of the list. *)
Theorem get_keeps_live_entries m cp ctx l now q a d :
  cache_inv m cp ctx l → (a, d) ∈ l → expired (default_ttl ctx) now d = false →
  ∃ m' rc out ctx' l' e,
    query_cache_get m (Some cp) now q = Some (m', rc, out) ∧
    cache_inv m' cp ctx' l' ∧ estore m' !! a = Some e ∧
    ((a, d) ∈ l' ∧ unlinked e = d
     ∨ (a, touch now d) ∈ l' ∧ unlinked e = touch now d ∧
       rc = 0 ∧ out = Some (result d, result_len d) ∧ head ctx' = Some a).
Proof.
  intros Hinv Hin Hlive.
  destruct (query_cache_get_inv m cp ctx l now q Hinv)
    as (m' & ctx' & Hget & Hinv' & _).
  pose proof Hinv as (_ & (_ & Hnd & _) & _).
  destruct (find_items_spec (default_ttl ctx) now q (len q) l [])
    as [(l1 & p & d0 & l2 & Hl & _ & _ & _ & Hfind)|[_ Hfind]];
    rewrite Hfind in Hget, Hinv'; cbn [fst snd get_outcome app] in Hget, Hinv'.
  - rewrite Hl in Hin. apply elem_of_app in Hin as [Hin|[Heq|Hin]%elem_of_cons].
    + assert ((a, d) ∈ (p, touch now d0) :: List.filter (live (default_ttl ctx) now) l1
                       ++ l2) as Hin'.
      { right. apply elem_of_app. left. by apply live_elem_of_filter. }
      destruct (cache_inv_lookup _ _ _ _ _ _ Hinv' Hin') as (e & He & Hd).
      eexists m', _, _, ctx', _, e. split; [exact Hget|]. split; [exact Hinv'|].
      split; [exact He|]. by left.
    + injection Heq as -> ->.
      assert ((p, touch now d0) ∈ (p, touch now d0)
                :: List.filter (live (default_ttl ctx) now) l1 ++ l2) as Hin'
        by (by left).
      destruct (cache_inv_lookup _ _ _ _ _ _ Hinv' Hin') as (e & He & Hd).
      eexists m', _, _, ctx', _, e. split; [exact Hget|]. split; [exact Hinv'|].
      split; [exact He|]. right.
      split; [exact Hin'|]. split; [exact Hd|]. split; [reflexivity|].
      split; [by destruct d0|].
      destruct Hinv' as (_ & Hdll & _). by rewrite (dll_head _ _ _ Hdll).
    + assert ((a, d) ∈ (p, touch now d0) :: List.filter (live (default_ttl ctx) now) l1
                       ++ l2) as Hin'.
      { right. apply elem_of_app. by right. }
      destruct (cache_inv_lookup _ _ _ _ _ _ Hinv' Hin') as (e & He & Hd).
      eexists m', _, _, ctx', _, e. split; [exact Hget|]. split; [exact Hinv'|].
      split; [exact He|]. by left.
  - assert ((a, d) ∈ List.filter (live (default_ttl ctx) now) l) as Hin'
      by (by apply live_elem_of_filter).
    destruct (cache_inv_lookup _ _ _ _ _ _ Hinv' Hin') as (e & He & Hd).
    eexists m', _, _, ctx', _, e. split; [exact Hget|]. split; [exact Hinv'|].
    split; [exact He|]. by left.
Qed.

Lemma get_keeps_live_entries_witness :
  (cache_inv one_entry_mem sample_ctx one_entry_ctx one_entry_list ∧
   (2%positive, new_entry 100 key_q val_r) ∈ one_entry_list ∧
   expired (default_ttl one_entry_ctx) 200 (new_entry 100 key_q val_r) = false) ∧
  ∃ m' rc out ctx' l' e,
    query_cache_get one_entry_mem (Some sample_ctx) 200 key_a = Some (m', rc, out) ∧
    cache_inv m' sample_ctx ctx' l' ∧ estore m' !! 2%positive = Some e ∧
    ((2%positive, new_entry 100 key_q val_r) ∈ l' ∧
     unlinked e = new_entry 100 key_q val_r
     ∨ (2%positive, touch 200 (new_entry 100 key_q val_r)) ∈ l' ∧
       unlinked e = touch 200 (new_entry 100 key_q val_r) ∧
       rc = 0 ∧
       out = Some (result (new_entry 100 key_q val_r),
                   result_len (new_entry 100 key_q val_r)) ∧
       head ctx' = Some 2%positive).
Proof.
  assert ((2%positive, new_entry 100 key_q val_r) ∈ one_entry_list) as Hin
    by (apply elem_of_cons; by left).
  assert (expired (default_ttl one_entry_ctx) 200 (new_entry 100 key_q val_r) = false)
    as Hlive by reflexivity.
  split; [split; [exact one_entry_mem_inv|split; [exact Hin|exact Hlive]]|].
  exact (get_keeps_live_entries one_entry_mem sample_ctx one_entry_ctx one_entry_list
           200 key_a 2%positive (new_entry 100 key_q val_r)
           one_entry_mem_inv Hin Hlive).
Defined.

(** ** Unlinking a node *)

(** X14: [remove_cache_entry] unlinks a node at any position of a
    well-formed list -- head, tail, in between, or the only node.  It
    returns with a well-formed list that lacks just this node, the other
    nodes in their order; [entry_count] is one less and [current_size] is
    less by the node's accounted bytes (in the arithmetic of [int] and
    [size_t]); the node is freed, the limits are unchanged, and no address
    outside the list is touched. *)
Theorem remove_cache_entry_unlinks ctx h l1 p d l2 :
  dll ctx h (l1 ++ (p, d) :: l2) →
  ∃ ctx' h',
    remove_cache_entry ctx h p = Some (ctx', h') ∧
    dll ctx' h' (l1 ++ l2) ∧
    head ctx' = hd_ptr (l1 ++ l2) ∧
    entry_count ctx' = to_int (entry_count ctx - 1) ∧
    current_size ctx' = to_size_t (current_size ctx - entry_bytes d) ∧
    same_config ctx ctx' ∧
    h' !! p = None ∧
    (∀ q, q ∉ ptrs (l1 ++ (p, d) :: l2) → h' !! q = h !! q).
Proof.
  intros Hdll.
  destruct (remove_cache_entry_dll ctx h l1 p d l2 Hdll)
    as (ctx' & h' & Hrm & Hdll' & Hsame & Hfree & Hfr).
  exists ctx', h'. split_and!; try done.
  - by eapply dll_head.
  - destruct Hdll as (_ & _ & -> & _), Hdll' as (_ & _ & -> & _).
    replace (to_int (len_items (l1 ++ (p, d) :: l2)) - 1)
      with (to_int (len_items (l1 ++ (p, d) :: l2)) + -1) by lia.
    rewrite to_int_add_l. f_equal.
    rewrite !len_items_app, len_items_cons. lia.
  - destruct Hdll as (_ & _ & _ & ->), Hdll' as (_ & _ & _ & ->).
    rewrite to_size_t_sub_l. f_equal.
    rewrite !sum_bytes_app, sum_bytes_cons. lia.
Qed.

Lemma one_entry_mem_dll :
  dll one_entry_ctx (estore one_entry_mem)
    ([] ++ (2%positive, new_entry 100 key_q val_r) :: []).
Proof. by destruct one_entry_mem_inv as (_ & ? & _). Qed.

Lemma remove_cache_entry_unlinks_witness :
  dll one_entry_ctx (estore one_entry_mem)
    ([] ++ (2%positive, new_entry 100 key_q val_r) :: []) ∧
  ∃ ctx' h',
    remove_cache_entry one_entry_ctx (estore one_entry_mem) 2%positive
      = Some (ctx', h') ∧
    dll ctx' h' ([] ++ []) ∧
    head ctx' = hd_ptr ([] ++ []) ∧
    entry_count ctx' = to_int (entry_count one_entry_ctx - 1) ∧
    current_size ctx' =
      to_size_t (current_size one_entry_ctx - entry_bytes (new_entry 100 key_q val_r)) ∧
    same_config one_entry_ctx ctx' ∧
    h' !! 2%positive = None ∧
    (∀ q, q ∉ ptrs ([] ++ (2%positive, new_entry 100 key_q val_r) :: []) →
          h' !! q = estore one_entry_mem !! q).
Proof.
  split; [exact one_entry_mem_dll|].
  exact (remove_cache_entry_unlinks one_entry_ctx (estore one_entry_mem) []
           2%positive (new_entry 100 key_q val_r) [] one_entry_mem_dll).
Defined.

(** ** Eviction from a full cache *)

(** X15: in a cache that holds [max_entries] entries, a put whose entry
    fits in [max_size] beside all entries but the last evicts exactly one
    entry, the tail of the list: the new entry becomes the head, the other
    entries follow in their order with their contents, and the tail node
    is freed. *)
Theorem full_cache_evicts_the_tail m cp ctx l a d now q r p :
  cache_inv m cp ctx (l ++ [(a, d)]) →
  len_items (l ++ [(a, d)]) = max_entries ctx →
  valid_len q → valid_len r → estore m !! p = None →
  sum_bytes l + entry_size q r ≤ max_size ctx →
  ∃ m' ctx',
    query_cache_put m (Some cp) now q r (Some p) true true = Some (m', 0) ∧
    cache_inv m' cp ctx' ((p, new_entry now q r) :: l) ∧
    head ctx' = Some p ∧
    estore m' !! a = None.
Proof.
  intros Hinv Hfull Hq Hr Hfresh Hsize.
  destruct (query_cache_put_inv m cp ctx _ now q r p Hinv Hfresh Hq Hr)
    as (m' & ctx' & Hput & Hinv' & _ & Hdel & _).
  pose proof Hinv as (_ & (Hseg & Hnd & _) & Hcfg & Hlim & _).
  assert (within_limits ctx l) as Hlim'.
  { destruct Hlim as [Hn Hs]. rewrite len_items_app in Hn. rewrite sum_bytes_app in Hs.
    pose proof (len_items_nonneg [(a, d)]). pose proof (sum_bytes_nonneg [(a, d)]).
    split; lia. }
  assert (add_items (max_entries ctx) (max_size ctx) p (new_entry now q r)
            (l ++ [(a, d)]) = (p, new_entry now q r) :: l) as Hadd.
  { rewrite add_items_evict_last.
    - apply add_items_room. apply room_items_iff_fits; try done. split.
      + rewrite <- Hfull, len_items_app. change (len_items [(a, d)]) with 1. lia.
      + unfold entry_size in Hsize. lia.
    - apply no_room_items_iff_not_fits; try done. intros [Hn _]. lia. }
  rewrite Hadd in Hinv', Hdel.
  exists m', ctx'. split; [done|]. split; [done|]. split.
  { destruct Hinv' as (_ & Hdll & _). by rewrite (dll_head _ _ _ Hdll). }
  assert (a ∈ ptrs (l ++ [(a, d)])) as Ha.
  { rewrite ptrs_app. apply elem_of_app. right. by left. }
  apply Hdel; [done|]. rewrite ptrs_cons. intros [->|Hin]%elem_of_cons.
  - destruct (dlseg_lookup _ _ _ _ _ _ _ Hseg Ha) as [? ?]. congruence.
  - rewrite ptrs_app in Hnd. apply NoDup_app in Hnd as (_ & Hdisj & _).
    apply (Hdisj a Hin). by left.
Qed.

Lemma two_slot_full_mem_inv :
  cache_inv two_slot_full_mem sample_ctx two_slot_full_ctx
    ([(3%positive, new_entry 11 key_b val_b)] ++ [(2%positive, new_entry 10 key_a val_a)]).
Proof. solve_cache_inv. Qed.

Lemma full_cache_evicts_the_tail_witness :
  (cache_inv two_slot_full_mem sample_ctx two_slot_full_ctx
     ([(3%positive, new_entry 11 key_b val_b)]
      ++ [(2%positive, new_entry 10 key_a val_a)]) ∧
   len_items ([(3%positive, new_entry 11 key_b val_b)]
              ++ [(2%positive, new_entry 10 key_a val_a)])
     = max_entries two_slot_full_ctx ∧
   valid_len key_c ∧ valid_len val_c ∧
   estore two_slot_full_mem !! 4%positive = None ∧
   sum_bytes [(3%positive, new_entry 11 key_b val_b)] + entry_size key_c val_c
     ≤ max_size two_slot_full_ctx) ∧
  ∃ m' ctx',
    query_cache_put two_slot_full_mem (Some sample_ctx) 12 key_c val_c
      (Some 4%positive) true true = Some (m', 0) ∧
    cache_inv m' sample_ctx ctx'
      ((4%positive, new_entry 12 key_c val_c)
       :: [(3%positive, new_entry 11 key_b val_b)]) ∧
    head ctx' = Some 4%positive ∧
    estore m' !! 2%positive = None.
Proof.
  assert (len_items ([(3%positive, new_entry 11 key_b val_b)]
                     ++ [(2%positive, new_entry 10 key_a val_a)])
          = max_entries two_slot_full_ctx) as Hfull by reflexivity.
  assert (valid_len key_c) as Hq by (vm_compute; reflexivity).
  assert (valid_len val_c) as Hr by (vm_compute; reflexivity).
  assert (estore two_slot_full_mem !! 4%positive = None) as Hfresh by reflexivity.
  assert (sum_bytes [(3%positive, new_entry 11 key_b val_b)] + entry_size key_c val_c
          ≤ max_size two_slot_full_ctx) as Hsize by (vm_compute; discriminate).
  split.
  { split; [exact two_slot_full_mem_inv|]. split; [exact Hfull|]. split; [exact Hq|].
    split; [exact Hr|]. split; [exact Hfresh|exact Hsize]. }
  exact (full_cache_evicts_the_tail two_slot_full_mem sample_ctx two_slot_full_ctx
           [(3%positive, new_entry 11 key_b val_b)] 2%positive
           (new_entry 10 key_a val_a) 12 key_c val_c 4%positive
           two_slot_full_mem_inv Hfull Hq Hr Hfresh Hsize).
Defined.

(** ** The most recent put wins *)

(** X16: under a clock that does not step back, a hit never returns a
    value that a later put of the same key has replaced.  Whenever a get
    of [q] hits with the value [r] after some history, [r] is the value of
    the most recent put of [q] whose allocations succeeded: no put of [q]
    was stored after it, the context was neither cleared nor invalidated
    with a table name that [strstr] finds in [q] since, and the put is at
    most [DEFAULT_TTL] old.  (All clock readings of the history and of the
    get are taken in [0, 2^62), in non-decreasing order.) *)
Theorem latest_put_wins cp m0 ops outs m now q m' r n :
  history cp m0 ops outs m → steady (ops ++ [Get now q]) →
  query_cache_get m (Some cp) now q = Some (m', 0, Some (r, n)) →
  ∃ pre t a post,
    ops = pre ++ Put t q r (Some a) true true :: post ∧
    Forall (λ o, ¬ stores q o) post ∧
    Forall (spares q) post ∧
    now ≤ t + DEFAULT_TTL ∧ n = len r.
Proof.
  intros Hh Hsteady Hget.
  destruct (steady_snoc _ _ Hsteady) as [Hs Hnow].
  destruct (Hnow now eq_refl) as [Hrange Hle].
  destruct (history_inv cp m0 ops outs m Hh)
    as (ctx & l & Hinv & (_ & _ & Httl) & _ & _ & _ & Hback & _ & Hrank & _).
  destruct (Hrank Hs) as [Hrk _].
  destruct (query_cache_get_inv m cp ctx l now q Hinv) as (m1 & ctx1 & Hget1 & _).
  rewrite Hget in Hget1. rewrite Httl in Hget1.
  pose proof Hinv as (_ & _ & _ & _ & Hall).
  destruct (find_items_spec DEFAULT_TTL now q (len q) l [])
    as [(l1 & p & d & l2 & Hl & Hlive & Hkey & Hpassed & Hfind)|[_ Hfind]];
    rewrite Hfind in Hget1; cbn [snd fst get_outcome] in Hget1; [|done].
  pose proof (ranked_get_hit ops now q l Hsteady Hall Hback Hrk l1 p d l2
                Hl Hlive Hkey Hpassed) as (pre & post & Hops & Hsp & Hst).
  assert ((p, d) ∈ l) as Hin by (rewrite Hl; apply elem_of_app; right; by left).
  rewrite Forall_forall in Hall, Hback.
  pose proof (Hall _ Hin) as Hd. pose proof (backed_clock _ _ (Hback _ Hin)) as Hclk.
  apply Hle in Hclk. cbn [fst snd] in *.
  apply key_matches_iff in Hkey; [|done].
  destruct Hd as (_ & Hrl & _).
  assert (result d = r ∧ result_len d = n) as [Hr Hn].
  { destruct d. simpl in *. by injection Hget1 as _ <- <-. }
  exists pre, (created_time d), p, post. subst q r n. split_and!; try done.
  destruct (Z_le_gt_dec now (created_time d + DEFAULT_TTL)) as [?|Hgt]; [done|].
  assert (expired DEFAULT_TTL now d = true) by (apply expired_iff; lia).
  congruence.
Qed.

Lemma busy_history :
  history sample_ctx empty_mem busy_ops
    [Status 0; Status 0; Hit val_a 2; Status 0] (mem_after busy_ops).
Proof.
  apply (history_step sample_ctx empty_mem
           [Put 100 key_q val_r (Some 2%positive) true true;
            Put 150 key_a val_a (Some 3%positive) true true;
            Get 160 key_a]
           [Status 0; Status 0; Hit val_a 2]
           (mem_after [Put 100 key_q val_r (Some 2%positive) true true;
                       Put 150 key_a val_a (Some 3%positive) true true;
                       Get 160 key_a])
           (Invalidate table_orders) (Status 0)).
  - apply (history_step sample_ctx empty_mem
             [Put 100 key_q val_r (Some 2%positive) true true;
              Put 150 key_a val_a (Some 3%positive) true true]
             [Status 0; Status 0]
             (mem_after [Put 100 key_q val_r (Some 2%positive) true true;
                         Put 150 key_a val_a (Some 3%positive) true true])
             (Get 160 key_a) (Hit val_a 2)).
    + apply (history_step sample_ctx empty_mem
               [Put 100 key_q val_r (Some 2%positive) true true] [Status 0]
               one_entry_mem
               (Put 150 key_a val_a (Some 3%positive) true true) (Status 0)).
      * apply (history_step sample_ctx empty_mem [] [] fresh_mem
                 (Put 100 key_q val_r (Some 2%positive) true true) (Status 0)).
        -- apply history_create.
        -- split; [vm_compute; reflexivity|].
           split; [vm_compute; reflexivity|reflexivity].
        -- vm_compute. reflexivity.
      * split; [vm_compute; reflexivity|].
        split; [vm_compute; reflexivity|reflexivity].
      * vm_compute. reflexivity.
    + exact I.
    + vm_compute. reflexivity.
  - exact I.
  - vm_compute. reflexivity.
Qed.

Lemma busy_ops_steady : steady (busy_ops ++ [Get 200 key_q]).
Proof. vm_compute. intuition discriminate. Qed.

Lemma busy_ops_get :
  query_cache_get (mem_after busy_ops) (Some sample_ctx) 200 key_q =
    Some (mem_after (busy_ops ++ [Get 200 key_q]), 0, Some (val_r, 1)).
Proof. vm_compute. reflexivity. Qed.

Lemma latest_put_wins_witness :
  (history sample_ctx empty_mem busy_ops
     [Status 0; Status 0; Hit val_a 2; Status 0] (mem_after busy_ops) ∧
   steady (busy_ops ++ [Get 200 key_q]) ∧
   query_cache_get (mem_after busy_ops) (Some sample_ctx) 200 key_q =
     Some (mem_after (busy_ops ++ [Get 200 key_q]), 0, Some (val_r, 1))) ∧
  ∃ pre t a post,
    busy_ops = pre ++ Put t key_q val_r (Some a) true true :: post ∧
    Forall (λ o, ¬ stores key_q o) post ∧
    Forall (spares key_q) post ∧
    200 ≤ t + DEFAULT_TTL ∧ 1 = len val_r.
Proof.
  split; [split; [exact busy_history|split; [exact busy_ops_steady|exact busy_ops_get]]|].
  exact (latest_put_wins sample_ctx empty_mem _ _ _ 200 key_q _ val_r 1
           busy_history busy_ops_steady busy_ops_get).
Defined.

(** When the clock steps back between two puts of one key, the older value
    can come back: the later put carries the smaller time stamp, expires
    first, and the get returns the value of the earlier put. *)
Lemma stale_hit_when_the_clock_steps_back :
  ∃ m,
    run sample_ctx fresh_mem
      [Put 5000 key_q val_a (Some 2%positive) true true;
       Put 100 key_q val_b (Some 3%positive) true true;
       Get 5000 key_q]
    = Some (m, [Status 0; Status 0; Hit val_a 2]).
Proof. eexists. vm_compute. reflexivity. Qed.

(** ** A stored entry is found *)

(** X17: hit-after-put with any operations in between.  Take a history in
    which everything that was stored fits in the default limits together
    (at most [DEFAULT_MAX_ENTRIES] stored entries, at most
    [DEFAULT_MAX_SIZE] accounted bytes) and whose clock is steady.  If it
    holds a put of [(q, r)] whose allocations succeeded, followed by
    operations among which there is no clear, no invalidate with a table
    name that [strstr] finds in [q], and no further stored put of [q],
    then a get of [q] at a clock reading up to [DEFAULT_TTL] after the put
    hits and returns [r] with its length -- whatever gets, puts of other
    keys, failed puts and other invalidations came in between. *)
Theorem put_is_found_while_room cp m0 ops outs m pre t q r a post now :
  history cp m0 ops outs m →
  ops = pre ++ Put t q r (Some a) true true :: post →
  Forall (spares q) post → Forall (λ o, ¬ stores q o) post →
  unpressed ops → steady (ops ++ [Get now q]) → now ≤ t + DEFAULT_TTL →
  ∃ m', query_cache_get m (Some cp) now q = Some (m', 0, Some (r, len r)).
Proof.
  intros Hh Hops Hsp Hst Hun Hsteady Hnow.
  destruct (steady_snoc _ _ Hsteady) as [Hs Hclk].
  destruct (Hclk now eq_refl) as [Hrange Hle].
  destruct (history_inv cp m0 ops outs m Hh)
    as (ctx & l & Hinv & (_ & _ & Httl) & _ & _ & _ & Hback & _ & Hrank & Hset).
  destruct (Hrank Hs) as [Hrk _]. destruct (Hset Hun Hs) as (_ & _ & Hkeep).
  destruct (Hkeep pre t q r a post Hops Hsp) as (d & Hin & Hq & Hr & Ht).
  { apply Forall_forall. intros g Hg.
    assert (g ∈ omap clock ops) as Hg'.
    { rewrite Hops, omap_app. apply elem_of_app. right. cbn [omap clock]. by right. }
    apply Hle in Hg'. lia. }
  assert (0 ≤ t ≤ now) as Ht0.
  { apply Hle. rewrite Hops, omap_app. apply elem_of_app. right. cbn [omap clock].
    by left. }
  destruct (query_cache_get_inv m cp ctx l now q Hinv) as (m' & ctx' & Hget & _).
  rewrite Httl in Hget. exists m'. rewrite Hget.
  pose proof Hinv as (_ & _ & _ & _ & Hall).
  assert (expired DEFAULT_TTL now d = false) as Hlive.
  { apply not_true_is_false. intros Hexp. apply expired_iff in Hexp; lia. }
  pose proof Hall as Hok. rewrite Forall_forall in Hok.
  destruct (find_items_spec DEFAULT_TTL now q (len q) l [])
    as [(l1 & p & d0 & l2 & Hl & Hlive0 & Hkey & Hpassed & ->)|[Hpassed ->]];
    cbn [snd fst get_outcome].
  - pose proof (ranked_get_hit ops now q l Hsteady Hall Hback Hrk l1 p d0 l2
                  Hl Hlive0 Hkey Hpassed) as (pre' & post' & Hops' & _ & Hst').
    assert ((p, d0) ∈ l) as Hin0 by (rewrite Hl; apply elem_of_app; right; by left).
    pose proof (Hok _ Hin0) as (_ & Hrl & _). cbn [fst snd] in *.
    apply key_matches_iff in Hkey; [|by apply (Hok (p, d0))].
    rewrite Hops in Hops'. rewrite Hkey in Hops', Hst'.
    pose proof (last_store_unique q _ _ _ _ _ _ Hops' eq_refl eq_refl Hst Hst') as Heq.
    injection Heq as _ Hres _.
    destruct d0; simpl in *. by subst.
  - exfalso. rewrite Forall_forall in Hpassed.
    destruct (Hpassed _ Hin) as [Hexp|Hno]; simpl in *; [congruence|].
    assert (key_matches d q (len q) = true)
      by (apply key_matches_iff; [by apply (Hok (a, d))|done]).
    congruence.
Qed.

Lemma busy_ops_tail_spares :
  Forall (spares key_q)
    [Put 150 key_a val_a (Some 3%positive) true true; Get 160 key_a;
     Invalidate table_orders].
Proof.
  apply Forall_cons. split; [exact I|]. apply Forall_cons. split; [exact I|].
  apply Forall_cons. split; [reflexivity|]. apply Forall_nil_2.
Qed.

Lemma busy_ops_tail_stores :
  Forall (λ o, ¬ stores key_q o)
    [Put 150 key_a val_a (Some 3%positive) true true; Get 160 key_a;
     Invalidate table_orders].
Proof.
  apply Forall_cons. split; [cbn [stores]; discriminate|].
  apply Forall_cons. split; [by intros []|].
  apply Forall_cons. split; [by intros []|]. apply Forall_nil_2.
Qed.

Lemma put_is_found_while_room_witness :
  (history sample_ctx empty_mem busy_ops
     [Status 0; Status 0; Hit val_a 2; Status 0] (mem_after busy_ops) ∧
   busy_ops = [] ++ Put 100 key_q val_r (Some 2%positive) true true
                 :: [Put 150 key_a val_a (Some 3%positive) true true; Get 160 key_a;
                     Invalidate table_orders] ∧
   Forall (spares key_q)
     [Put 150 key_a val_a (Some 3%positive) true true; Get 160 key_a;
      Invalidate table_orders] ∧
   Forall (λ o, ¬ stores key_q o)
     [Put 150 key_a val_a (Some 3%positive) true true; Get 160 key_a;
      Invalidate table_orders] ∧
   unpressed busy_ops ∧
   steady (busy_ops ++ [Get 200 key_q]) ∧
   200 ≤ 100 + DEFAULT_TTL) ∧
  ∃ m', query_cache_get (mem_after busy_ops) (Some sample_ctx) 200 key_q =
          Some (m', 0, Some (val_r, len val_r)).
Proof.
  assert (busy_ops = [] ++ Put 100 key_q val_r (Some 2%positive) true true
                       :: [Put 150 key_a val_a (Some 3%positive) true true;
                           Get 160 key_a; Invalidate table_orders]) as Hops
    by reflexivity.
  assert (unpressed busy_ops) as Hun by (vm_compute; intuition discriminate).
  assert (200 ≤ 100 + DEFAULT_TTL) as Hnow by (vm_compute; discriminate).
  split.
  { split; [exact busy_history|]. split; [exact Hops|].
    split; [exact busy_ops_tail_spares|]. split; [exact busy_ops_tail_stores|].
    split; [exact Hun|]. split; [exact busy_ops_steady|exact Hnow]. }
  exact (put_is_found_while_room sample_ctx empty_mem busy_ops _ _ []
           100 key_q val_r 2%positive _ 200 busy_history Hops
           busy_ops_tail_spares busy_ops_tail_stores Hun busy_ops_steady Hnow).
Defined.

(** ** Least recently used *)

(** X18: under a steady clock the list is in the order of last access,
    most recent first -- every put and every hit stamps its node with the
    clock reading and moves it to the head, and removals keep the order.
    Hence a put evicts least recently used entries: for some [k] it keeps
    the first [k] entries with their contents and frees the others, and
    no evicted entry was accessed later than a kept one. *)
Theorem eviction_takes_the_least_recent cp m0 ops outs m :
  history cp m0 ops outs m → steady ops →
  ∃ ctx l,
    cstore m !! cp = Some ctx ∧ dll ctx (estore m) l ∧
    (∀ l1 x l2,
       l = l1 ++ x :: l2 →
       Forall (λ y, last_access_time y.2 ≤ last_access_time x.2) l2) ∧
    ∀ now q r p,
      valid_len q → valid_len r → estore m !! p = None →
      ∃ m' k,
        query_cache_put m (Some cp) now q r (Some p) true true = Some (m', 0) ∧
        (∀ x, x ∈ take k l → ∃ e, estore m' !! x.1 = Some e ∧ unlinked e = x.2) ∧
        (∀ y, y ∈ drop k l → estore m' !! y.1 = None) ∧
        (∀ x y, x ∈ take k l → y ∈ drop k l →
                last_access_time y.2 ≤ last_access_time x.2).
Proof.
  intros Hh Hsteady.
  destruct (history_inv cp m0 ops outs m Hh)
    as (ctx & l & Hinv & _ & _ & _ & _ & _ & _ & Hrank & _).
  destruct (Hrank Hsteady) as [_ [_ Hsort]].
  pose proof Hinv as (Hc & Hdll & _).
  exists ctx, l. split; [done|]. split; [done|]. split; [done|].
  intros now q r p Hq Hr Hfresh.
  destruct (query_cache_put_inv m cp ctx l now q r p Hinv Hfresh Hq Hr)
    as (m' & ctx' & Hput & Hinv' & _ & Hdel & _).
  destruct (evict_items_spec (max_entries ctx) (max_size ctx) (new_entry now q r) l)
    as (k & _ & Hk & _).
  exists m', k. split; [done|].
  assert (∀ x, x ∈ ptrs (add_items (max_entries ctx) (max_size ctx) p
                           (new_entry now q r) l) → x = p ∨ x ∈ ptrs (take k l))
    as Hafter.
  { intros x. unfold add_items.
    destruct (evict_items _ _ _ l) as [l' room]. simpl in Hk. subst l'.
    destruct room; [|by right]. rewrite ptrs_cons.
    intros [->|?]%elem_of_cons; [by left|by right]. }
  assert (∀ x, x ∈ take k l →
               x ∈ add_items (max_entries ctx) (max_size ctx) p (new_entry now q r) l)
    as Hkept.
  { intros x Hx. unfold add_items.
    destruct (evict_items _ _ _ l) as [l' room] eqn:Hev. simpl in Hk. subst l'.
    destruct room; [by right|].
    destruct (evict_items_spec (max_entries ctx) (max_size ctx) (new_entry now q r) l)
      as (k' & _ & Hk' & _ & Hzero & _).
    rewrite Hev in Hk', Hzero. simpl in Hk', Hzero.
    rewrite (Hzero eq_refl) in Hk'. rewrite Hk' in Hx. by apply elem_of_nil in Hx. }
  destruct Hdll as (Hseg & Hnd & _).
  split_and!.
  - intros [a d] Hx. eapply cache_inv_lookup; [exact Hinv'|]. by apply Hkept.
  - intros [a d] Hy. simpl.
    assert (a ∈ ptrs l) as Ha.
    { apply (ptrs_elem a d). rewrite <- (take_drop k l). apply elem_of_app. by right. }
    apply Hdel; [done|]. intros [->|Hin]%Hafter.
    + destruct (dlseg_lookup _ _ _ _ _ _ _ Hseg Ha) as [? ?]. congruence.
    + rewrite <- (take_drop k l), ptrs_app in Hnd.
      apply NoDup_app in Hnd as (_ & Hdisj & _).
      apply (Hdisj a Hin). by apply (ptrs_elem a d).
  - intros x y Hx Hy. apply list_elem_of_split in Hx as (t1 & t2 & Htake).
    assert (l = t1 ++ x :: (t2 ++ drop k l)) as Hl.
    { rewrite <- (take_drop k l) at 1. rewrite Htake. by rewrite <- app_assoc. }
    apply Hsort in Hl. rewrite Forall_forall in Hl. apply Hl.
    apply elem_of_app. by right.
Qed.

Lemma busy_ops_steady_prefix : steady busy_ops.
Proof. vm_compute. intuition discriminate. Qed.

Lemma eviction_takes_the_least_recent_witness :
  (history sample_ctx empty_mem busy_ops
     [Status 0; Status 0; Hit val_a 2; Status 0] (mem_after busy_ops) ∧
   steady busy_ops) ∧
  ∃ ctx l,
    cstore (mem_after busy_ops) !! sample_ctx = Some ctx ∧
    dll ctx (estore (mem_after busy_ops)) l ∧
    (∀ l1 x l2,
       l = l1 ++ x :: l2 →
       Forall (λ y, last_access_time y.2 ≤ last_access_time x.2) l2) ∧
    ∀ now q r p,
      valid_len q → valid_len r → estore (mem_after busy_ops) !! p = None →
      ∃ m' k,
        query_cache_put (mem_after busy_ops) (Some sample_ctx) now q r (Some p)
          true true = Some (m', 0) ∧
        (∀ x, x ∈ take k l → ∃ e, estore m' !! x.1 = Some e ∧ unlinked e = x.2) ∧
        (∀ y, y ∈ drop k l → estore m' !! y.1 = None) ∧
        (∀ x y, x ∈ take k l → y ∈ drop k l →
                last_access_time y.2 ≤ last_access_time x.2).
Proof.
  split; [split; [exact busy_history|exact busy_ops_steady_prefix]|].
  exact (eviction_takes_the_least_recent sample_ctx empty_mem _ _ _
           busy_history busy_ops_steady_prefix).
Defined.
